(** * Physics-Manim: the numerical core

    A shallow embedding of the numerical subsystem of the repository:

    - [src/objects/particles.py]: [ChargedParticle] (clock, the three recent
      positions, the bounded position / acceleration history, the sub-stepped
      Euler integrator);
    - [src/utils/forces.py]: [points_to_particle_info], [coulomb_force],
      [lorentz_force];
    - [src/objects/fields.py]: [CoulombField.get_forces] and
      [LorentzField.get_forces];
    - [src/objects/waves.py]: [PropagatingRings.update_rings],
      [OscillatingWave] and [AccelerationVector.pin_to_particle];
    - [src/scenes/e_field_by_moving_charge.py]: [oscillation_function] and
      [_update_config].

    Numbers.  Python floats and numpy float64 entries are modelled by the real
    numbers [R] (exact arithmetic, no rounding); the one non-real value the
    source produces on purpose, [np.inf], is kept apart in the type [xreal].
    Where rounding decides a question, the computation is repeated in
    binary64 ([get_acceleration_f64]).  Python integers that index arrays
    are [Z], with Python's negative indexing written out.  Exceptions are
    modelled by the error monad [result]: the exceptions of the code itself,
    of a force function the caller registered, and of Python's float
    division by zero; numpy's divisions do not raise. *)

From Stdlib Require Import Floats.
From Stdlib Require Import String.
From Stdlib Require Import Reals Lra Lia ZArith List Bool Permutation.
Import ListNotations.
Open Scope R_scope.

Set Implicit Arguments.

(* ================================================================== *)
(** ** Exceptions *)

Inductive exn : Type :=
| AttributeError
| IndexError
| ValueError
| TypeError
| ZeroDivisionError
| Exception (msg : string).

Inductive result (A : Type) : Type :=
| Ok (a : A)
| Raise (e : exn).

Arguments Ok {A} a.
Arguments Raise {A} e.

Definition bind {A B : Type} (m : result A) (k : A -> result B) : result B :=
  match m with
  | Ok a => k a
  | Raise e => Raise e
  end.

Notation "x <- m ;; k" := (bind m (fun x => k))
  (at level 61, m at next level, right associativity).
Notation "' pat <- m ;; k" := (bind m (fun x => match x with pat => k end))
  (at level 61, pat pattern, m at next level, right associativity).

Definition raises {A : Type} (m : result A) : Prop :=
  exists e, m = Raise e.

Fixpoint mapM {A B : Type} (f : A -> result B) (l : list A) : result (list B) :=
  match l with
  | [] => Ok []
  | a :: l' => b <- f a ;; bs <- mapM f l' ;; Ok (b :: bs)
  end.

(* ================================================================== *)
(** ** Scalars: comparisons, [np.isclose], [np.clip], [astype(int)] *)

Definition Rltb (x y : R) : bool := if Rlt_dec x y then true else false.
Definition Rleb (x y : R) : bool := if Rle_dec x y then true else false.
Definition Reqb (x y : R) : bool := if Req_dec_T x y then true else false.

(** [np.isclose(a, b)] with numpy's defaults [rtol=1e-05], [atol=1e-08]. *)
Definition rtol : R := 1e-5.
Definition atol : R := 1e-8.
Definition isclose (a b : R) : bool := Rleb (Rabs (a - b)) (atol + rtol * Rabs b).

(** [np.clip(x, lo, hi)] is [minimum(maximum(x, lo), hi)]. *)
Definition clip (x lo hi : R) : R := Rmin (Rmax x lo) hi.

(** [x.astype(int)]: truncation toward zero. *)
Definition trunc (x : R) : Z :=
  if Rle_dec 0 x then Int_part x else (- Int_part (- x))%Z.

(** A float64 that is either a real number or [np.inf]. *)
Inductive xreal : Type :=
| Fin (x : R)
| PInf.

(** [a ** 2]. *)
Definition xsqr (a : xreal) : xreal :=
  match a with
  | Fin x => Fin (x ^ 2)
  | PInf => PInf
  end.

(** [k * a] for a real [k]; [k * inf] is infinite (its sign plays no role
    below, where it only ever divides a finite number). *)
Definition xscale (k : R) (a : xreal) : xreal :=
  match a with
  | Fin x => Fin (k * x)
  | PInf => PInf
  end.

(* ================================================================== *)
(** ** 3-vectors (rows of an (n, 3) numpy array) *)

Record Vect3 : Type := mkVect3 { vx : R; vy : R; vz : R }.

Definition zeros3 : Vect3 := mkVect3 0 0 0.

Definition vadd (a b : Vect3) : Vect3 :=
  mkVect3 (vx a + vx b) (vy a + vy b) (vz a + vz b).
Definition vsub (a b : Vect3) : Vect3 :=
  mkVect3 (vx a - vx b) (vy a - vy b) (vz a - vz b).
(** elementwise product of two rows *)
Definition vmul (a b : Vect3) : Vect3 :=
  mkVect3 (vx a * vx b) (vy a * vy b) (vz a * vz b).
(** scalar times row *)
Definition smul (k : R) (a : Vect3) : Vect3 :=
  mkVect3 (k * vx a) (k * vy a) (k * vz a).
(** row divided by scalar *)
Definition sdiv (a : Vect3) (k : R) : Vect3 :=
  mkVect3 (vx a / k) (vy a / k) (vz a / k).
(** row plus scalar (broadcast) *)
Definition vaddk (a : Vect3) (k : R) : Vect3 :=
  mkVect3 (vx a + k) (vy a + k) (vz a + k).
(** scalar plus row (broadcast) *)
Definition sadd (k : R) (a : Vect3) : Vect3 :=
  mkVect3 (k + vx a) (k + vy a) (k + vz a).
Definition vneg (a : Vect3) : Vect3 :=
  mkVect3 (- vx a) (- vy a) (- vz a).
(** [v.sum()] of one row *)
Definition vsum (a : Vect3) : R := vx a + vy a + vz a.
(** [np.linalg.norm] of one row *)
Definition norm (a : Vect3) : R :=
  sqrt (vx a * vx a + vy a * vy a + vz a * vz a).

(** row divided by a possibly infinite scalar: [x / inf = 0]. *)
Definition xdiv (a : Vect3) (k : xreal) : Vect3 :=
  match k with
  | Fin x => sdiv a x
  | PInf => zeros3
  end.

(** [np.isclose(p, q).all()] *)
Definition allclose (p q : Vect3) : bool :=
  isclose (vx p) (vx q) && isclose (vy p) (vy q) && isclose (vz p) (vz q).

Fixpoint zipWith {A B C : Type} (f : A -> B -> C) (l : list A) (m : list B)
  : list C :=
  match l, m with
  | a :: l', b :: m' => f a b :: zipWith f l' m'
  | _, _ => []
  end.

(* ================================================================== *)
(** ** numpy arrays of rows: indexing and slicing *)

Section Arrays.
Variable A : Type.

(** Replace the element at position [n]. *)
Fixpoint list_set (n : nat) (v : A) (l : list A) : list A :=
  match l, n with
  | [], _ => []
  | _ :: l', O => v :: l'
  | a :: l', S n' => a :: list_set n' v l'
  end.

(** Python resolves an integer index [i] into an array of length [L]:
    negative indices count from the end; anything outside [-L, L) raises
    [IndexError]. *)
Definition resolve_index (i : Z) (L : nat) : result nat :=
  if (0 <=? i)%Z && (i <? Z.of_nat L)%Z then Ok (Z.to_nat i)
  else if (- Z.of_nat L <=? i)%Z && (i <? 0)%Z then Ok (Z.to_nat (Z.of_nat L + i))
  else Raise IndexError.

(** [arr[i]] *)
Definition getitem (arr : list A) (i : Z) : result A :=
  n <- resolve_index i (length arr) ;;
  match nth_error arr n with
  | Some a => Ok a
  | None => Raise IndexError
  end.

(** [arr[i] = v] *)
Definition setitem (arr : list A) (i : Z) (v : A) : result (list A) :=
  n <- resolve_index i (length arr) ;;
  Ok (list_set n v arr).

(** [arr[indices]] (integer-array indexing) *)
Definition take (arr : list A) (indices : list Z) : result (list A) :=
  mapM (getitem arr) indices.

(** A slice bound [k] clamps into [0, L]; a negative bound counts from the
    end. *)
Definition slice_bound (k : Z) (L : nat) : nat :=
  if (k <? 0)%Z then Z.to_nat (Z.max 0 (Z.of_nat L + k))
  else Nat.min (Z.to_nat k) L.

(** [arr[:k, :] = arr[k:, :]].  The right-hand side has [L - k] rows and the
    left-hand side [k]; numpy copies when the shapes agree, broadcasts a
    single row, and raises [ValueError] otherwise. *)
Definition assign_front_from_back (k : Z) (arr : list A) : result (list A) :=
  let n := slice_bound k (length arr) in
  let src := skipn n arr in
  if Nat.eqb (length src) n then Ok (src ++ skipn n arr)
  else match src with
       | [row] => Ok (repeat row n ++ skipn n arr)
       | _ => Raise ValueError
       end.
End Arrays.

(* ================================================================== *)
(** ** ChargedParticle ([src/objects/particles.py]) *)

(** The attributes [position_history], [acceleration_history] and
    [history_index]; they exist only when [init_clock] ran with
    [track_position_history] set. *)
Record History : Type := mkHistory {
  position_history : list Vect3;
  acceleration_history : list Vect3;
  history_index : Z
}.

(** The closure [update_from_force] that [add_force] registers: it captures
    the force function and [espf = self.euler_steps_per_frame]. *)
Record ForceUpdater : Type := mkForceUpdater {
  espf : nat;
  force_func : Vect3 -> result Vect3        (* the call may raise *)
}.

Record ChargedParticle : Type := mkParticle {
  charge : R;
  mass : R;
  sphere_radius : R;                       (* self.sphere.get_radius() *)
  center : Vect3;                          (* self.get_center() *)
  track_position_history : bool;
  history_size : Z;
  velocity : Vect3;
  euler_steps_per_frame : nat;
  force_updaters : list ForceUpdater;      (* closures registered by add_force *)
  time : R;
  time_step : R;
  recent_positions : Vect3 * Vect3 * Vect3;
  history : option History                 (* None: the attributes are absent *)
}.

Definition get_center (self : ChargedParticle) : Vect3 := center self.
Definition get_charge (self : ChargedParticle) : R := charge self.
Definition get_radius (self : ChargedParticle) : R := sphere_radius self.
Definition get_internal_time (self : ChargedParticle) : R := time self.

Definition set_center (c : Vect3) (self : ChargedParticle) : ChargedParticle :=
  mkParticle (charge self) (mass self) (sphere_radius self) c
    (track_position_history self) (history_size self) (velocity self)
    (euler_steps_per_frame self) (force_updaters self) (time self)
    (time_step self) (recent_positions self) (history self).

Definition set_velocity (v : Vect3) (self : ChargedParticle) : ChargedParticle :=
  mkParticle (charge self) (mass self) (sphere_radius self) (center self)
    (track_position_history self) (history_size self) v
    (euler_steps_per_frame self) (force_updaters self) (time self)
    (time_step self) (recent_positions self) (history self).

Definition set_force_updaters (fs : list ForceUpdater) (self : ChargedParticle)
  : ChargedParticle :=
  mkParticle (charge self) (mass self) (sphere_radius self) (center self)
    (track_position_history self) (history_size self) (velocity self)
    (euler_steps_per_frame self) fs (time self)
    (time_step self) (recent_positions self) (history self).

Definition set_clock (t ts : R) (self : ChargedParticle) : ChargedParticle :=
  mkParticle (charge self) (mass self) (sphere_radius self) (center self)
    (track_position_history self) (history_size self) (velocity self)
    (euler_steps_per_frame self) (force_updaters self) t
    ts (recent_positions self) (history self).

Definition set_recent_positions (r : Vect3 * Vect3 * Vect3) (self : ChargedParticle)
  : ChargedParticle :=
  mkParticle (charge self) (mass self) (sphere_radius self) (center self)
    (track_position_history self) (history_size self) (velocity self)
    (euler_steps_per_frame self) (force_updaters self) (time self)
    (time_step self) r (history self).

Definition set_history (h : option History) (self : ChargedParticle)
  : ChargedParticle :=
  mkParticle (charge self) (mass self) (sphere_radius self) (center self)
    (track_position_history self) (history_size self) (velocity self)
    (euler_steps_per_frame self) (force_updaters self) (time self)
    (time_step self) (recent_positions self) h.

(** [Mobject.shift] and [Mobject.move_to] of the rendering framework, as far
    as the centre is concerned. *)
Definition shift (v : Vect3) (self : ChargedParticle) : ChargedParticle :=
  set_center (vadd (center self) v) self.
Definition move_to (c : Vect3) (self : ChargedParticle) : ChargedParticle :=
  set_center c self.

(** [np.zeros((n, 3))]: raises on a negative dimension. *)
Definition np_zeros (n : Z) : result (list Vect3) :=
  if (n <? 0)%Z then Raise ValueError else Ok (repeat zeros3 (Z.to_nat n)).

(** [init_clock(self, start_point)] *)
Definition init_clock (start_point : Vect3) (self : ChargedParticle)
  : result ChargedParticle :=
  let self := set_clock 0 (1 / 30) self in
  let self := set_recent_positions (start_point, start_point, start_point) self in
  if track_position_history self then
    ph <- np_zeros (history_size self) ;;
    ah <- np_zeros (history_size self) ;;
    Ok (set_history (Some (mkHistory ph ah (-1))) self)
  else Ok self.

(** [ChargedParticle.__init__]; the arguments that only style the drawing
    (colour, sign, rotation, stroke width) are left out.  No attribute of the
    fresh object exists before it is assigned: the placeholders given to the
    clock fields are overwritten by [init_clock]. *)
Definition ChargedParticle_init
    (point : Vect3) (charge mass radius : R)
    (track_position_history : bool) (history_size : Z)
    (euler_steps_per_frame : nat) : result ChargedParticle :=
  init_clock point
    (mkParticle charge mass radius point track_position_history history_size
       zeros3 euler_steps_per_frame [] 0 0 (point, point, point) None).

(** [get_acceleration(self)] *)
Definition get_acceleration (self : ChargedParticle) : Vect3 :=
  let '(p0, p1, p2) := recent_positions self in
  if allclose p0 p1 || allclose p1 p2 then zeros3
  else sdiv (vsub (vadd p0 p2) (smul 2 p1)) (time_step self ^ 2).

(** [add_to_position_history(self)] *)
Definition add_to_position_history (self : ChargedParticle)
  : result ChargedParticle :=
  match history self with
  | None => Raise AttributeError
  | Some h =>
      let hi := (history_index h + 1)%Z in
      let hist_size := history_size self in
      '(ph, ah, hi) <-
        (if (hist_size <=? hi)%Z then
           ph <- assign_front_from_back (hist_size / 2) (position_history h) ;;
           ah <- assign_front_from_back (hist_size / 2) (acceleration_history h) ;;
           Ok (ph, ah, (hist_size / 2 + 1)%Z)
         else Ok (position_history h, acceleration_history h, hi)) ;;
      ph <- setitem ph hi (get_center self) ;;
      ah <- setitem ah hi (get_acceleration self) ;;
      Ok (set_history (Some (mkHistory ph ah hi)) self)
  end.

(** [increment_clock(self, dt)] *)
Definition increment_clock (dt : R) (self : ChargedParticle)
  : result ChargedParticle :=
  if Req_dec_T dt 0 then Ok self
  else
    let self := set_clock (time self + dt) dt self in
    let '(_, p1, p2) := recent_positions self in
    let self := set_recent_positions (p1, p2, get_center self) self in
    if track_position_history self then add_to_position_history self
    else Ok self.

(** [ignore_last_motion(self)] *)
Definition ignore_last_motion (self : ChargedParticle) : ChargedParticle :=
  let c := get_center self in
  set_recent_positions (c, c, c) self.

(** row times scalar, in the source's order of operands *)
Definition vscale (a : Vect3) (k : R) : Vect3 :=
  mkVect3 (vx a * k) (vy a * k) (vz a * k).

(** One pass through the body of the [for _ in range(espf)] loop; an
    exception raised by the force function leaves the loop. *)
Definition euler_substep (u : ForceUpdater) (dt : R) (self : ChargedParticle)
  : result ChargedParticle :=
  force <- force_func u (get_center self) ;;
  let acc := sdiv force (mass self) in
  let self := set_velocity
                (vadd (velocity self) (sdiv (vscale acc dt) (INR (espf u)))) self in
  Ok (shift (sdiv (vscale (velocity self) dt) (INR (espf u))) self).

(** [for _ in range(n): body] *)
Fixpoint for_range (n : nat) (body : ChargedParticle -> result ChargedParticle)
    (self : ChargedParticle) : result ChargedParticle :=
  match n with
  | O => Ok self
  | S n' => self <- body self ;; for_range n' body self
  end.

(** [update_from_force(particle, dt)] *)
Definition update_from_force (u : ForceUpdater) (dt : R) (self : ChargedParticle)
  : result ChargedParticle :=
  if Req_dec_T dt 0 then Ok self
  else for_range (espf u) (euler_substep u dt) self.

(** [add_force(self, force_func)] *)
Definition add_force (f : Vect3 -> result Vect3) (self : ChargedParticle)
  : ChargedParticle :=
  set_force_updaters
    (force_updaters self ++ [mkForceUpdater (euler_steps_per_frame self) f]) self.

(** [add_spring_force(self, k, center)]; the spring force itself cannot
    raise. *)
Definition add_spring_force (k : R) (c : option Vect3) (self : ChargedParticle)
  : ChargedParticle :=
  let c := match c with Some c => c | None => get_center self end in
  add_force (fun p => Ok (smul k (vsub c p))) self.

(** The framework's [Mobject.update]: the registered updaters are called in
    order; the first exception ends the frame. *)
Fixpoint run_updaters (us : list ForceUpdater) (dt : R) (self : ChargedParticle)
  : result ChargedParticle :=
  match us with
  | [] => Ok self
  | u :: us' => self <- update_from_force u dt self ;; run_updaters us' dt self
  end.

(** [update(self, dt)]: the framework runs the registered updaters, then the
    clock is incremented. *)
Definition update (dt : R) (self : ChargedParticle) : result ChargedParticle :=
  self <- run_updaters (force_updaters self) dt self ;;
  increment_clock dt self.

(** [get_info_from_delays(self, info_arr, delays)] *)
Definition get_info_from_delays (self : ChargedParticle)
    (info_arr : list Vect3) (delays : list R) : result (list Vect3) :=
  match history self with
  | None => Raise (Exception "track_position_history is not turned on")
  | Some h =>
      if Nat.eqb (length info_arr) 0 then Ok (repeat zeros3 (length delays))
      else
        let pre_indices :=
          map (fun d => IZR (history_index h) - d / time_step self) delays in
        let indices :=
          map (fun x => trunc (clip x 0 (IZR (history_index h)))) pre_indices in
        take info_arr indices
  end.

(** [get_past_acceleration(self, delays)]: reading [self.acceleration_history]
    already fails when the attribute is absent. *)
Definition get_past_acceleration (self : ChargedParticle) (delays : list R)
  : result (list Vect3) :=
  match history self with
  | None => Raise AttributeError
  | Some h => get_info_from_delays self (acceleration_history h) delays
  end.

(** [get_past_position(self, delays)] *)
Definition get_past_position (self : ChargedParticle) (delays : list R)
  : result (list Vect3) :=
  match history self with
  | None => Raise AttributeError
  | Some h => get_info_from_delays self (position_history h) delays
  end.

(* ================================================================== *)
(** ** Force model ([src/utils/forces.py]) *)

(** The three assignments that build one entry of [adjusted_norms] from the
    matching entry [n] of [norms], in the order of the source. *)
Definition adjust_norm (radius n : R) : xreal :=
  let a := Fin n in
  let a := if Rltb 0 n && Rltb n radius then Fin (radius * radius / n) else a in
  if Reqb n 0 then PInf else a.

(** [points_to_particle_info(particle, points, radius, c)] *)
Definition points_to_particle_info (particle : ChargedParticle)
    (points : list Vect3) (radius : option R) (c : R)
  : result (list Vect3 * list R * list xreal) :=
  let radius := match radius with
                | None => get_radius particle
                | Some r => r
                end in
  centers <-
    (if track_position_history particle then
       let approx_delays :=
         map (fun pt => norm (vsub pt (get_center particle)) / c) points in
       get_past_position particle approx_delays
     else Ok (map (fun _ => get_center particle) points)) ;;
  let diffs := zipWith vsub points centers in
  let norms := map norm diffs in
  let unit_diffs :=
    zipWith (fun d n => if Rltb 0 n then sdiv d n else zeros3) diffs norms in
  let adjusted_norms := map (adjust_norm radius) norms in
  Ok (unit_diffs, norms, adjusted_norms).

(** [coulomb_force(points, particle, radius)]; [c] keeps its default 2.0. *)
Definition coulomb_force (points : list Vect3) (particle : ChargedParticle)
    (radius : option R) : result (list Vect3) :=
  '(unit_diffs, norms, adjusted_norms) <-
     points_to_particle_info particle points radius 2 ;;
  Ok (zipWith (fun u a => xdiv (smul (get_charge particle) u) (xsqr a))
        unit_diffs adjusted_norms).

(** [lorentz_force(points, particle, radius, c, epsilon0)].  The delays and
    the rows are real numbers: they stand for what the code computes when
    [c] and [epsilon0] are not zero.  With [c = 0] or [epsilon0 = 0] numpy
    divides by zero without raising and goes on with [inf] and [nan] (a
    [nan] delay is even cast to an arbitrary index), which the model does
    not follow: what is proved about a history-tracking source carries
    [c <> 0], and [epsilon0 <> 0] where values are concerned.  A source
    without history raises before any of this matters. *)
Definition lorentz_force (points : list Vect3) (particle : ChargedParticle)
    (radius : option R) (c epsilon0 : R) : result (list Vect3) :=
  '(unit_diffs, norms, adjusted_norms) <-
     points_to_particle_info particle points radius c ;;
  let delays := map (fun n => n / c) norms in
  acceleration <- get_past_acceleration particle delays ;;
  let dot_prods := zipWith (fun u a => vsum (vmul u a)) unit_diffs acceleration in
  let a_perp :=
    zipWith (fun a du => vsub a (smul (fst du) (snd du)))
      acceleration (combine dot_prods unit_diffs) in
  let denom := map (xscale (4 * PI * epsilon0 * c ^ 2)) adjusted_norms in
  Ok (zipWith (fun ap d => xdiv (smul (- get_charge particle) ap) d) a_perp denom).

(* ================================================================== *)
(** ** Fields ([src/objects/fields.py]) *)

(** What [get_forces] can return: Python's [sum] starts from the integer 0. *)
Inductive pyvalue : Type :=
| PyInt (z : Z)
| NdArray (rows : list Vect3).

(** [a + b] on these values; two arrays of shapes (n, 3) and (m, 3) add
    row by row when [n = m], broadcast when one of them has a single row, and
    raise otherwise. *)
Definition py_add (a b : pyvalue) : result pyvalue :=
  match a, b with
  | PyInt x, PyInt y => Ok (PyInt (x + y))
  | PyInt x, NdArray r => Ok (NdArray (map (sadd (IZR x)) r))
  | NdArray r, PyInt y => Ok (NdArray (map (fun v => vaddk v (IZR y)) r))
  | NdArray r, NdArray s =>
      if Nat.eqb (length r) (length s) then Ok (NdArray (zipWith vadd r s))
      else match r, s with
           | [v], _ => Ok (NdArray (map (vadd v) s))
           | _, [w] => Ok (NdArray (map (fun v => vadd v w) r))
           | _, _ => Raise ValueError
           end
  end.

(** [sum(f(x) for x in xs)]: the generator is consumed left to right, each
    item added to the running total as soon as it is produced. *)
Fixpoint py_sum_from {X : Type} (f : X -> result (list Vect3)) (xs : list X)
    (total : pyvalue) : result pyvalue :=
  match xs with
  | [] => Ok total
  | x :: xs' =>
      item <- f x ;;
      total <- py_add total (NdArray item) ;;
      py_sum_from f xs' total
  end.

Definition py_sum {X : Type} (f : X -> result (list Vect3)) (xs : list X)
  : result pyvalue :=
  py_sum_from f xs (PyInt 0).

(** [ChargeBasedVectorField.get_forces]: [np.zeros_like(points)]. *)
Definition ChargeBasedVectorField_get_forces (charges : list ChargedParticle)
    (points : list Vect3) : list Vect3 :=
  map (fun _ => zeros3) points.

(** [CoulombField.get_forces(self, points)] *)
Definition CoulombField_get_forces (charges : list ChargedParticle)
    (points : list Vect3) : result pyvalue :=
  py_sum (fun charge => coulomb_force points charge None) charges.

Record LorentzField : Type := mkLorentzField {
  lf_charges : list ChargedParticle;
  radius_of_suppression : option R;
  lf_c : R
}.

(** [LorentzField.get_forces(self, points)]; [epsilon0] keeps its default
    0.025. *)
Definition LorentzField_get_forces (self : LorentzField) (points : list Vect3)
  : result pyvalue :=
  py_sum (fun charge =>
            lorentz_force points charge (radius_of_suppression self)
              (lf_c self) 0.025)
    (lf_charges self).

(* ================================================================== *)
(** ** Drivers and specification-side definitions *)

(** The frame driver of a scene: each frame first moves the particle to the
    next point of its path ([move_to], as the scene's updater does), then
    calls [update(dt)]. *)
Fixpoint run_frames (dt : R) (path : list Vect3) (self : ChargedParticle)
  : result ChargedParticle :=
  match path with
  | [] => Ok self
  | c :: path' =>
      self <- update dt (move_to c self) ;;
      run_frames dt path' self
  end.

(** The sub-step in the words of the specification, on a pair (position,
    velocity) and written out coordinate by coordinate: the force is taken
    at the position, the velocity gains (force / mass) * h, and the position
    then moves by the new velocity times h. *)
Definition semi_implicit_step (f : Vect3 -> Vect3) (m h : R)
    (xv : Vect3 * Vect3) : Vect3 * Vect3 :=
  let '(x, v) := xv in
  let F := f x in
  let v' := mkVect3 (vx v + vx F / m * h) (vy v + vy F / m * h)
              (vz v + vz F / m * h) in
  (mkVect3 (vx x + vx v' * h) (vy x + vy v' * h) (vz x + vz v' * h), v').

(** The particle with its centre and velocity replaced by the given pair,
    every other attribute kept. *)
Definition with_motion (xv : Vect3 * Vect3) (self : ChargedParticle)
  : ChargedParticle :=
  mkParticle (charge self) (mass self) (sphere_radius self) (fst xv)
    (track_position_history self) (history_size self) (snd xv)
    (euler_steps_per_frame self) (force_updaters self) (time self)
    (time_step self) (recent_positions self) (history self).

(** Every force function registered on the particle returns a vector at
    every position (none of them raises). *)
Definition forces_return (self : ChargedParticle) : Prop :=
  forall u, In u (force_updaters self) ->
  forall x, exists F, force_func u x = Ok F.

(** States the public interface produces from a freshly constructed
    particle [p0]. *)
Inductive reachable_from (p0 : ChargedParticle) : ChargedParticle -> Prop :=
| reach_fresh : reachable_from p0 p0
| reach_update dt p p' :
    reachable_from p0 p -> update dt p = Ok p' -> reachable_from p0 p'
| reach_move_to c p :
    reachable_from p0 p -> reachable_from p0 (move_to c p)
| reach_shift v p :
    reachable_from p0 p -> reachable_from p0 (shift v p)
| reach_add_force f p :
    reachable_from p0 p -> reachable_from p0 (add_force f p)
| reach_ignore_last_motion p :
    reachable_from p0 p -> reachable_from p0 (ignore_last_motion p).

(** What the interface can do to a particle between two frames: every call
    except [update]. *)
Inductive prepared (p : ChargedParticle) : ChargedParticle -> Prop :=
| prep_none : prepared p p
| prep_move_to c q : prepared p q -> prepared p (move_to c q)
| prep_shift v q : prepared p q -> prepared p (shift v q)
| prep_add_force f q : prepared p q -> prepared p (add_force f q)
| prep_ignore_last_motion q : prepared p q -> prepared p (ignore_last_motion q).

(** [advanced dt k p q]: [q] is reached from [p] by [k] successful calls
    [update(dt)], with any other interface calls before each of them. *)
Inductive advanced (dt : R) : nat -> ChargedParticle -> ChargedParticle -> Prop :=
| adv_none p : advanced dt 0 p p
| adv_frame k p q q' r :
    advanced dt k p q -> prepared q q' -> update dt q' = Ok r ->
    advanced dt (S k) p r.

(** The history attributes are consistent with the tracking flag, the two
    arrays have [history_size] rows, and the cursor is inside them (or still
    at its initial -1). *)
Definition history_ok (self : ChargedParticle) : Prop :=
  match history self with
  | None => track_position_history self = false
  | Some h =>
      track_position_history self = true /\
      length (position_history h) = Z.to_nat (history_size self) /\
      length (acceleration_history h) = Z.to_nat (history_size self) /\
      (-1 <= history_index h < history_size self)%Z
  end.

(** The row that a delay [d] selects: index
    [trunc (clip (history_index - d / time_step) 0 history_index)]. *)
Definition delay_index (hi : Z) (ts d : R) : Z :=
  trunc (clip (IZR hi - d / ts) 0 (IZR hi)).

(** What [add_to_position_history] does to one of the two arrays and to the
    cursor, seen on its own: used to follow the position samples through a
    run of frames without unfolding the accelerations stored next to them. *)
Definition buffer_write {A : Type} (hist_size : Z) (st : list A * Z) (v : A)
  : result (list A * Z) :=
  let '(arr, hi) := st in
  let hi := (hi + 1)%Z in
  '(arr, hi) <-
    (if (hist_size <=? hi)%Z then
       arr <- assign_front_from_back (hist_size / 2) arr ;;
       Ok (arr, (hist_size / 2 + 1)%Z)
     else Ok (arr, hi)) ;;
  arr <- setitem arr hi v ;;
  Ok (arr, hi).

Fixpoint buffer_writes {A : Type} (hist_size : Z) (st : list A * Z)
    (vs : list A) : result (list A * Z) :=
  match vs with
  | [] => Ok st
  | v :: vs' => st <- buffer_write hist_size st v ;; buffer_writes hist_size st vs'
  end.

(** A sample path for the concrete runs below: the k-th point lies at
    abscissa k on the x axis. *)
Definition sample (k : Z) : Vect3 := mkVect3 (IZR k) 0 0.

(** The source positions that [points_to_particle_info] subtracts from the
    points: the retarded positions for a tracking particle (one history
    lookup at the delay of the current distance), the current centre
    otherwise. *)
Definition source_positions (particle : ChargedParticle) (points : list Vect3)
    (c : R) : result (list Vect3) :=
  if track_position_history particle then
    get_past_position particle
      (map (fun pt => norm (vsub pt (get_center particle)) / c) points)
  else Ok (map (fun _ => get_center particle) points).

(** Unit vector from the source position [ctr] to the point [pt] (the zero
    vector when they coincide). *)
Definition unit_diff (pt ctr : Vect3) : Vect3 :=
  let diff := vsub pt ctr in
  if Rltb 0 (norm diff) then sdiv diff (norm diff) else zeros3.

(** The adjusted distance in the words of the specification. *)
Definition adjusted_distance (r d : R) : xreal :=
  if Req_dec_T d 0 then PInf
  else if Rlt_dec d r then Fin (r * r / d)
  else Fin d.

(** The part of [acc] perpendicular to the unit vector [u]. *)
Definition perpendicular_part (u acc : Vect3) : Vect3 :=
  vsub acc (smul (vsum (vmul u acc)) u).

(** The Coulomb force of a charge [q] at [ctr], suppressed within [r], on the
    point [pt]: what [coulomb_force] returns for one row. *)
Definition coulomb_at (q r : R) (pt ctr : Vect3) : Vect3 :=
  xdiv (smul q (unit_diff pt ctr)) (xsqr (adjust_norm r (norm (vsub pt ctr)))).

(** What [lorentz_force] returns for one row, given the acceleration [acc]
    read from the history (for [c <> 0] and [epsilon0 <> 0]). *)
Definition lorentz_at (q r c epsilon0 : R) (pt ctr acc : Vect3) : Vect3 :=
  xdiv (smul (- q) (perpendicular_part (unit_diff pt ctr) acc))
    (xscale (4 * PI * epsilon0 * c ^ 2) (adjust_norm r (norm (vsub pt ctr)))).

(** The radius argument of the force functions, [None] standing for the
    particle's own radius. *)
Definition radius_or_default (particle : ChargedParticle) (radius : option R) : R :=
  match radius with
  | None => get_radius particle
  | Some r => r
  end.

(** The finite-difference estimate of [get_acceleration], as a function of
    the three recent positions and the time step. *)
Definition acceleration_estimate (recent : Vect3 * Vect3 * Vect3) (h : R)
  : Vect3 :=
  let '(p0, p1, p2) := recent in
  if allclose p0 p1 || allclose p1 p2 then zeros3
  else sdiv (vsub (vadd p0 p2) (smul 2 p1)) (h ^ 2).

(** One coordinate of [get_acceleration] in the arithmetic numpy computes
    with (IEEE binary64, round to nearest even), for three recent positions
    that agree in their two other coordinates: [np.isclose] with its default
    tolerances, then [(p0 + p2 - 2 * p1) / time_step**2], the square taken
    as the rounded product. *)
#[warnings="-inexact-float"]
Definition isclose_f64 (a b : float) : bool :=
  PrimFloat.leb (PrimFloat.abs (a - b)) (1e-8 + 1e-5 * PrimFloat.abs b)%float.

Definition get_acceleration_f64 (p0 p1 p2 time_step : float) : float :=
  if isclose_f64 p0 p1 || isclose_f64 p1 p2 then 0%float
  else ((p0 + p2 - 2 * p1) / (time_step * time_step))%float.

(* ================================================================== *)
(** ** More of the particle, the waves and the scene *)

(** [value[i]] on what [get_forces] returns: an integer is not
    subscriptable. *)
Definition py_getitem (v : pyvalue) (i : Z) : result Vect3 :=
  match v with
  | PyInt _ => Raise TypeError
  | NdArray rows => getitem rows i
  end.

(** The force function that [add_field_force] hands to [add_force],
    [lambda p: charge * field.get_forces([p])[0]]; [get_forces] is the bound
    method of the field. *)
Definition field_force (charge : R)
    (get_forces : list Vect3 -> result pyvalue) (p : Vect3) : result Vect3 :=
  v <- get_forces [p] ;;
  row <- py_getitem v 0 ;;
  Ok (smul charge row).

(** [add_field_force(self, field)] *)
Definition add_field_force (get_forces : list Vect3 -> result pyvalue)
    (self : ChargedParticle) : ChargedParticle :=
  let charge := get_charge self in
  add_force (field_force charge get_forces) self.

(** A particle state produced by the public interface from a constructor
    call with the given tracking flag. *)
Definition constructed (track : bool) (p : ChargedParticle) : Prop :=
  exists point q m rad hs n p0,
    ChargedParticle_init point q m rad track hs n = Ok p0 /\
    reachable_from p0 p.

(** *** [PropagatingRings] ([src/objects/waves.py]) *)

Record PropagatingRings : Type := mkPropagatingRings {
  growth_rate : R;
  spacing : R;
  width_decay_rate : R;
  start_width : R;
  rings_time : R
}.

(** What one pass of the loop asks of the framework for one ring: the factor
    given to [ring.scale] and the width given to [ring.set_stroke]. *)
Record RingCommand : Type := mkRingCommand {
  scale_factor : R;
  stroke_width : R
}.

(** The [for ring in self.submobjects] loop of [update_rings], with the
    running value of [space]; [radii] are the values of [ring.get_radius()]
    read from the rings, in order. *)
Fixpoint update_rings_loop (self : PropagatingRings) (space : R)
    (radii : list R) : list RingCommand :=
  match radii with
  | [] => []
  | radius :: radii' =>
      let effective_time := Rmax (rings_time self - space) 0 in
      let target_radius := Rmax (effective_time * growth_rate self) 1e-3 in
      mkRingCommand (target_radius / radius)
        (exp (- width_decay_rate self * effective_time))
      :: update_rings_loop self (space + spacing self) radii'
  end.

(** [update_rings(self, dt)]: the new state and the commands issued. *)
Definition update_rings (dt : R) (radii : list R) (self : PropagatingRings)
  : PropagatingRings * list RingCommand :=
  if Req_dec_T dt 0 then (self, [])
  else
    let self := mkPropagatingRings (growth_rate self) (spacing self)
                  (width_decay_rate self) (start_width self)
                  (rings_time self + dt) in
    (self, update_rings_loop self 0 radii).

(** *** [OscillatingWave] ([src/objects/waves.py]) *)

Definition TAU : R := 2 * PI.

Record OscillatingWave : Type := mkOscillatingWave {
  y_amplitude : R;
  z_amplitude : R;
  z_phase : R;
  y_phase : R;
  wave_len : R;
  twist_rate : R;
  wave_speed : R;
  wave_time : R;
  clock_is_stopped : bool
}.

(** [a / b] on Python floats: a zero divisor raises. *)
Definition py_div (a b : R) : result R :=
  if Req_dec_T b 0 then Raise ZeroDivisionError else Ok (a / b).

(** The lines of [xt_to_yz] after the phase, for one abscissa [x] (with a
    numpy array [x] they are applied entry by entry). *)
Definition yz_at_phase (self : OscillatingWave) (phase x : R) : R * R :=
  let y_outs :=
    y_amplitude self * sin (TAU * x / wave_len self - phase - y_phase self) in
  let z_outs :=
    z_amplitude self * sin (TAU * x / wave_len self - phase - z_phase self) in
  let twist_angles := x * twist_rate self * TAU in
  let y := cos twist_angles * y_outs - sin twist_angles * z_outs in
  let z := sin twist_angles * y_outs + cos twist_angles * z_outs in
  (y, z).

(** [xt_to_yz(self, x, t)] for one abscissa [x].  The phase is computed
    first, from the Python floats [t], [speed] and [wave_len]: with
    [wave_len = 0] that division raises. *)
Definition xt_to_yz (self : OscillatingWave) (x t : R) : result (R * R) :=
  phase <- py_div (TAU * t * wave_speed self) (wave_len self) ;;
  Ok (yz_at_phase self phase x).

(** [xt_to_yz(self, xs, t)] for a numpy array [xs] of abscissas: one phase,
    then one pair per entry. *)
Definition xt_to_yz_array (self : OscillatingWave) (xs : list R) (t : R)
  : result (list (R * R)) :=
  phase <- py_div (TAU * t * wave_speed self) (wave_len self) ;;
  Ok (map (yz_at_phase self phase) xs).

Definition set_wave_clock (t : R) (stopped : bool) (self : OscillatingWave)
  : OscillatingWave :=
  mkOscillatingWave (y_amplitude self) (z_amplitude self) (z_phase self)
    (y_phase self) (wave_len self) (twist_rate self) (wave_speed self)
    t stopped.

(** [stop_clock(self)] and [start_clock(self)] *)
Definition stop_clock (self : OscillatingWave) : OscillatingWave :=
  set_wave_clock (wave_time self) true self.
Definition start_clock (self : OscillatingWave) : OscillatingWave :=
  set_wave_clock (wave_time self) false self.

(** [update_points(self, dt)] on the sample abscissas [xs] (the
    [np.arange] of the x axis): the new state and the axis coordinates
    (x, y, z) that are handed to [axes.c2p]. *)
Definition update_points (dt : R) (xs : list R) (self : OscillatingWave)
  : result (OscillatingWave * list (R * R * R)) :=
  let self :=
    if clock_is_stopped self then self
    else set_wave_clock (wave_time self + dt) (clock_is_stopped self) self in
  yzs <- xt_to_yz_array self xs (wave_time self) ;;
  Ok (self, zipWith (fun x yz => (x, fst yz, snd yz)) xs yzs).

(** *** [AccelerationVector] ([src/objects/waves.py]) *)


(** *** The scene ([src/scenes/e_field_by_moving_charge.py]) *)

(** [oscillation_function(self, time)] *)
Definition oscillation_function (amplitude frequency : R) (direction : Vect3)
    (time : R) : Vect3 :=
  smul (amplitude * sin (TAU * frequency * time)) direction.

(** *** Sums of force arrays *)

(** Row-by-row sum of two arrays of rows. *)
Definition add_rows (a b : list Vect3) : list Vect3 := zipWith vadd a b.

(** The sum of a non-empty list of arrays, accumulated from the left as
    [sum] does. *)
Definition sum_rows (arrays : list (list Vect3)) : list Vect3 :=
  match arrays with
  | [] => []
  | a :: rest => fold_left add_rows rest a
  end.

(** The array a force function returned (no rows when it raised). *)
Definition rows_of (r : result (list Vect3)) : list Vect3 :=
  match r with
  | Ok rows => rows
  | Raise _ => []
  end.

(** *** Frames without motion *)

(** The framework calling [update(dt)] once per frame, with the frame times
    [dts], nothing else touching the particle in between. *)
Fixpoint run_updates (dts : list R) (self : ChargedParticle)
  : result ChargedParticle :=
  match dts with
  | [] => Ok self
  | dt :: dts' => self' <- update dt self ;; run_updates dts' self'
  end.

(** A particle that has no force registered, whose three recent positions
    are its centre, and whose recorded accelerations (if any) are all zero. *)
Definition never_accelerated (self : ChargedParticle) : Prop :=
  force_updaters self = [] /\
  recent_positions self = (get_center self, get_center self, get_center self) /\
  match history self with
  | Some h => Forall (eq zeros3) (acceleration_history h)
  | None => True
  end.

(** *** Scene configuration ([EFieldByMovingChargeV2._update_config]) *)

(** The values held by the configuration: dictionaries (insertion-ordered,
    one entry per key) and everything else, which has no [update] method. *)
#[warnings="-register-all"]
Inductive pyobj : Type :=
| PyDict (items : list (string * pyobj))
| PyAtom (repr : string).

(** [key in d] and [d[key]] *)
Fixpoint dict_get (d : list (string * pyobj)) (key : string) : option pyobj :=
  match d with
  | [] => None
  | (k, v) :: d' => if String.eqb key k then Some v else dict_get d' key
  end.

(** [d[key] = value]: an existing key keeps its place, a new one goes last. *)
Fixpoint dict_set (d : list (string * pyobj)) (key : string) (value : pyobj)
  : list (string * pyobj) :=
  match d with
  | [] => [(key, value)]
  | (k, v) :: d' =>
      if String.eqb key k then (k, value) :: d'
      else (k, v) :: dict_set d' key value
  end.

(** [d.update(other)] *)
Definition dict_update (d other : list (string * pyobj))
  : list (string * pyobj) :=
  fold_left (fun acc kv => dict_set acc (fst kv) (snd kv)) other d.

(** [isinstance(value, dict)] *)
Definition isinstance_dict (value : pyobj) : bool :=
  match value with
  | PyDict _ => true
  | PyAtom _ => false
  end.

(** [_update_config(self, updates)] on [attrs = self.__dict__]: the loop over
    [updates.items()]. *)
Fixpoint _update_config (attrs updates : list (string * pyobj))
  : result (list (string * pyobj)) :=
  match updates with
  | [] => Ok attrs
  | (key, value) :: updates' =>
      attrs' <-
        (match dict_get attrs key with
         | Some target =>
             if isinstance_dict value then
               match target, value with
               | PyDict old, PyDict items =>
                   Ok (dict_set attrs key (PyDict (dict_update old items)))
               | _, _ => Raise AttributeError
               end
             else Ok (dict_set attrs key value)
         | None => Ok (dict_set attrs key value)
         end) ;;
      _update_config attrs' updates'
  end.

(* ================================================================== *)
(** * Proofs *)

Unset Implicit Arguments.

(** ** Scalars *)

Lemma Rltb_true x y : x < y -> Rltb x y = true.
Proof. intros H. unfold Rltb. destruct (Rlt_dec x y); tauto. Qed.

Lemma Rltb_false x y : ~ x < y -> Rltb x y = false.
Proof. intros H. unfold Rltb. destruct (Rlt_dec x y); tauto. Qed.

Lemma Rleb_true x y : x <= y -> Rleb x y = true.
Proof. intros H. unfold Rleb. destruct (Rle_dec x y); tauto. Qed.

Lemma Rleb_false x y : ~ x <= y -> Rleb x y = false.
Proof. intros H. unfold Rleb. destruct (Rle_dec x y); tauto. Qed.

Lemma Reqb_true x y : x = y -> Reqb x y = true.
Proof. intros H. unfold Reqb. destruct (Req_dec_T x y); tauto. Qed.

Lemma Reqb_false x y : x <> y -> Reqb x y = false.
Proof. intros H. unfold Reqb. destruct (Req_dec_T x y); tauto. Qed.

Lemma Int_part_IZR z : Int_part (IZR z) = z.
Proof. symmetry. apply Int_part_spec. lra. Qed.

Lemma trunc_IZR z : trunc (IZR z) = z.
Proof.
  unfold trunc. destruct (Rle_dec 0 (IZR z)) as [H | H].
  - apply Int_part_IZR.
  - rewrite <- opp_IZR, Int_part_IZR. lia.
Qed.

Lemma trunc_bounds x n : 0 <= x <= IZR n -> (0 <= trunc x <= n)%Z.
Proof.
  intros [H0 Hn]. unfold trunc. destruct (Rle_dec 0 x) as [_ | H]; [| tauto].
  destruct (base_Int_part x) as [Hle Hgt]. split.
  - assert (IZR (-1) < IZR (Int_part x)) as Hlt by lra.
    apply lt_IZR in Hlt. lia.
  - apply le_IZR. lra.
Qed.

Lemma clip_bounds x lo hi : lo <= hi -> lo <= clip x lo hi <= hi.
Proof.
  intros H. unfold clip, Rmin, Rmax.
  destruct (Rle_dec x lo); destruct (Rle_dec _ hi); lra.
Qed.

Lemma clip_above x lo hi : hi < lo -> clip x lo hi = hi.
Proof.
  intros H. unfold clip, Rmin, Rmax.
  destruct (Rle_dec x lo); destruct (Rle_dec _ hi); lra.
Qed.

Lemma clip_low x lo hi : lo <= hi -> x <= lo -> clip x lo hi = lo.
Proof.
  intros H Hx. unfold clip, Rmin, Rmax.
  destruct (Rle_dec x lo); destruct (Rle_dec _ hi); lra.
Qed.

Lemma clip_inside x lo hi : lo <= x <= hi -> clip x lo hi = x.
Proof.
  intros H. unfold clip, Rmin, Rmax.
  destruct (Rle_dec x lo); destruct (Rle_dec _ hi); lra.
Qed.

(** ** Vectors *)

Lemma Vect3_eq a b : vx a = vx b -> vy a = vy b -> vz a = vz b -> a = b.
Proof. destruct a, b; simpl; intros; subst; reflexivity. Qed.

Ltac vec_eq := apply Vect3_eq; simpl; try (field; auto); try lra.

(** ** The integrator *)

Lemma with_motion_same s : with_motion (get_center s, velocity s) s = s.
Proof. destruct s. reflexivity. Qed.

Lemma with_motion_twice xv xv' s :
  with_motion xv' (with_motion xv s) = with_motion xv' s.
Proof. reflexivity. Qed.

Lemma euler_substep_semi_implicit (f : Vect3 -> Vect3) n dt s :
  euler_substep (mkForceUpdater n (fun x => Ok (f x))) dt s =
  Ok (with_motion
        (semi_implicit_step f (mass s) (dt / INR n) (get_center s, velocity s))
        s).
Proof.
  unfold euler_substep, semi_implicit_step, with_motion, shift, set_center,
    set_velocity, get_center.
  cbn [force_func espf bind charge mass sphere_radius center
       track_position_history history_size velocity euler_steps_per_frame
       force_updaters time time_step recent_positions history fst snd].
  do 2 f_equal;
    apply Vect3_eq; unfold vadd, sdiv, vscale; cbn [vx vy vz];
    unfold Rdiv; ring.
Qed.

Lemma for_range_semi_implicit (f : Vect3 -> Vect3) n dt k :
  forall s,
    for_range k (euler_substep (mkForceUpdater n (fun x => Ok (f x))) dt) s =
    Ok (with_motion
          (Nat.iter k (semi_implicit_step f (mass s) (dt / INR n))
             (get_center s, velocity s))
          s).
Proof.
  induction k as [| k IH]; intros s.
  - cbn [for_range]. unfold Nat.iter. cbn [nat_rect]. now rewrite with_motion_same.
  - cbn [for_range]. rewrite euler_substep_semi_implicit. cbn [bind].
    rewrite IH. rewrite with_motion_twice. do 2 f_equal.
    cbn [with_motion mass get_center center velocity].
    set (step := semi_implicit_step f (mass s) (dt / INR n)).
    replace (fst (step (get_center s, velocity s)),
             snd (step (get_center s, velocity s)))
      with (step (get_center s, velocity s))
      by now destruct (step (get_center s, velocity s)).
    symmetry. apply Nat.iter_succ_r.
Qed.

Lemma update_from_force_zero u s : update_from_force u 0 s = Ok s.
Proof. unfold update_from_force. destruct (Req_dec_T 0 0); [reflexivity | lra]. Qed.

Lemma increment_clock_zero s : increment_clock 0 s = Ok s.
Proof. unfold increment_clock. destruct (Req_dec_T 0 0); [reflexivity | lra]. Qed.

Lemma run_updaters_zero us s : run_updaters us 0 s = Ok s.
Proof.
  revert s. induction us as [| u us IH]; intros s; cbn [run_updaters];
    [reflexivity |].
  rewrite update_from_force_zero. cbn [bind]. apply IH.
Qed.

(** C5.  With [dt <> 0] and [n = euler_steps_per_frame], the updater that
    [add_force] registers for a force function [f] runs exactly [n]
    sub-steps of size dt / n on the pair (centre, velocity): each one
    evaluates [f] at the centre left by the previous sub-step, adds
    (force / mass) * (dt / n) to the velocity, and only then moves the centre
    by the new velocity times dt / n; no other attribute of the particle
    changes. *)
Theorem update_from_force_substeps (f : Vect3 -> Vect3) (dt : R)
    (self : ChargedParticle) :
  mass self > 0 -> dt <> 0 ->
  let n := euler_steps_per_frame self in
  let updater := mkForceUpdater n (fun x => Ok (f x)) in
  force_updaters (add_force (fun x => Ok (f x)) self) =
    force_updaters self ++ [updater] /\
  update_from_force updater dt self =
    Ok (with_motion
          (Nat.iter n (semi_implicit_step f (mass self) (dt / INR n))
             (get_center self, velocity self))
          self).
Proof.
  intros _ Hdt n updater. split; [reflexivity |].
  unfold update_from_force. destruct (Req_dec_T dt 0) as [H | _]; [contradiction |].
  apply for_range_semi_implicit.
Qed.

(** C7.  [update(0)] changes nothing: every registered force updater returns
    at once and so does [increment_clock], hence position, velocity, clock,
    time step, recent positions and the history (arrays and cursor) are the
    ones of the state before the call, and no sample is written. *)
Theorem update_zero_dt_noop (self : ChargedParticle) :
  update 0 self = Ok self /\
  increment_clock 0 self = Ok self /\
  (forall u, update_from_force u 0 self = Ok self).
Proof.
  split; [| split].
  - unfold update. rewrite run_updaters_zero. apply increment_clock_zero.
  - apply increment_clock_zero.
  - intros u. apply update_from_force_zero.
Qed.

(** ** Arrays *)

Section ArrayFacts.
Variable A : Type.
Implicit Types (arr : list A) (i : Z) (n : nat).

Lemma list_set_length n (v : A) arr : length (list_set n v arr) = length arr.
Proof.
  revert n. induction arr as [| a arr IH]; intros [| n]; simpl; auto.
Qed.

Lemma nth_list_set_eq n (v d : A) arr :
  (n < length arr)%nat -> nth n (list_set n v arr) d = v.
Proof.
  revert n. induction arr as [| a arr IH]; intros [| n]; simpl; intros H;
    try lia; auto. apply IH. lia.
Qed.

Lemma nth_list_set_neq n m (v d : A) arr :
  n <> m -> nth m (list_set n v arr) d = nth m arr d.
Proof.
  revert n m. induction arr as [| a arr IH]; intros [| n] [| m] H; simpl;
    try reflexivity; try congruence. apply IH. congruence.
Qed.

Lemma resolve_index_nonneg i L :
  (0 <= i < Z.of_nat L)%Z -> resolve_index i L = Ok (Z.to_nat i).
Proof.
  intros H. unfold resolve_index.
  destruct (Z.leb_spec 0 i); destruct (Z.ltb_spec i (Z.of_nat L)); simpl;
    try lia; reflexivity.
Qed.

Lemma resolve_index_last L :
  (0 < L)%nat -> resolve_index (-1) L = Ok (L - 1)%nat.
Proof.
  intros H. unfold resolve_index. simpl.
  destruct (Z.leb_spec (- Z.of_nat L) (-1)); simpl; try lia.
  f_equal. lia.
Qed.

Lemma resolve_index_lt i L n : resolve_index i L = Ok n -> (n < L)%nat.
Proof.
  unfold resolve_index.
  destruct (Z.leb_spec 0 i); destruct (Z.ltb_spec i (Z.of_nat L)); simpl;
    try (intros [= <-]; lia);
    destruct (Z.leb_spec (- Z.of_nat L) i); destruct (Z.ltb_spec i 0); simpl;
    try discriminate; intros [= <-]; lia.
Qed.

Lemma resolve_index_nonneg_inv i L n :
  (0 <= i)%Z -> resolve_index i L = Ok n ->
  (i < Z.of_nat L)%Z /\ n = Z.to_nat i.
Proof.
  intros Hi. unfold resolve_index.
  destruct (Z.leb_spec 0 i); try lia.
  destruct (Z.ltb_spec i (Z.of_nat L)); simpl.
  - intros [= <-]. split; [assumption | reflexivity].
  - destruct (Z.leb_spec (- Z.of_nat L) i); destruct (Z.ltb_spec i 0); simpl;
      try discriminate; lia.
Qed.

Lemma getitem_nonneg arr i (d : A) :
  (0 <= i < Z.of_nat (length arr))%Z ->
  getitem arr i = Ok (nth (Z.to_nat i) arr d).
Proof.
  intros H. unfold getitem. rewrite resolve_index_nonneg by assumption. simpl.
  destruct (nth_error arr (Z.to_nat i)) as [a |] eqn:E.
  - now rewrite (nth_error_nth _ _ d E).
  - apply nth_error_None in E. lia.
Qed.

Lemma getitem_last arr (d : A) :
  (0 < length arr)%nat -> getitem arr (-1) = Ok (nth (length arr - 1) arr d).
Proof.
  intros H. unfold getitem. rewrite resolve_index_last by assumption. simpl.
  destruct (nth_error arr (length arr - 1)) as [a |] eqn:E.
  - now rewrite (nth_error_nth _ _ d E).
  - apply nth_error_None in E. lia.
Qed.

Lemma setitem_nonneg arr i (v : A) :
  (0 <= i < Z.of_nat (length arr))%Z ->
  setitem arr i v = Ok (list_set (Z.to_nat i) v arr).
Proof.
  intros H. unfold setitem. now rewrite resolve_index_nonneg.
Qed.

Lemma setitem_length arr i (v : A) arr' :
  setitem arr i v = Ok arr' -> length arr' = length arr.
Proof.
  unfold setitem. destruct (resolve_index i (length arr)); simpl;
    [intros [= <-]; apply list_set_length | discriminate].
Qed.

Lemma slice_bound_le k L : (slice_bound k L <= L)%nat.
Proof.
  unfold slice_bound. destruct (Z.ltb_spec k 0); lia.
Qed.

Lemma slice_bound_nonneg k L :
  (0 <= k <= Z.of_nat L)%Z -> slice_bound k L = Z.to_nat k.
Proof.
  intros H. unfold slice_bound. destruct (Z.ltb_spec k 0); lia.
Qed.

Lemma assign_front_from_back_length k arr arr' :
  assign_front_from_back k arr = Ok arr' -> length arr' = length arr.
Proof.
  unfold assign_front_from_back.
  pose proof (slice_bound_le k (length arr)) as Hle.
  set (n := slice_bound k (length arr)) in *.
  destruct (Nat.eqb_spec (length (skipn n arr)) n) as [E | E].
  - intros [= <-]. rewrite length_app, E. rewrite length_skipn in E. lia.
  - destruct (skipn n arr) as [| row [| ? ?]] eqn:Es; try discriminate.
    intros [= <-]. apply (f_equal (@length A)) in Es.
    rewrite length_skipn in Es. simpl in Es.
    rewrite length_app, repeat_length. simpl. lia.
Qed.

(** Whether the slice assignment succeeds depends on the length only. *)
Lemma assign_front_from_back_even k arr :
  length arr = (2 * Z.to_nat k)%nat -> (0 <= k)%Z ->
  assign_front_from_back k arr = Ok (skipn (Z.to_nat k) arr ++ skipn (Z.to_nat k) arr).
Proof.
  intros HL Hk. unfold assign_front_from_back. cbv zeta.
  rewrite slice_bound_nonneg by lia.
  rewrite length_skipn, HL.
  replace (2 * Z.to_nat k - Z.to_nat k)%nat with (Z.to_nat k) by lia.
  now rewrite Nat.eqb_refl.
Qed.

Lemma mapM_ok {B : Type} (f : B -> result A) (g : B -> A) (l : list B) :
  (forall x, In x l -> f x = Ok (g x)) -> mapM f l = Ok (map g l).
Proof.
  induction l as [| b l IH]; intros H; simpl; [reflexivity |].
  rewrite (H b) by (now left). simpl.
  rewrite IH by (intros x Hx; apply H; now right). reflexivity.
Qed.

Lemma mapM_length {B : Type} (f : B -> result A) (l : list B) (r : list A) :
  mapM f l = Ok r -> length r = length l.
Proof.
  revert r. induction l as [| b l IH]; intros r; simpl.
  - now intros [= <-].
  - destruct (f b); simpl; [| discriminate].
    destruct (mapM f l); simpl; [| discriminate].
    intros [= <-]. simpl. f_equal. now apply IH.
Qed.
End ArrayFacts.

Lemma map_const_repeat {A B : Type} (b : B) (l : list A) :
  map (fun _ => b) l = repeat b (length l).
Proof. induction l as [| a l IH]; simpl; [reflexivity | now rewrite IH]. Qed.

Lemma nth_repeat_any {A : Type} (a : A) n m : nth m (repeat a n) a = a.
Proof.
  revert m. induction n as [| n IH]; intros [| m]; simpl; auto.
Qed.

(** ** Construction and the history invariant *)

Lemma ChargedParticle_init_eq point q m r track hs n :
  ChargedParticle_init point q m r track hs n =
  if track && (hs <? 0)%Z then Raise ValueError
  else Ok (mkParticle q m r point track hs zeros3 n [] 0 (1 / 30)
             (point, point, point)
             (if track
              then Some (mkHistory (repeat zeros3 (Z.to_nat hs))
                           (repeat zeros3 (Z.to_nat hs)) (-1))
              else None)).
Proof.
  unfold ChargedParticle_init, init_clock, np_zeros; simpl.
  destruct track; simpl; [| reflexivity].
  destruct (hs <? 0)%Z; reflexivity.
Qed.

Lemma ChargedParticle_init_raises point q m r track hs n :
  raises (ChargedParticle_init point q m r track hs n) <->
  track = true /\ (hs < 0)%Z.
Proof.
  rewrite ChargedParticle_init_eq. unfold raises.
  destruct track; simpl.
  - destruct (Z.ltb_spec hs 0); split.
    + intros _. split; [reflexivity | assumption].
    + intros _. now exists ValueError.
    + intros [e He]. discriminate.
    + intros [_ H']. lia.
  - split; [intros [e He]; discriminate | intros [H _]; discriminate].
Qed.

Lemma ChargedParticle_init_fields point q m r track hs n p :
  ChargedParticle_init point q m r track hs n = Ok p ->
  charge p = q /\ mass p = m /\ get_radius p = r /\ center p = point /\
  velocity p = zeros3 /\ track_position_history p = track /\
  history_size p = hs /\ euler_steps_per_frame p = n /\
  force_updaters p = [] /\ time_step p = 1 / 30 /\
  history p = (if track
               then Some (mkHistory (repeat zeros3 (Z.to_nat hs))
                            (repeat zeros3 (Z.to_nat hs)) (-1))
               else None).
Proof.
  rewrite ChargedParticle_init_eq.
  destruct (track && (hs <? 0)%Z); [discriminate |].
  intros [= <-]. simpl. repeat split; reflexivity.
Qed.

Lemma ChargedParticle_init_history_ok point q m r track hs n p :
  ChargedParticle_init point q m r track hs n = Ok p -> history_ok p.
Proof.
  rewrite ChargedParticle_init_eq.
  destruct track; simpl.
  - destruct (Z.ltb_spec hs 0); [discriminate |].
    intros [= <-]. unfold history_ok; simpl.
    rewrite repeat_length. repeat split; try reflexivity; lia.
  - intros [= <-]. reflexivity.
Qed.

Lemma ChargedParticle_init_succeeds point q m r track hs n :
  track = false \/ (0 <= hs)%Z ->
  exists p, ChargedParticle_init point q m r track hs n = Ok p /\
            get_radius p = r.
Proof.
  intros H. rewrite ChargedParticle_init_eq.
  assert (track && (hs <? 0)%Z = false) as ->.
  { destruct H as [-> | H]; [reflexivity |].
    destruct (Z.ltb_spec hs 0); [lia | apply andb_false_r]. }
  eexists. split; reflexivity.
Qed.

Lemma setitem_nonneg_inv {A : Type} (arr arr' : list A) i v :
  (0 <= i)%Z -> setitem arr i v = Ok arr' ->
  (i < Z.of_nat (length arr))%Z /\ arr' = list_set (Z.to_nat i) v arr.
Proof.
  intros Hi. unfold setitem.
  destruct (resolve_index i (length arr)) as [n |] eqn:E; simpl; [| discriminate].
  intros [= <-]. destruct (resolve_index_nonneg_inv _ _ _ Hi E) as [Hlt ->].
  split; [assumption | reflexivity].
Qed.

Lemma add_to_position_history_ok s s' :
  history_ok s -> add_to_position_history s = Ok s' -> history_ok s'.
Proof.
  unfold history_ok, add_to_position_history.
  destruct (history s) as [h |]; [| discriminate].
  intros (Ht & Hp & Ha & Hlo & Hhi).
  destruct (Z.leb_spec (history_size s) (history_index h + 1)) as [Hfull | Hroom].
  - destruct (assign_front_from_back (history_size s / 2) (position_history h))
      as [ph |] eqn:E1; simpl; [| discriminate].
    destruct (assign_front_from_back (history_size s / 2) (acceleration_history h))
      as [ah |] eqn:E2; simpl; [| discriminate].
    destruct (setitem ph (history_size s / 2 + 1) (get_center s))
      as [ph' |] eqn:E3; simpl; [| discriminate].
    destruct (setitem ah (history_size s / 2 + 1) (get_acceleration s))
      as [ah' |] eqn:E4; simpl; [| discriminate].
    intros [= <-]. simpl.
    assert (0 <= history_size s / 2)%Z as Hhalf by (apply Z.div_pos; lia).
    apply setitem_nonneg_inv in E3; [| lia]. destruct E3 as [Hlt ->].
    apply setitem_nonneg_inv in E4; [| lia]. destruct E4 as [_ ->].
    rewrite !list_set_length.
    rewrite (assign_front_from_back_length _ _ _ _ E1) in *.
    rewrite (assign_front_from_back_length _ _ _ _ E2).
    repeat split; try assumption; lia.
  - simpl.
    destruct (setitem (position_history h) (history_index h + 1) (get_center s))
      as [ph' |] eqn:E3; simpl; [| discriminate].
    destruct (setitem (acceleration_history h) (history_index h + 1)
                (get_acceleration s)) as [ah' |] eqn:E4; simpl; [| discriminate].
    intros [= <-]. simpl.
    rewrite (setitem_length _ _ _ _ _ E3), (setitem_length _ _ _ _ _ E4).
    repeat split; try assumption; lia.
Qed.

Lemma increment_clock_history_ok dt s s' :
  history_ok s -> increment_clock dt s = Ok s' -> history_ok s'.
Proof.
  unfold increment_clock. destruct (Req_dec_T dt 0); [now intros H [= <-] |].
  destruct (recent_positions (set_clock (time s + dt) dt s)) as [[p0 p1] p2].
  intros H.
  destruct (track_position_history _) eqn:Et.
  - apply add_to_position_history_ok. exact H.
  - intros [= <-]. exact H.
Qed.

Lemma euler_substep_frame u dt s s' :
  euler_substep u dt s = Ok s' ->
  history s' = history s /\
  track_position_history s' = track_position_history s /\
  history_size s' = history_size s /\
  time_step s' = time_step s.
Proof.
  unfold euler_substep.
  destruct (force_func u (get_center s)) as [F | e]; cbn [bind]; [| discriminate].
  intros [= <-]. repeat split.
Qed.

Lemma update_from_force_frame u dt s s' :
  update_from_force u dt s = Ok s' ->
  history s' = history s /\
  track_position_history s' = track_position_history s /\
  history_size s' = history_size s /\
  time_step s' = time_step s.
Proof.
  unfold update_from_force.
  destruct (Req_dec_T dt 0); [intros [= <-]; repeat split |].
  generalize (espf u) at 1. intros k. revert s.
  induction k as [| k IH]; intros s; cbn [for_range];
    [intros [= <-]; repeat split |].
  destruct (euler_substep u dt s) as [s1 | e] eqn:E; cbn [bind]; [| discriminate].
  intros H. destruct (IH s1 H) as (H1 & H2 & H3 & H4).
  destruct (euler_substep_frame u dt s s1 E) as (G1 & G2 & G3 & G4).
  rewrite H1, H2, H3, H4. auto.
Qed.

Lemma run_updaters_frame dt us :
  forall s s',
    run_updaters us dt s = Ok s' ->
    history s' = history s /\
    track_position_history s' = track_position_history s /\
    history_size s' = history_size s /\
    time_step s' = time_step s.
Proof.
  induction us as [| u us IH]; intros s s'; cbn [run_updaters];
    [intros [= <-]; repeat split |].
  destruct (update_from_force u dt s) as [s1 | e] eqn:E; cbn [bind];
    [| discriminate].
  intros H. destruct (IH s1 s' H) as (H1 & H2 & H3 & H4).
  destruct (update_from_force_frame u dt s s1 E) as (G1 & G2 & G3 & G4).
  rewrite H1, H2, H3, H4. auto.
Qed.

Lemma run_updaters_history_ok dt us s s' :
  history_ok s -> run_updaters us dt s = Ok s' -> history_ok s'.
Proof.
  intros Hok H.
  destruct (run_updaters_frame dt us s s' H) as (H1 & H2 & H3 & _).
  unfold history_ok in *. now rewrite H1, H2, H3.
Qed.

Lemma update_inv dt s s' :
  update dt s = Ok s' ->
  exists s1, run_updaters (force_updaters s) dt s = Ok s1 /\
             increment_clock dt s1 = Ok s'.
Proof.
  unfold update.
  destruct (run_updaters (force_updaters s) dt s) as [s1 | e]; cbn [bind];
    [| discriminate].
  intros H. now exists s1.
Qed.

Lemma update_history_ok dt s s' :
  history_ok s -> update dt s = Ok s' -> history_ok s'.
Proof.
  intros Hok H. destruct (update_inv dt s s' H) as (s1 & H1 & H2).
  apply (increment_clock_history_ok dt s1 s'); [| exact H2].
  apply (run_updaters_history_ok dt (force_updaters s) s s1 Hok H1).
Qed.

Lemma add_to_position_history_inv s s' :
  add_to_position_history s = Ok s' -> exists h', s' = set_history (Some h') s.
Proof.
  unfold add_to_position_history.
  destruct (history s) as [h |]; [| discriminate].
  match goal with |- context [bind ?m _] =>
    match m with (if _ then _ else _) => destruct m as [[[ph ah] hi] |] end
  end; simpl; [| discriminate].
  destruct (setitem ph hi _); simpl; [| discriminate].
  destruct (setitem ah hi _); simpl; [| discriminate].
  intros [= <-]. eexists. reflexivity.
Qed.

Lemma increment_clock_track dt s s' :
  increment_clock dt s = Ok s' ->
  track_position_history s' = track_position_history s.
Proof.
  unfold increment_clock. destruct (Req_dec_T dt 0); [now intros [= <-] |].
  destruct (recent_positions (set_clock (time s + dt) dt s)) as [[p0 p1] p2].
  destruct (track_position_history _) eqn:Et.
  - intros H. apply add_to_position_history_inv in H. destruct H as [h' ->].
    simpl in *. congruence.
  - intros [= <-]. simpl in *. congruence.
Qed.

Lemma update_track dt s s' :
  update dt s = Ok s' -> track_position_history s' = track_position_history s.
Proof.
  intros H. destruct (update_inv dt s s' H) as (s1 & H1 & H2).
  apply increment_clock_track in H2. rewrite H2.
  apply (run_updaters_frame dt (force_updaters s) s s1 H1).
Qed.

Lemma reachable_history_ok p0 p :
  history_ok p0 -> reachable_from p0 p ->
  history_ok p /\ track_position_history p = track_position_history p0.
Proof.
  intros H0 Hr. induction Hr as [| dt p p' _ [IH1 IH2] Hu | c p _ IH | v p _ IH
                                | f p _ IH | p _ IH]; try exact IH.
  - split; [assumption | reflexivity].
  - split; [eapply update_history_ok; eassumption |].
    rewrite <- IH2. eapply update_track; eassumption.
Qed.

(** ** Reading the history *)

Lemma delay_index_bounds hi ts d :
  (0 <= hi)%Z -> (0 <= delay_index hi ts d <= hi)%Z.
Proof.
  intros H. apply trunc_bounds. apply clip_bounds.
  apply (IZR_le 0). assumption.
Qed.

Lemma delay_index_initial ts d : delay_index (-1) ts d = (-1)%Z.
Proof.
  unfold delay_index. rewrite clip_above by lra. apply trunc_IZR.
Qed.

Lemma get_info_from_delays_eq s h (arr : list Vect3) delays :
  history s = Some h ->
  (-1 <= history_index h < Z.of_nat (length arr))%Z \/ length arr = 0%nat ->
  get_info_from_delays s arr delays =
  Ok (if Nat.eqb (length arr) 0 then repeat zeros3 (length delays)
      else if (history_index h <? 0)%Z
           then map (fun _ => nth (length arr - 1) arr zeros3) delays
           else map (fun d =>
                       nth (Z.to_nat (delay_index (history_index h) (time_step s) d))
                         arr zeros3) delays).
Proof.
  intros Hh Hb. unfold get_info_from_delays. rewrite Hh.
  destruct (Nat.eqb_spec (length arr) 0) as [E | E]; [reflexivity |].
  destruct Hb as [Hb | Hb]; [| contradiction].
  unfold take. rewrite map_map.
  destruct (Z.ltb_spec (history_index h) 0) as [Hneg | Hpos].
  - assert (history_index h = -1)%Z as Ei by lia. rewrite Ei.
    rewrite (mapM_ok _ _ (fun _ => nth (length arr - 1) arr zeros3)).
    + now rewrite map_map.
    + intros x Hx. apply in_map_iff in Hx. destruct Hx as (d & <- & _).
      fold (delay_index (-1) (time_step s) d). rewrite delay_index_initial.
      apply getitem_last. lia.
  - rewrite (mapM_ok _ _ (fun i => nth (Z.to_nat i) arr zeros3)).
    + now rewrite map_map.
    + intros x Hx. apply in_map_iff in Hx. destruct Hx as (d & <- & _).
      fold (delay_index (history_index h) (time_step s) d).
      pose proof (delay_index_bounds _ (time_step s) d Hpos).
      apply getitem_nonneg. lia.
Qed.

Lemma get_info_from_delays_length s h (arr : list Vect3) delays :
  history s = Some h ->
  (-1 <= history_index h < Z.of_nat (length arr))%Z \/ length arr = 0%nat ->
  exists rows, get_info_from_delays s arr delays = Ok rows /\
               length rows = length delays.
Proof.
  intros Hh Hb. rewrite (get_info_from_delays_eq s h arr delays Hh Hb).
  eexists. split; [reflexivity |].
  destruct (Nat.eqb _ 0); [apply repeat_length |].
  destruct (_ <? 0)%Z; apply length_map.
Qed.

Lemma history_ok_bounds s h :
  history_ok s -> history s = Some h ->
  ((-1 <= history_index h < Z.of_nat (length (position_history h)))%Z \/
   length (position_history h) = 0%nat) /\
  ((-1 <= history_index h < Z.of_nat (length (acceleration_history h)))%Z \/
   length (acceleration_history h) = 0%nat).
Proof.
  unfold history_ok. intros H Hh. rewrite Hh in H.
  destruct H as (_ & Hp & Ha & Hb). rewrite Hp, Ha. split; left; lia.
Qed.

Lemma tracked_queries_succeed s delays :
  history_ok s -> track_position_history s = true ->
  (exists rows, get_past_position s delays = Ok rows /\
                length rows = length delays) /\
  (exists rows, get_past_acceleration s delays = Ok rows /\
                length rows = length delays).
Proof.
  intros Hok Ht. unfold get_past_position, get_past_acceleration.
  pose proof Hok as Hok'. unfold history_ok in Hok'.
  destruct (history s) as [h |] eqn:Hh; [| congruence].
  destruct (history_ok_bounds _ _ Hok Hh) as [Bp Ba].
  split; apply (get_info_from_delays_length s h _ delays Hh); assumption.
Qed.

Lemma untracked_queries_raise s delays :
  history_ok s -> track_position_history s = false ->
  get_past_position s delays = Raise AttributeError /\
  get_past_acceleration s delays = Raise AttributeError /\
  (forall arr, get_info_from_delays s arr delays =
               Raise (Exception "track_position_history is not turned on")).
Proof.
  intros Hok Ht. unfold get_past_position, get_past_acceleration,
    get_info_from_delays, history_ok in *.
  destruct (history s) as [h |]; [| repeat split].
  destruct Hok as [Hc _]. congruence.
Qed.

(** C9.  For every particle state reached from a constructor call, a query of
    the past position or of the past acceleration raises exactly when the
    particle was constructed with [track_position_history] off; on a tracking
    particle it returns one row per delay, and before the first record these
    rows are the zero vectors of the zero-initialised buffer. *)
Theorem past_queries_raise_iff_untracked
    point q m r track hs n (p0 p : ChargedParticle) (delays : list R) :
  ChargedParticle_init point q m r track hs n = Ok p0 ->
  reachable_from p0 p ->
  (raises (get_past_position p delays) <-> track = false) /\
  (raises (get_past_acceleration p delays) <-> track = false) /\
  (track = true ->
   get_past_position p0 delays = Ok (repeat zeros3 (length delays)) /\
   get_past_acceleration p0 delays = Ok (repeat zeros3 (length delays))).
Proof.
  intros Hinit Hreach.
  pose proof (ChargedParticle_init_history_ok _ _ _ _ _ _ _ _ Hinit) as Hok0.
  destruct (reachable_history_ok _ _ Hok0 Hreach) as [Hok Htr].
  destruct (ChargedParticle_init_fields _ _ _ _ _ _ _ _ Hinit)
    as (_ & _ & _ & _ & _ & Ht0 & Hhs & _ & _ & _ & Hh0).
  rewrite Ht0 in Htr.
  split; [| split].
  - destruct track.
    + destruct (tracked_queries_succeed _ delays Hok Htr) as [(rows & E & _) _].
      rewrite E. split; [intros [e He]; discriminate | discriminate].
    + destruct (untracked_queries_raise _ delays Hok Htr) as (E & _ & _).
      rewrite E. split; [reflexivity | intros _; now exists AttributeError].
  - destruct track.
    + destruct (tracked_queries_succeed _ delays Hok Htr) as [_ (rows & E & _)].
      rewrite E. split; [intros [e He]; discriminate | discriminate].
    + destruct (untracked_queries_raise _ delays Hok Htr) as (_ & E & _).
      rewrite E. split; [reflexivity | intros _; now exists AttributeError].
  - intros ->. unfold get_past_position, get_past_acceleration.
    rewrite Hh0. simpl.
    assert (forall k,
               get_info_from_delays p0 (repeat zeros3 k) delays =
               Ok (repeat zeros3 (length delays))) as Hz.
    { intros k. rewrite (get_info_from_delays_eq p0 _ (repeat zeros3 k) delays Hh0); simpl.
      - rewrite repeat_length. destruct (Nat.eqb k 0); [reflexivity |].
        rewrite nth_repeat_any. now rewrite map_const_repeat.
      - rewrite repeat_length. destruct k; [now right | left; lia]. }
    split; apply Hz.
Qed.

Lemma past_queries_raise_iff_untracked_witness :
  (raises (get_past_position
             (mkParticle 1 1 0.2 zeros3 true 4 zeros3 10 [] 0 (1 / 30)
                (zeros3, zeros3, zeros3)
                (Some (mkHistory (repeat zeros3 4) (repeat zeros3 4) (-1))))
             [0; 1]) <-> true = false) /\
  get_past_position
    (mkParticle 1 1 0.2 zeros3 true 4 zeros3 10 [] 0 (1 / 30)
       (zeros3, zeros3, zeros3)
       (Some (mkHistory (repeat zeros3 4) (repeat zeros3 4) (-1))))
    [0; 1] = Ok [zeros3; zeros3].
Proof.
  pose proof (past_queries_raise_iff_untracked zeros3 1 1 0.2 true 4 10
                (mkParticle 1 1 0.2 zeros3 true 4 zeros3 10 [] 0 (1 / 30)
                   (zeros3, zeros3, zeros3)
                   (Some (mkHistory (repeat zeros3 4) (repeat zeros3 4) (-1))))
                _ [0; 1] eq_refl (reach_fresh _)) as (H1 & _ & H3).
  split; [exact H1 | exact (proj1 (H3 eq_refl))].
Defined.

(** C10 (as the code has it).  The constructor checks neither the mass nor
    the radius: whenever the history arrays can be allocated (tracking off, or
    a non-negative [history_size]) it returns a particle, whatever the mass
    and the radius are, and the particle stores both unchanged. *)
Theorem ChargedParticle_init_unchecked point q m r track hs n :
  track = false \/ (0 <= hs)%Z ->
  exists p, ChargedParticle_init point q m r track hs n = Ok p /\
            mass p = m /\ get_radius p = r /\ get_charge p = q.
Proof.
  intros H. rewrite ChargedParticle_init_eq.
  assert (track && (hs <? 0)%Z = false) as ->.
  { destruct H as [-> | H]; [reflexivity |].
    destruct (Z.ltb_spec hs 0); [lia | apply andb_false_r]. }
  eexists. split; [reflexivity |]. repeat split.
Qed.

Lemma ChargedParticle_init_unchecked_witness :
  exists p, ChargedParticle_init zeros3 1 (-1) (-1) true 7200 10 = Ok p /\
            mass p = -1 /\ get_radius p = -1 /\ get_charge p = 1.
Proof.
  apply ChargedParticle_init_unchecked. right. lia.
Defined.

(** C10, refuted as stated: a particle of mass 0 (and one of negative radius)
    is constructed without any error. *)
Lemma ChargedParticle_init_accepts_zero_mass :
  (exists p, ChargedParticle_init zeros3 1 0 0.2 true 7200 10 = Ok p /\
             mass p = 0) /\
  ~ raises (ChargedParticle_init zeros3 1 0 0.2 true 7200 10) /\
  ~ raises (ChargedParticle_init zeros3 1 1 (-0.2) true 7200 10).
Proof.
  split; [| split].
  - rewrite ChargedParticle_init_eq.
    change (true && (7200 <? 0)%Z) with false. cbv iota.
    eexists. split; reflexivity.
  - intros H. apply ChargedParticle_init_raises in H. lia.
  - intros H. apply ChargedParticle_init_raises in H. lia.
Qed.

(** ** Following the position samples through a run of frames *)

Lemma assign_front_from_back_same_shape {A B : Type} k (a a' : list A) (b : list B) :
  length a = length b ->
  assign_front_from_back k a = Ok a' ->
  exists b', assign_front_from_back k b = Ok b'.
Proof.
  unfold assign_front_from_back. intros HL. rewrite HL.
  set (n := slice_bound k (length b)).
  assert (length (skipn n a) = length (skipn n b)) as Hs
    by (rewrite !length_skipn; lia).
  rewrite Hs.
  destruct (Nat.eqb (length (skipn n b)) n); [intros _; eexists; reflexivity |].
  destruct (skipn n a) as [| x [| ? ?]]; try discriminate.
  destruct (skipn n b) as [| y [| ? ?]]; try discriminate.
  intros _. eexists; reflexivity.
Qed.

Lemma assign_front_from_back_raise_shape {A B : Type} k (a : list A) (b : list B) e :
  length a = length b ->
  assign_front_from_back k a = Raise e ->
  assign_front_from_back k b = Raise e.
Proof.
  unfold assign_front_from_back. intros HL. rewrite HL.
  set (n := slice_bound k (length b)).
  assert (length (skipn n a) = length (skipn n b)) as Hs
    by (rewrite !length_skipn; lia).
  rewrite Hs.
  destruct (Nat.eqb (length (skipn n b)) n); [discriminate |].
  destruct (skipn n a) as [| x [| ? ?]]; destruct (skipn n b) as [| y [| ? ?]];
    simpl in *; try discriminate; now intros [= <-].
Qed.

Lemma setitem_same_shape {A B : Type} (a a' : list A) (b : list B) i v w :
  length a = length b ->
  setitem a i v = Ok a' ->
  exists b', setitem b i w = Ok b' /\ length b' = length a'.
Proof.
  unfold setitem. intros HL. rewrite HL.
  destruct (resolve_index i (length b)); simpl; [| discriminate].
  intros [= <-]. eexists. split; [reflexivity |].
  now rewrite !list_set_length.
Qed.

Lemma setitem_raise_shape {A B : Type} (a : list A) (b : list B) i v w e :
  length a = length b ->
  setitem a i v = Raise e -> setitem b i w = Raise e.
Proof.
  unfold setitem. intros HL. rewrite HL.
  destruct (resolve_index i (length b)); simpl; [discriminate | now intros [= <-]].
Qed.

Lemma add_to_position_history_view s h :
  history s = Some h ->
  length (position_history h) = length (acceleration_history h) ->
  match buffer_write (history_size s) (position_history h, history_index h)
          (get_center s) with
  | Ok (ph, hi) =>
      exists ah,
        add_to_position_history s = Ok (set_history (Some (mkHistory ph ah hi)) s) /\
        length ph = length ah
  | Raise e => add_to_position_history s = Raise e
  end.
Proof.
  intros Hh HL. unfold buffer_write, add_to_position_history. rewrite Hh.
  destruct (history_size s <=? history_index h + 1)%Z.
  - destruct (assign_front_from_back (history_size s / 2) (position_history h))
      as [ph1 | e] eqn:E1; simpl; [| reflexivity].
    destruct (assign_front_from_back_same_shape _ _ _ (acceleration_history h)
                HL E1) as [ah1 E2].
    rewrite E2. simpl.
    assert (length ph1 = length ah1) as HL1.
    { rewrite (assign_front_from_back_length _ _ _ _ E1),
        (assign_front_from_back_length _ _ _ _ E2). exact HL. }
    destruct (setitem ph1 (history_size s / 2 + 1) (get_center s))
      as [ph2 | e] eqn:E3; simpl; [| reflexivity].
    destruct (setitem_same_shape _ _ ah1 _ _ (get_acceleration s) HL1 E3)
      as (ah2 & E4 & HL2).
    rewrite E4. simpl. exists ah2. split; [reflexivity | now symmetry].
  - simpl.
    destruct (setitem (position_history h) (history_index h + 1) (get_center s))
      as [ph2 | e] eqn:E3; simpl; [| reflexivity].
    destruct (setitem_same_shape _ _ (acceleration_history h) _ _
                (get_acceleration s) HL E3) as (ah2 & E4 & HL2).
    rewrite E4. simpl. exists ah2. split; [reflexivity | now symmetry].
Qed.

Lemma update_no_updaters dt s :
  force_updaters s = [] -> update dt s = increment_clock dt s.
Proof. unfold update. now intros ->. Qed.

Lemma increment_clock_tracking dt s :
  dt <> 0 -> track_position_history s = true ->
  increment_clock dt s =
  add_to_position_history
    (set_recent_positions
       (snd (fst (recent_positions s)), snd (recent_positions s), get_center s)
       (set_clock (time s + dt) dt s)).
Proof.
  intros Hdt Ht. unfold increment_clock.
  destruct (Req_dec_T dt 0); [contradiction |].
  simpl. destruct (recent_positions s) as [[p0 p1] p2]. simpl.
  now rewrite Ht.
Qed.

Lemma increment_clock_untracked dt s :
  dt <> 0 -> track_position_history s = false ->
  increment_clock dt s =
  Ok (set_recent_positions
        (snd (fst (recent_positions s)), snd (recent_positions s), get_center s)
        (set_clock (time s + dt) dt s)).
Proof.
  intros Hdt Ht. unfold increment_clock.
  destruct (Req_dec_T dt 0); [contradiction |].
  simpl. destruct (recent_positions s) as [[p0 p1] p2]. simpl.
  now rewrite Ht.
Qed.

Lemma run_frames_view dt path : dt <> 0 -> forall s h,
  history s = Some h ->
  track_position_history s = true ->
  force_updaters s = [] ->
  length (position_history h) = length (acceleration_history h) ->
  match buffer_writes (history_size s) (position_history h, history_index h)
          path with
  | Ok (ph, hi) =>
      exists s' ah,
        run_frames dt path s = Ok s' /\
        history s' = Some (mkHistory ph ah hi) /\
        length ph = length ah /\
        track_position_history s' = true /\
        force_updaters s' = [] /\
        history_size s' = history_size s /\
        (path <> [] -> time_step s' = dt /\
                       get_center s' = last path zeros3)
  | Raise e => run_frames dt path s = Raise e
  end.
Proof.
  intros Hdt. induction path as [| c path IH]; intros s h Hh Ht Hu HL.
  - simpl. exists s, (acceleration_history h). destruct h; simpl in *.
    repeat split; try assumption. all: congruence.
  - cbn [buffer_writes run_frames]. rewrite update_no_updaters by assumption.
    rewrite increment_clock_tracking by assumption.
    set (s1 := set_recent_positions _ _).
    pose proof (add_to_position_history_view s1 h Hh HL) as Hv.
    change (history_size s1) with (history_size s) in Hv.
    change (get_center s1) with c in Hv.
    revert Hv.
    destruct (buffer_write (history_size s) (position_history h, history_index h) c)
      as [[ph1 hi1] | e]; cbn [bind]; intros Hv.
    + destruct Hv as (ah1 & E & HL1). rewrite E. cbn [bind].
      specialize (IH (set_history (Some (mkHistory ph1 ah1 hi1)) s1)
                    (mkHistory ph1 ah1 hi1) eq_refl Ht Hu HL1).
      simpl in IH.
      destruct (buffer_writes (history_size s) (ph1, hi1) path) as [[ph hi] | e].
      * destruct IH as (s' & ah & Hrun & Hh' & HL' & Ht' & Hu' & Hhs & Hlast).
        exists s', ah. repeat split; try assumption.
        -- destruct path as [| c' path']; [| apply Hlast; discriminate].
           simpl in Hrun. injection Hrun as <-. reflexivity.
        -- destruct path as [| c' path']; [| apply Hlast; discriminate].
           simpl in Hrun. injection Hrun as <-. reflexivity.
      * exact IH.
    + rewrite Hv. reflexivity.
Qed.

Lemma delay_index_quotient hi ts d k :
  d / ts = IZR k -> (0 <= k <= hi)%Z -> delay_index hi ts d = (hi - k)%Z.
Proof.
  intros Hq Hk. unfold delay_index. rewrite Hq, <- minus_IZR.
  rewrite clip_inside by (split; [apply (IZR_le 0) | apply IZR_le]; lia).
  apply trunc_IZR.
Qed.

Lemma delay_index_clamped hi ts d k :
  d / ts = IZR k -> (0 <= hi <= k)%Z -> delay_index hi ts d = 0%Z.
Proof.
  intros Hq Hk. unfold delay_index. rewrite Hq, <- minus_IZR.
  rewrite clip_low.
  - apply (trunc_IZR 0).
  - apply (IZR_le 0). lia.
  - apply (IZR_le _ 0). lia.
Qed.

Lemma sample_inj j k : sample j = sample k -> j = k.
Proof. unfold sample. intros [= H]. now apply eq_IZR. Qed.

(** C3, on the code: a capacity-8 buffer after 2 * 8 + 1 = 17 records.  The
    run does not fail and the three latest samples are read back exactly, but
    the delay of three time steps reads slot 4, which the compaction (cursor
    reset to [hist_size // 2 + 1]) never rewrites: it still holds sample 5,
    not sample 14, and the delay of four steps returns sample 14 instead of
    13.  With the odd capacity 3 the fourth record raises, the two halves of
    the slice assignment having different lengths. *)
Theorem history_compaction_skips_midpoint_slot :
  (exists p0 p,
     ChargedParticle_init zeros3 1 1 0.2 true 8 10 = Ok p0 /\
     run_frames 1 (map sample [1; 2; 3; 4; 5; 6; 7; 8; 9; 10; 11; 12; 13; 14;
                               15; 16; 17]%Z) p0 = Ok p /\
     get_past_position p [0; 1; 2; 3; 4] =
       Ok [sample 17; sample 16; sample 15; sample 5; sample 14]) /\
  (exists p0,
     ChargedParticle_init zeros3 1 1 0.2 true 3 10 = Ok p0 /\
     run_frames 1 (map sample [1; 2; 3; 4]%Z) p0 = Raise ValueError).
Proof.
  split.
  - eexists. rewrite ChargedParticle_init_eq. cbn [andb Z.ltb Z.compare].
    match goal with |- exists p, Ok ?s = _ /\ _ =>
      pose proof (run_frames_view 1
                    (map sample [1; 2; 3; 4; 5; 6; 7; 8; 9; 10; 11; 12; 13; 14;
                                 15; 16; 17]%Z) R1_neq_R0 s _ eq_refl eq_refl
                    eq_refl eq_refl) as Hv
    end.
    cbn [history_size position_history history_index] in Hv.
    assert (buffer_writes 8 (repeat zeros3 (Z.to_nat 8), (-1)%Z)
              (map sample [1; 2; 3; 4; 5; 6; 7; 8; 9; 10; 11; 12; 13; 14;
                           15; 16; 17]%Z) =
            Ok (map sample [5; 12; 13; 14; 5; 15; 16; 17]%Z, 7%Z)) as Hb
      by reflexivity.
    rewrite Hb in Hv. destruct Hv as (p & ah & Hrun & Hh & HL & _ & _ & _ & Hts).
    destruct Hts as [Hts _]; [discriminate |].
    exists p. split; [reflexivity |]. split; [exact Hrun |].
    unfold get_past_position. rewrite Hh. cbn [position_history].
    rewrite (get_info_from_delays_eq p _ _ _ Hh) by (simpl; left; lia).
    rewrite Hts. cbn [history_index length map Nat.eqb Z.ltb Z.compare].
    rewrite (delay_index_quotient 7 1 0 0), (delay_index_quotient 7 1 1 1),
      (delay_index_quotient 7 1 2 2), (delay_index_quotient 7 1 3 3),
      (delay_index_quotient 7 1 4 4) by (lra || lia).
    reflexivity.
  - eexists. rewrite ChargedParticle_init_eq. cbn [andb Z.ltb Z.compare].
    split; [reflexivity |].
    match goal with |- run_frames _ _ ?s = _ =>
      pose proof (run_frames_view 1 (map sample [1; 2; 3; 4]%Z) R1_neq_R0 s _
                    eq_refl eq_refl eq_refl eq_refl) as Hv
    end.
    cbn [history_size position_history history_index] in Hv.
    assert (buffer_writes 3 (repeat zeros3 (Z.to_nat 3), (-1)%Z)
              (map sample [1; 2; 3; 4]%Z) = Raise ValueError) as Hb
      by reflexivity.
    rewrite Hb in Hv. exact Hv.
Qed.

(** ** The latest record and the first record *)

Lemma add_to_position_history_latest s s' :
  history_ok s -> add_to_position_history s = Ok s' ->
  exists h',
    s' = set_history (Some h') s /\
    (0 <= history_index h' < Z.of_nat (length (position_history h')))%Z /\
    nth (Z.to_nat (history_index h')) (position_history h') zeros3 = get_center s /\
    nth (Z.to_nat (history_index h')) (acceleration_history h') zeros3 =
      get_acceleration s.
Proof.
  unfold history_ok, add_to_position_history.
  destruct (history s) as [h |]; [| discriminate].
  intros (Ht & Hp & Ha & Hlo & Hhi).
  destruct (Z.leb_spec (history_size s) (history_index h + 1)) as [Hfull | Hroom].
  - destruct (assign_front_from_back (history_size s / 2) (position_history h))
      as [ph |] eqn:E1; simpl; [| discriminate].
    destruct (assign_front_from_back (history_size s / 2) (acceleration_history h))
      as [ah |] eqn:E2; simpl; [| discriminate].
    destruct (setitem ph (history_size s / 2 + 1) (get_center s))
      as [ph' |] eqn:E3; simpl; [| discriminate].
    destruct (setitem ah (history_size s / 2 + 1) (get_acceleration s))
      as [ah' |] eqn:E4; simpl; [| discriminate].
    intros [= <-].
    assert (0 <= history_size s / 2)%Z as Hhalf by (apply Z.div_pos; lia).
    apply setitem_nonneg_inv in E3; [| lia]. destruct E3 as [Hlt3 ->].
    apply setitem_nonneg_inv in E4; [| lia]. destruct E4 as [Hlt4 ->].
    eexists. split; [reflexivity |]. simpl. rewrite list_set_length.
    repeat split; try lia; apply nth_list_set_eq; lia.
  - simpl.
    destruct (setitem (position_history h) (history_index h + 1) (get_center s))
      as [ph' |] eqn:E3; simpl; [| discriminate].
    destruct (setitem (acceleration_history h) (history_index h + 1)
                (get_acceleration s)) as [ah' |] eqn:E4; simpl; [| discriminate].
    intros [= <-].
    apply setitem_nonneg_inv in E3; [| lia]. destruct E3 as [Hlt3 ->].
    apply setitem_nonneg_inv in E4; [| lia]. destruct E4 as [Hlt4 ->].
    eexists. split; [reflexivity |]. simpl. rewrite list_set_length.
    repeat split; try lia; apply nth_list_set_eq; lia.
Qed.

Lemma get_past_position_zero_delay s h :
  history s = Some h ->
  (0 <= history_index h < Z.of_nat (length (position_history h)))%Z ->
  get_past_position s [0] =
  Ok [nth (Z.to_nat (history_index h)) (position_history h) zeros3].
Proof.
  intros Hh Hb. unfold get_past_position. rewrite Hh.
  rewrite (get_info_from_delays_eq s h _ _ Hh) by (left; lia).
  destruct (Nat.eqb_spec (length (position_history h)) 0) as [E | _]; [lia |].
  destruct (Z.ltb_spec (history_index h) 0) as [E | _]; [lia |].
  simpl. rewrite (delay_index_quotient _ _ 0 0).
  - now rewrite Z.sub_0_r.
  - unfold Rdiv. apply Rmult_0_l.
  - lia.
Qed.

Lemma update_records_center dt s s' :
  dt <> 0 -> history_ok s -> track_position_history s = true ->
  update dt s = Ok s' ->
  get_past_position s' [0] = Ok [get_center s'].
Proof.
  intros Hdt Hok Ht Hu.
  destruct (update_inv dt s s' Hu) as (s1 & Hrun & H).
  pose proof (run_updaters_history_ok dt _ s s1 Hok Hrun) as Hok1.
  assert (track_position_history s1 = true) as Ht1.
  { destruct (run_updaters_frame dt _ s s1 Hrun) as (_ & H' & _). congruence. }
  rewrite increment_clock_tracking in H by assumption.
  set (s2 := set_recent_positions _ _) in H.
  apply add_to_position_history_latest in H; [| exact Hok1].
  destruct H as (h' & -> & Hb & Hc & _).
  rewrite (get_past_position_zero_delay (set_history (Some h') s2) h' eq_refl Hb).
  rewrite Hc. reflexivity.
Qed.

Lemma nth_pred_length_last {A : Type} (l : list A) d :
  nth (length l - 1) l d = last l d.
Proof.
  induction l as [| a l IH]; [reflexivity |].
  destruct l as [| b l]; [reflexivity |].
  simpl in *. now rewrite Nat.sub_0_r in IH.
Qed.

Lemma list_set_app {A : Type} (done rest : list A) x v :
  list_set (length done) v (done ++ x :: rest) = done ++ v :: rest.
Proof. induction done as [| a done IH]; simpl; [reflexivity | now rewrite IH]. Qed.

Lemma buffer_writes_no_compaction {A : Type} hs (vs : list A) :
  forall done rest,
    Z.of_nat (length done + length rest) = hs ->
    (length vs <= length rest)%nat ->
    buffer_writes hs (done ++ rest, (Z.of_nat (length done) - 1)%Z) vs =
    Ok (done ++ vs ++ skipn (length vs) rest,
        (Z.of_nat (length done + length vs) - 1)%Z).
Proof.
  induction vs as [| v vs IH]; intros done rest Hhs Hle.
  - simpl. now rewrite Nat.add_0_r.
  - destruct rest as [| x rest]; simpl in Hle; [lia |].
    cbn [buffer_writes]. unfold buffer_write.
    replace (Z.of_nat (length done) - 1 + 1)%Z with (Z.of_nat (length done)) by lia.
    destruct (Z.leb_spec hs (Z.of_nat (length done))) as [Hc | _];
      [simpl in Hhs; lia |].
    cbn [bind]. rewrite setitem_nonneg
      by (rewrite length_app; simpl; lia).
    rewrite Nat2Z.id, list_set_app. cbn [bind].
    specialize (IH (done ++ [v]) rest).
    rewrite length_app in IH. simpl in IH.
    replace (Z.of_nat (length done + 1) - 1)%Z with (Z.of_nat (length done)) in IH by lia.
    rewrite <- app_assoc in IH. simpl in IH.
    rewrite IH by (simpl in Hhs; lia).
    rewrite <- app_assoc. simpl.
    do 3 f_equal. lia.
Qed.

Lemma run_frames_before_compaction dt path p0 point q m r hs n :
  dt <> 0 -> path <> [] -> (Z.of_nat (length path) <= hs)%Z ->
  ChargedParticle_init point q m r true hs n = Ok p0 ->
  exists pN ah,
    run_frames dt path p0 = Ok pN /\
    history pN =
      Some (mkHistory
              (path ++ skipn (length path) (repeat zeros3 (Z.to_nat hs)))
              ah (Z.of_nat (length path) - 1)) /\
    time_step pN = dt /\ get_center pN = last path zeros3.
Proof.
  intros Hdt Hne HN Hinit.
  destruct (ChargedParticle_init_fields _ _ _ _ _ _ _ _ Hinit)
    as (_ & _ & _ & _ & _ & Ht0 & Hhs & _ & Hu0 & _ & Hh0).
  pose proof (run_frames_view dt path Hdt p0 _ Hh0 Ht0 Hu0 eq_refl) as Hv.
  cbn [position_history history_index] in Hv. rewrite Hhs in Hv.
  pose proof (buffer_writes_no_compaction hs path [] (repeat zeros3 (Z.to_nat hs)))
    as Hb.
  simpl in Hb. rewrite Hb in Hv.
  - destruct Hv as (pN & ah & Hrun & Hh & _ & _ & _ & _ & Hlast).
    destruct (Hlast Hne) as [Hts Hc].
    exists pN, ah. repeat split; assumption.
  - rewrite repeat_length. lia.
  - rewrite repeat_length. lia.
Qed.

Lemma add_to_position_history_room s h :
  history s = Some h ->
  (0 <= history_index h + 1 < history_size s)%Z ->
  (history_index h + 1 < Z.of_nat (length (position_history h)))%Z ->
  (history_index h + 1 < Z.of_nat (length (acceleration_history h)))%Z ->
  add_to_position_history s =
  Ok (set_history
        (Some (mkHistory
                 (list_set (Z.to_nat (history_index h + 1)) (get_center s)
                    (position_history h))
                 (list_set (Z.to_nat (history_index h + 1))
                    (get_acceleration s) (acceleration_history h))
                 (history_index h + 1)%Z)) s).
Proof.
  intros Hh Hhs Hp Ha. unfold add_to_position_history. rewrite Hh.
  destruct (Z.leb_spec (history_size s) (history_index h + 1)) as [Hc | _];
    [lia |].
  cbn [bind]. rewrite setitem_nonneg by lia. cbn [bind].
  rewrite setitem_nonneg by lia. reflexivity.
Qed.

Lemma update_with_room dt p p' h :
  history_ok p -> track_position_history p = true ->
  history p = Some h ->
  (history_index h + 1 < history_size p)%Z ->
  dt <> 0 ->
  update dt p = Ok p' ->
  exists h',
    history p' = Some h' /\
    history_index h' = (history_index h + 1)%Z /\
    time_step p' = dt /\
    history_size p' = history_size p /\
    nth (Z.to_nat (history_index h')) (position_history h') zeros3 =
      get_center p' /\
    forall i, i <> Z.to_nat (history_index h') ->
      nth i (position_history h') zeros3 = nth i (position_history h) zeros3 /\
      nth i (acceleration_history h') zeros3 =
        nth i (acceleration_history h) zeros3.
Proof.
  intros Hok Htr Hh Hroom Hdt Hu.
  destruct (update_inv dt p p' Hu) as (s1 & Hrun & H).
  destruct (run_updaters_frame dt _ p s1 Hrun) as (Hh1 & Ht1 & Hhs1 & _).
  rewrite increment_clock_tracking in H by congruence.
  set (s2 := set_recent_positions _ _) in H.
  assert (history s2 = Some h) as Hh2 by (simpl; congruence).
  unfold history_ok in Hok. rewrite Hh in Hok.
  destruct Hok as (_ & Hp & Ha & Hlo & Hhi).
  rewrite (add_to_position_history_room s2 h Hh2) in H
    by (simpl; rewrite ?Hhs1; lia).
  injection H as <-.
  eexists. split; [reflexivity |]. simpl.
  split; [reflexivity |]. split; [reflexivity |].
  split; [exact Hhs1 |]. split.
  - apply nth_list_set_eq. lia.
  - intros i Hi. split; apply nth_list_set_neq; intros E; apply Hi;
      symmetry; exact E.
Qed.

Lemma prepared_frame p q :
  prepared p q ->
  history q = history p /\
  track_position_history q = track_position_history p /\
  history_size q = history_size p /\
  time_step q = time_step p.
Proof.
  induction 1 as [| c q _ IH | v q _ IH | f q _ IH | q _ IH];
    [repeat split | exact IH ..].
Qed.

Lemma prepared_history_ok p q : prepared p q -> history_ok p -> history_ok q.
Proof.
  intros H Hok. destruct (prepared_frame p q H) as (H1 & H2 & H3 & _).
  unfold history_ok in *. now rewrite H1, H2, H3.
Qed.

Lemma frame_with_room dt q q' r h :
  history_ok q -> track_position_history q = true ->
  history q = Some h ->
  (history_index h + 1 < history_size q)%Z ->
  dt <> 0 ->
  prepared q q' -> update dt q' = Ok r ->
  exists h',
    history r = Some h' /\
    history_index h' = (history_index h + 1)%Z /\
    time_step r = dt /\
    history_size r = history_size q /\
    history_ok r /\ track_position_history r = true /\
    nth (Z.to_nat (history_index h')) (position_history h') zeros3 =
      get_center r /\
    forall i, i <> Z.to_nat (history_index h') ->
      nth i (position_history h') zeros3 = nth i (position_history h) zeros3.
Proof.
  intros Hok Htr Hh Hroom Hdt Hprep Hu.
  destruct (prepared_frame q q' Hprep) as (H1 & H2 & H3 & _).
  pose proof (prepared_history_ok q q' Hprep Hok) as Hok'.
  destruct (update_with_room dt q' r h Hok') as (h' & Hh' & Hi & Hts & Hhs & Hc & Hrest);
    try congruence.
  exists h'. split; [exact Hh' |]. split; [exact Hi |]. split; [exact Hts |].
  split; [congruence |].
  split; [apply (update_history_ok dt q' r Hok' Hu) |].
  split; [rewrite (update_track dt q' r Hu); congruence |].
  split; [exact Hc |].
  intros i Hne. apply (Hrest i Hne).
Qed.

Lemma advanced_one_inv dt p p1 :
  advanced dt 1 p p1 -> exists q', prepared p q' /\ update dt q' = Ok p1.
Proof.
  intros H. inversion H as [| k a b q' c Hzero Hprep Hu]; subst.
  inversion Hzero; subst. now exists q'.
Qed.

Lemma advanced_first_row dt point q m r hs n p0 p1 :
  ChargedParticle_init point q m r true hs n = Ok p0 ->
  dt <> 0 ->
  advanced dt 1 p0 p1 ->
  forall k pk,
    advanced dt k p1 pk -> (Z.of_nat (S k) <= hs)%Z ->
    exists h,
      history pk = Some h /\
      history_index h = Z.of_nat k /\
      time_step pk = dt /\
      history_size pk = hs /\
      history_ok pk /\ track_position_history pk = true /\
      nth (Z.to_nat (history_index h)) (position_history h) zeros3 =
        get_center pk /\
      nth 0 (position_history h) zeros3 = get_center p1.
Proof.
  intros Hinit Hdt Hfirst k pk Hadv.
  pose proof (ChargedParticle_init_history_ok _ _ _ _ _ _ _ _ Hinit) as Hok0.
  destruct (ChargedParticle_init_fields _ _ _ _ _ _ _ _ Hinit)
    as (_ & _ & _ & _ & _ & Ht0 & Hhs & _ & _ & _ & Hh0).
  destruct (advanced_one_inv dt p0 p1 Hfirst) as (q' & Hprep & Hu).
  clear Hfirst Hinit.
  induction Hadv as [p1 | k p1 a a' b Hadv IH Hprep' Hu']; intros Hk.
  - destruct (frame_with_room dt p0 q' p1 _ Hok0 Ht0 Hh0) as
      (h1 & Hh1 & Hi1 & Hts1 & Hsz1 & Hok1 & Htr1 & Hc1 & _);
      try assumption.
    { cbn [history_index]. lia. }
    cbn [history_index] in Hi1.
    exists h1. rewrite Hi1 in *. cbn [Z.to_nat] in *.
    split; [exact Hh1 |]. split; [reflexivity |]. split; [exact Hts1 |].
    split; [congruence |]. split; [exact Hok1 |]. split; [exact Htr1 |].
    split; exact Hc1.
  - destruct (IH Hu) as
      (h & Hh & Hi & Hts & Hsz & Hok & Htr & Hc & Hrow0); [lia |].
    destruct (frame_with_room dt a a' b h Hok Htr Hh) as
      (h' & Hh' & Hi' & Hts' & Hsz' & Hok' & Htr' & Hc' & Hrest');
      try assumption.
    { rewrite Hi, Hsz. lia. }
    exists h'. split; [exact Hh' |].
    split; [rewrite Hi', Hi; lia |]. split; [exact Hts' |].
    split; [congruence |]. split; [exact Hok' |]. split; [exact Htr' |].
    split; [exact Hc' |].
    rewrite <- Hrow0. apply Hrest'. rewrite Hi', Hi. lia.
Qed.

Lemma delay_index_floor hi ts d k :
  (0 <= k <= hi)%Z -> 0 <= d / ts ->
  IZR k <= IZR hi - d / ts < IZR k + 1 ->
  delay_index hi ts d = k.
Proof.
  intros Hk Hd Hx. unfold delay_index.
  assert (0 <= IZR k) as Hk0 by (apply (IZR_le 0); lia).
  rewrite clip_inside by lra.
  unfold trunc. destruct (Rle_dec 0 (IZR hi - d / ts)) as [_ | H]; [| lra].
  symmetry. apply Int_part_spec. lra.
Qed.

Lemma run_frames_reachable p0 dt path :
  forall s p, reachable_from p0 s -> run_frames dt path s = Ok p ->
              reachable_from p0 p.
Proof.
  induction path as [| c path IH]; intros s p Hs; cbn [run_frames].
  - now intros [= <-].
  - destruct (update dt (move_to c s)) as [s1 | e] eqn:E; cbn [bind];
      [| discriminate].
    apply IH. exact (@reach_update p0 dt _ s1 (@reach_move_to p0 c s Hs) E).
Qed.

Lemma get_past_position_at s h d i :
  history_ok s -> history s = Some h -> (0 <= history_index h)%Z ->
  delay_index (history_index h) (time_step s) d = i ->
  get_past_position s [d] = Ok [nth (Z.to_nat i) (position_history h) zeros3].
Proof.
  intros Hok Hh Hhi Hd.
  destruct (history_ok_bounds _ _ Hok Hh) as [Bp _].
  unfold get_past_position. rewrite Hh.
  rewrite (get_info_from_delays_eq s h _ [d] Hh Bp).
  destruct Bp as [Bp | Bp].
  - destruct (Nat.eqb_spec (length (position_history h)) 0) as [E | _]; [lia |].
    destruct (Z.ltb_spec (history_index h) 0) as [E | _]; [lia |].
    cbn [map]. now rewrite Hd.
  - unfold history_ok in Hok. rewrite Hh in Hok. lia.
Qed.

(** C4 (amended).  On a tracking particle with at least one record, every
    delay [d] returns the row of [position_history] at index
    [trunc (clip (history_index - d / time_step) 0 history_index)], an index
    between 0 and [history_index]; after any non-zero update, delay 0 returns
    the position just recorded, which is the current one; and after N
    non-zero frames of size [dt] from construction, with N at most the
    capacity, delay [N * dt] is clamped to index 0 and returns the first
    recorded position.  The last part is stated twice: for the runs of
    [run_frames] (which always succeed), and for any N successful updates
    with any other interface calls (moves, registered forces) in between. *)
Theorem get_past_position_truncated_index
    point q m r hs n (p0 p : ChargedParticle) (h : History) (delays : list R) :
  ChargedParticle_init point q m r true hs n = Ok p0 ->
  reachable_from p0 p ->
  history p = Some h ->
  (0 <= history_index h)%Z ->
  let index d :=
    trunc (clip (IZR (history_index h) - d / time_step p) 0
             (IZR (history_index h))) in
  get_past_position p delays =
    Ok (map (fun d => nth (Z.to_nat (index d)) (position_history h) zeros3)
          delays) /\
  (forall d, (0 <= index d <= history_index h)%Z) /\
  (forall dt p', dt <> 0 -> update dt p = Ok p' ->
                 get_past_position p' [0] = Ok [get_center p']) /\
  (forall dt path,
      dt <> 0 -> path <> [] -> (Z.of_nat (length path) <= hs)%Z ->
      exists pN,
        run_frames dt path p0 = Ok pN /\
        get_center pN = last path zeros3 /\
        get_past_position pN [0] = Ok [get_center pN] /\
        get_past_position pN [IZR (Z.of_nat (length path)) * dt] =
          Ok [hd zeros3 path]) /\
  (forall dt k p1 pN,
      dt <> 0 -> advanced dt 1 p0 p1 -> advanced dt k p1 pN ->
      (Z.of_nat (S k) <= hs)%Z ->
      get_past_position pN [0] = Ok [get_center pN] /\
      get_past_position pN [INR k * dt] = Ok [get_center p1] /\
      get_past_position pN [INR (S k) * dt] = Ok [get_center p1]).
Proof.
  intros Hinit Hreach Hh Hhi index.
  pose proof (ChargedParticle_init_history_ok _ _ _ _ _ _ _ _ Hinit) as Hok0.
  destruct (reachable_history_ok _ _ Hok0 Hreach) as [Hok Htr].
  destruct (ChargedParticle_init_fields _ _ _ _ _ _ _ _ Hinit)
    as (_ & _ & _ & _ & _ & Ht0 & Hhs & _ & _ & _ & _).
  rewrite Ht0 in Htr.
  destruct (history_ok_bounds _ _ Hok Hh) as [Bp _].
  split; [| split; [| split; [| split]]].
  - unfold get_past_position. rewrite Hh.
    rewrite (get_info_from_delays_eq p h _ delays Hh Bp).
    destruct Bp as [Bp | Bp].
    + destruct (Nat.eqb_spec (length (position_history h)) 0) as [E | _]; [lia |].
      destruct (Z.ltb_spec (history_index h) 0) as [E | _]; [lia |].
      reflexivity.
    + unfold history_ok in Hok. rewrite Hh in Hok. lia.
  - intros d. apply (delay_index_bounds _ (time_step p) d Hhi).
  - intros dt p' Hdt Hu. now apply (update_records_center dt p p').
  - intros dt path Hdt Hne HN.
    destruct (run_frames_before_compaction dt path p0 _ _ _ _ _ _ Hdt Hne HN Hinit)
      as (pN & ah & Hrun & HhN & Hts & Hc).
    exists pN. split; [exact Hrun |]. split; [exact Hc |].
    assert (length path <> 0)%nat as HN0 by (destruct path; simpl; congruence).
    assert (length (path ++ skipn (length path) (repeat zeros3 (Z.to_nat hs)))
            = Z.to_nat hs) as HL.
    { rewrite length_app, length_skipn, repeat_length. lia. }
    split.
    + rewrite (get_past_position_zero_delay pN _ HhN)
        by (cbn [position_history history_index]; lia).
      cbn [position_history history_index]. rewrite Hc. do 2 f_equal.
      replace (Z.to_nat (Z.of_nat (length path) - 1)) with (length path - 1)%nat
        by lia.
      rewrite app_nth1 by lia.
      apply nth_pred_length_last.
    + unfold get_past_position. rewrite HhN. cbn [position_history].
      rewrite (get_info_from_delays_eq pN _ _ _ HhN)
        by (cbn [history_index]; left; lia).
      rewrite HL. cbn [history_index].
      destruct (Nat.eqb_spec (Z.to_nat hs) 0) as [E | _]; [lia |].
      destruct (Z.ltb_spec (Z.of_nat (length path) - 1) 0) as [E | _]; [lia |].
      cbn [map]. rewrite Hts.
      rewrite (delay_index_clamped _ dt _ (Z.of_nat (length path)))
        by (try lia; field; assumption).
      destruct path as [| c path]; [contradiction | reflexivity].
  - intros dt k p1 pN Hdt Hfirst Hadv Hk.
    destruct (advanced_first_row dt point q m r hs n p0 p1 Hinit Hdt Hfirst
                k pN Hadv Hk)
      as (hN & HhN & HiN & HtsN & _ & HokN & _ & HcN & Hrow0).
    assert (0 <= history_index hN)%Z as Hpos by lia.
    split; [| split].
    + rewrite (get_past_position_at pN hN 0 (history_index hN) HokN HhN Hpos).
      * now rewrite HcN.
      * rewrite (delay_index_quotient _ _ 0 0); [lia | | lia].
        unfold Rdiv. apply Rmult_0_l.
    + rewrite (get_past_position_at pN hN (INR k * dt) 0 HokN HhN Hpos).
      * cbn [Z.to_nat]. now rewrite Hrow0.
      * rewrite HtsN, HiN.
        rewrite (delay_index_quotient _ dt _ (Z.of_nat k)); [lia | | lia].
        rewrite INR_IZR_INZ. field. exact Hdt.
    + rewrite (get_past_position_at pN hN (INR (S k) * dt) 0 HokN HhN Hpos).
      * cbn [Z.to_nat]. now rewrite Hrow0.
      * rewrite HtsN, HiN.
        apply (delay_index_clamped _ dt _ (Z.of_nat (S k))); [| lia].
        rewrite INR_IZR_INZ. field. exact Hdt.
Qed.

(** Three frames of size 1 along the x axis with capacity 4: the cursor is 2.
    Delay 0 reads row 2; delay 0.4 gives the continuous index 1.6, truncated
    to row 1 (rounding would read row 2); delay 1.5 gives 0.5, truncated to
    row 0; delay 7 gives -5, clamped to row 0. *)
Lemma get_past_position_truncated_index_witness :
  exists p0 p,
    ChargedParticle_init zeros3 1 1 0.2 true 4 10 = Ok p0 /\
    run_frames 1 (map sample [1; 2; 3]%Z) p0 = Ok p /\
    get_past_position p [0; 0.4; 1.5; 7] =
      Ok [sample 3; sample 2; sample 1; sample 1].
Proof.
  destruct (ChargedParticle_init_succeeds zeros3 1 1 0.2 true 4 10)
    as (p0 & Hinit & _); [right; lia |].
  destruct (run_frames_before_compaction 1 (map sample [1; 2; 3]%Z) p0
              zeros3 1 1 0.2 4 10
              R1_neq_R0 ltac:(discriminate) ltac:(simpl; lia) Hinit)
    as (p & ah & Hrun & Hh & Hts & _).
  exists p0, p. split; [exact Hinit |]. split; [exact Hrun |].
  rewrite (proj1 (get_past_position_truncated_index zeros3 1 1 0.2 4 10 p0 p _
                    [0; 0.4; 1.5; 7] Hinit
                    (run_frames_reachable p0 1 _ p0 p (reach_fresh p0) Hrun)
                    Hh ltac:(simpl; lia))).
  rewrite Hts. cbn [history_index position_history map length Z.of_nat
                    Pos.of_succ_nat Pos.succ Z.sub Z.add Z.opp Z.pos_sub
                    Pos.pred_double].
  fold (delay_index 2 1 0). fold (delay_index 2 1 0.4).
  fold (delay_index 2 1 1.5). fold (delay_index 2 1 7).
  rewrite (delay_index_floor 2 1 0 2) by (lia || lra).
  rewrite (delay_index_floor 2 1 0.4 1) by (lia || lra).
  rewrite (delay_index_floor 2 1 1.5 0) by (lia || lra).
  rewrite (delay_index_clamped 2 1 7 7) by (lia || lra).
  reflexivity.
Defined.

(** C4, refuted as stated: with capacity 4, after 5 frames of size 1 the
    delay 5 * 1 is clamped to index 0, but the compaction has overwritten
    that row: the query returns the third recorded position, not the first. *)
Lemma first_position_lost_after_compaction :
  exists p0 p,
    ChargedParticle_init zeros3 1 1 0.2 true 4 10 = Ok p0 /\
    run_frames 1 (map sample [1; 2; 3; 4; 5]%Z) p0 = Ok p /\
    get_past_position p [5 * 1] = Ok [sample 3] /\
    sample 3 <> sample 1.
Proof.
  eexists. rewrite ChargedParticle_init_eq. cbn [andb Z.ltb Z.compare].
  match goal with |- exists p, Ok ?s = _ /\ _ =>
    pose proof (run_frames_view 1 (map sample [1; 2; 3; 4; 5]%Z) R1_neq_R0 s _
                  eq_refl eq_refl eq_refl eq_refl) as Hv
  end.
  cbn [history_size position_history history_index] in Hv.
  assert (buffer_writes 4 (repeat zeros3 (Z.to_nat 4), (-1)%Z)
            (map sample [1; 2; 3; 4; 5]%Z) =
          Ok (map sample [3; 4; 3; 5]%Z, 3%Z)) as Hb by reflexivity.
  rewrite Hb in Hv. destruct Hv as (p & ah & Hrun & Hh & HL & _ & _ & _ & Hts).
  destruct Hts as [Hts _]; [discriminate |].
  exists p. split; [reflexivity |]. split; [exact Hrun |]. split.
  - unfold get_past_position. rewrite Hh. cbn [position_history].
    rewrite (get_info_from_delays_eq p _ _ _ Hh) by (simpl; left; lia).
    rewrite Hts. cbn [history_index length map Nat.eqb Z.ltb Z.compare].
    rewrite (delay_index_clamped 3 1 (5 * 1) 5) by (lra || lia).
    reflexivity.
  - intros H. apply sample_inj in H. discriminate.
Qed.

(** [delay_index] truncates: a delay of 0.4 time steps behind cursor 7 gives
    the continuous index 6.6 and selects row 6, where rounding to the nearest
    integer would select row 7. *)
Lemma delay_index_truncates : delay_index 7 1 0.4 = 6%Z.
Proof.
  unfold delay_index. rewrite clip_inside by lra.
  unfold trunc. destruct (Rle_dec 0 (7 - 0.4 / 1)) as [_ | H]; [| lra].
  symmetry. apply Int_part_spec. lra.
Qed.

(** ** The acceleration estimator *)

Lemma isclose_true a b :
  Rabs (a - b) <= atol + rtol * Rabs b -> isclose a b = true.
Proof. apply Rleb_true. Qed.

Lemma isclose_false a b :
  atol + rtol * Rabs b < Rabs (a - b) -> isclose a b = false.
Proof. intros H. apply Rleb_false. lra. Qed.

Lemma isclose_refl x : isclose x x = true.
Proof.
  apply isclose_true. unfold Rminus. rewrite Rplus_opp_r, Rabs_R0.
  pose proof (Rabs_pos x). unfold atol, rtol. nra.
Qed.

Lemma allclose_refl p : allclose p p = true.
Proof. unfold allclose. now rewrite !isclose_refl. Qed.

Lemma allclose_false_y p q : isclose (vy p) (vy q) = false -> allclose p q = false.
Proof.
  intros H. unfold allclose. rewrite H, andb_false_r. reflexivity.
Qed.

Lemma get_acceleration_eq self :
  get_acceleration self =
  let '(p0, p1, p2) := recent_positions self in
  if allclose p0 p1 || allclose p1 p2 then zeros3
  else sdiv (vsub (vadd p0 p2) (smul 2 p1)) (time_step self ^ 2).
Proof. reflexivity. Qed.

(** C8 (amended).  With [(p0, p1, p2)] the three recent positions and [h]
    the latest time step: if both consecutive pairs differ beyond the
    tolerance of [np.isclose], the estimate is (p0 + p2 - 2 p1) / h^2; if
    either pair is unchanged within tolerance it is exactly the zero vector;
    in particular it is exactly the zero vector for a particle that did not
    move over one of the last two frames. *)
Theorem get_acceleration_finite_difference
    (self : ChargedParticle) (p0 p1 p2 : Vect3) :
  recent_positions self = (p0, p1, p2) ->
  let h := time_step self in
  (allclose p0 p1 = false -> allclose p1 p2 = false ->
   get_acceleration self = sdiv (vsub (vadd p0 p2) (smul 2 p1)) (h ^ 2)) /\
  (allclose p0 p1 = true \/ allclose p1 p2 = true ->
   get_acceleration self = zeros3) /\
  (p0 = p1 \/ p1 = p2 -> get_acceleration self = zeros3).
Proof.
  intros Hr h. rewrite get_acceleration_eq, Hr. fold h.
  split; [| split].
  - intros -> ->. reflexivity.
  - intros [-> | ->]; [reflexivity | now rewrite orb_true_r].
  - intros [-> | ->]; rewrite allclose_refl;
      [reflexivity | now rewrite orb_true_r].
Qed.

(** The recent positions (0, 0, 0), (0, 1, 0), (0, 3, 0) with time step 1
    give the estimate (0, 1, 0). *)
Lemma get_acceleration_finite_difference_witness :
  get_acceleration
    (mkParticle 1 1 0.2 (mkVect3 0 3 0) false 0 zeros3 10 [] 2 1
       (zeros3, mkVect3 0 1 0, mkVect3 0 3 0) None) = mkVect3 0 1 0.
Proof.
  rewrite (proj1 (get_acceleration_finite_difference
                    (mkParticle 1 1 0.2 (mkVect3 0 3 0) false 0 zeros3 10 [] 2 1
                       (zeros3, mkVect3 0 1 0, mkVect3 0 3 0) None)
                    zeros3 (mkVect3 0 1 0) (mkVect3 0 3 0) eq_refl)).
  - apply Vect3_eq; simpl; lra.
  - apply allclose_false_y. apply isclose_false. simpl.
    unfold atol, rtol, Rabs. repeat destruct (Rcase_abs _); lra.
  - apply allclose_false_y. apply isclose_false. simpl.
    unfold atol, rtol, Rabs. repeat destruct (Rcase_abs _); lra.
Defined.

(** C8, refuted as stated: a particle moved along x(t) = t, hence at constant
    velocity (1, 0, 0), and sampled at t = 0, 1, 3 (frames of size 1, then 2)
    gets the estimate (1/4, 0, 0), not the zero vector: the estimator divides
    by the square of the latest time step only. *)
Lemma constant_velocity_uneven_steps_acceleration :
  exists p0 p1 p2,
    ChargedParticle_init (sample 0) 1 1 0.2 false 7200 10 = Ok p0 /\
    update 1 (move_to (sample 1) p0) = Ok p1 /\
    update 2 (move_to (sample 3) p1) = Ok p2 /\
    get_internal_time p1 = 1 /\ get_internal_time p2 = 3 /\
    recent_positions p2 = (sample 0, sample 1, sample 3) /\
    get_acceleration p2 = mkVect3 (1 / 4) 0 0 /\
    get_acceleration p2 <> zeros3.
Proof.
  exists (mkParticle 1 1 0.2 (sample 0) false 7200 zeros3 10 [] 0 (1 / 30)
            (sample 0, sample 0, sample 0) None),
         (mkParticle 1 1 0.2 (sample 1) false 7200 zeros3 10 [] (0 + 1) 1
            (sample 0, sample 0, sample 1) None),
         (mkParticle 1 1 0.2 (sample 3) false 7200 zeros3 10 [] (0 + 1 + 2) 2
            (sample 0, sample 1, sample 3) None).
  assert (get_acceleration
            (mkParticle 1 1 0.2 (sample 3) false 7200 zeros3 10 [] (0 + 1 + 2) 2
               (sample 0, sample 1, sample 3) None) = mkVect3 (1 / 4) 0 0) as Ha.
  { rewrite get_acceleration_eq. cbn [recent_positions time_step].
    assert (allclose (sample 0) (sample 1) = false) as ->.
    { unfold allclose, sample; cbn [vx vy vz].
      rewrite (isclose_false 0 1); [reflexivity |].
      unfold atol, rtol, Rabs. repeat destruct (Rcase_abs _); lra. }
    assert (allclose (sample 1) (sample 3) = false) as ->.
    { unfold allclose, sample; cbn [vx vy vz].
      rewrite (isclose_false 1 3); [reflexivity |].
      unfold atol, rtol, Rabs. repeat destruct (Rcase_abs _); lra. }
    apply Vect3_eq; simpl; lra. }
  split; [now rewrite ChargedParticle_init_eq |].
  split; [rewrite update_no_updaters, increment_clock_untracked by (reflexivity || lra);
          reflexivity |].
  split; [rewrite update_no_updaters, increment_clock_untracked by (reflexivity || lra);
          reflexivity |].
  split; [unfold get_internal_time; simpl; lra |].
  split; [unfold get_internal_time; simpl; lra |].
  split; [reflexivity |].
  split; [exact Ha |].
  rewrite Ha. intros [= H]. lra.
Qed.

(** The claim's consequence for constant velocity also fails with equal
    frames, through rounding: the binary64 positions 0.1, 0.4, 0.7 (a uniform
    motion sampled with time step 1/30) pass both [np.isclose] tests, and
    the estimator returns about -1e-13, not 0. *)
#[warnings="-inexact-float"]
Lemma constant_velocity_rounding_residue_f64 :
  isclose_f64 0.1 0.4 = false /\
  isclose_f64 0.4 0.7 = false /\
  get_acceleration_f64 0.1 0.4 0.7 (1 / 30) = (-9.9920072216264089e-14)%float /\
  PrimFloat.eqb (get_acceleration_f64 0.1 0.4 0.7 (1 / 30)) 0 = false.
Proof. repeat split; vm_compute; reflexivity. Qed.

(** ** Geometry of the force model *)

Lemma sum_squares_nonneg x y z : 0 <= x * x + y * y + z * z.
Proof. nra. Qed.

Lemma norm_nonneg v : 0 <= norm v.
Proof. apply sqrt_pos. Qed.

Lemma norm_sqr v : norm v * norm v = vx v * vx v + vy v * vy v + vz v * vz v.
Proof. unfold norm. apply sqrt_sqrt, sum_squares_nonneg. Qed.

Lemma norm_smul k v : norm (smul k v) = Rabs k * norm v.
Proof.
  unfold norm, smul; simpl.
  replace (k * vx v * (k * vx v) + k * vy v * (k * vy v) + k * vz v * (k * vz v))
    with (Rsqr k * (vx v * vx v + vy v * vy v + vz v * vz v))
    by (unfold Rsqr; ring).
  rewrite sqrt_mult by (apply Rle_0_sqr || apply sum_squares_nonneg).
  now rewrite sqrt_Rsqr_abs.
Qed.

Lemma sdiv_smul v k : sdiv v k = smul (/ k) v.
Proof. apply Vect3_eq; simpl; unfold Rdiv; ring. Qed.

Lemma norm_sdiv v k : norm (sdiv v k) = norm v / Rabs k.
Proof.
  rewrite sdiv_smul, norm_smul.
  destruct (Req_dec_T k 0) as [-> | Hk].
  - rewrite Rinv_0, Rabs_R0. unfold Rdiv. rewrite Rinv_0. ring.
  - rewrite Rabs_inv. unfold Rdiv. ring.
Qed.

Lemma norm_zeros3 : norm zeros3 = 0.
Proof.
  unfold norm, zeros3; simpl.
  replace (0 * 0 + 0 * 0 + 0 * 0) with 0 by ring. apply sqrt_0.
Qed.

Lemma norm_x_axis x : 0 <= x -> norm (mkVect3 x 0 0) = x.
Proof.
  intros H. unfold norm; simpl.
  replace (x * x + 0 * 0 + 0 * 0) with (x * x) by ring. now apply sqrt_square.
Qed.

Lemma norm_unit_diff pt ctr :
  0 < norm (vsub pt ctr) ->
  unit_diff pt ctr = sdiv (vsub pt ctr) (norm (vsub pt ctr)) /\
  norm (unit_diff pt ctr) = 1.
Proof.
  intros H. unfold unit_diff. rewrite Rltb_true by assumption.
  split; [reflexivity |].
  rewrite norm_sdiv, Rabs_pos_eq by lra. field. lra.
Qed.

Lemma unit_diff_coincide pt ctr :
  norm (vsub pt ctr) = 0 -> unit_diff pt ctr = zeros3.
Proof. intros H. unfold unit_diff. rewrite Rltb_false by lra. reflexivity. Qed.

Lemma unit_dot_unit u : norm u = 1 -> vsum (vmul u u) = 1.
Proof.
  intros H. unfold vsum, vmul; simpl. rewrite <- norm_sqr, H. ring.
Qed.

(** The three assignments of the source compute the piecewise distance of
    the specification. *)
Lemma adjust_norm_piecewise r d :
  0 <= d -> adjust_norm r d = adjusted_distance r d.
Proof.
  intros H0. unfold adjust_norm, adjusted_distance, Reqb, Rltb.
  destruct (Req_dec_T d 0) as [-> | Hd].
  - reflexivity.
  - destruct (Rlt_dec 0 d) as [Hpos | Hneg]; [| lra].
    destruct (Rlt_dec d r); reflexivity.
Qed.

Lemma zipWith_length {A B C : Type} (f : A -> B -> C) l m :
  length l = length m -> length (zipWith f l m) = length l.
Proof.
  revert m. induction l as [| a l IH]; intros [| b m]; simpl; intros H;
    try discriminate; [reflexivity |]. f_equal. apply IH. now injection H.
Qed.

Lemma zipWith_nth {A B C : Type} (f : A -> B -> C) l m i da db dc :
  length l = length m -> (i < length l)%nat ->
  nth i (zipWith f l m) dc = f (nth i l da) (nth i m db).
Proof.
  revert m i. induction l as [| a l IH]; intros [| b m] [| i]; simpl;
    intros H Hi; try discriminate; try lia; [reflexivity |].
  apply IH; [now injection H | lia].
Qed.

Lemma points_to_particle_info_pointwise particle points radius c centers :
  source_positions particle points c = Ok centers ->
  length centers = length points ->
  points_to_particle_info particle points radius c =
  Ok (zipWith unit_diff points centers,
      zipWith (fun pt ctr => norm (vsub pt ctr)) points centers,
      zipWith (fun pt ctr =>
                 adjust_norm (radius_or_default particle radius)
                   (norm (vsub pt ctr))) points centers).
Proof.
  unfold source_positions, points_to_particle_info. intros -> HL. cbn [bind].
  fold (radius_or_default particle radius).
  generalize (radius_or_default particle radius). intros r.
  do 2 f_equal; [f_equal |].
  - revert centers HL. induction points as [| pt points IH];
      intros [| ctr centers] HL; simpl in *; try discriminate; [reflexivity |].
    f_equal. apply IH. now injection HL.
  - revert centers HL. induction points as [| pt points IH];
      intros [| ctr centers] HL; simpl in *; try discriminate; [reflexivity |].
    f_equal. apply IH. now injection HL.
  - revert centers HL. induction points as [| pt points IH];
      intros [| ctr centers] HL; simpl in *; try discriminate; [reflexivity |].
    f_equal. apply IH. now injection HL.
Qed.

Lemma coulomb_force_pointwise particle points radius centers :
  source_positions particle points 2 = Ok centers ->
  length centers = length points ->
  coulomb_force points particle radius =
  Ok (zipWith (coulomb_at (get_charge particle)
                 (radius_or_default particle radius)) points centers).
Proof.
  intros Hc HL. unfold coulomb_force.
  rewrite (points_to_particle_info_pointwise _ _ radius _ _ Hc HL). cbn [bind].
  f_equal. generalize (radius_or_default particle radius). intros r.
  clear Hc. revert centers HL. induction points as [| pt points IH];
    intros [| ctr centers] HL; simpl in *; try discriminate; [reflexivity |].
  f_equal. apply IH. now injection HL.
Qed.

Lemma source_positions_ok particle points c :
  history_ok particle ->
  exists centers, source_positions particle points c = Ok centers /\
                  length centers = length points.
Proof.
  intros Hok. unfold source_positions.
  destruct (track_position_history particle) eqn:Ht.
  - destruct (tracked_queries_succeed particle
                (map (fun pt => norm (vsub pt (get_center particle)) / c) points)
                Hok Ht) as [(rows & E & HL) _].
    exists rows. split; [exact E |]. now rewrite HL, length_map.
  - eexists. split; [reflexivity |]. apply length_map.
Qed.

Lemma coulomb_at_outside q r pt ctr :
  0 < r -> r <= norm (vsub pt ctr) ->
  adjusted_distance r (norm (vsub pt ctr)) = Fin (norm (vsub pt ctr)) /\
  coulomb_at q r pt ctr =
    sdiv (smul q (unit_diff pt ctr)) (norm (vsub pt ctr) ^ 2).
Proof.
  intros Hr Hd. unfold coulomb_at.
  rewrite adjust_norm_piecewise by apply norm_nonneg.
  unfold adjusted_distance.
  destruct (Req_dec_T (norm (vsub pt ctr)) 0) as [E | _]; [lra |].
  destruct (Rlt_dec (norm (vsub pt ctr)) r) as [E | _]; [lra |].
  split; reflexivity.
Qed.

Lemma coulomb_at_coincide q r pt ctr :
  norm (vsub pt ctr) = 0 ->
  adjusted_distance r (norm (vsub pt ctr)) = PInf /\
  coulomb_at q r pt ctr = zeros3.
Proof.
  intros Hd. unfold coulomb_at.
  rewrite adjust_norm_piecewise by apply norm_nonneg.
  unfold adjusted_distance.
  destruct (Req_dec_T (norm (vsub pt ctr)) 0) as [_ | E]; [| contradiction].
  split; reflexivity.
Qed.

Lemma coulomb_at_inside q r pt ctr :
  let d := norm (vsub pt ctr) in
  0 < d < r ->
  adjusted_distance r d = Fin (r * r / d) /\
  coulomb_at q r pt ctr = sdiv (smul q (unit_diff pt ctr)) ((r * r / d) ^ 2) /\
  norm (coulomb_at q r pt ctr) = Rabs q * d ^ 2 / r ^ 4 /\
  norm (coulomb_at q r pt ctr) <= Rabs q / r ^ 2 /\
  (q <> 0 -> norm (coulomb_at q r pt ctr) < Rabs q / d ^ 2).
Proof.
  intros d [Hd Hr]. unfold coulomb_at. fold d.
  rewrite adjust_norm_piecewise by apply norm_nonneg.
  unfold adjusted_distance.
  destruct (Req_dec_T d 0) as [E | _]; [lra |].
  destruct (Rlt_dec d r) as [_ | E]; [| lra].
  cbn [xsqr xdiv].
  assert (norm (sdiv (smul q (unit_diff pt ctr)) ((r * r / d) ^ 2)) =
          Rabs q * d ^ 2 / r ^ 4) as Hn.
  { rewrite norm_sdiv, norm_smul.
    destruct (norm_unit_diff pt ctr Hd) as [_ ->].
    rewrite (Rabs_pos_eq ((r * r / d) ^ 2)) by apply pow2_ge_0.
    field. split; lra. }
  assert (0 <= Rabs q) as Hq by apply Rabs_pos.
  assert (d ^ 2 < r ^ 2) as H2 by nra.
  assert (0 < d ^ 2) as Hd2 by nra.
  assert (0 < r ^ 4) as Hr4 by (apply pow_lt; lra).
  split; [reflexivity |]. split; [reflexivity |]. split; [exact Hn |].
  rewrite Hn. split.
  - replace (Rabs q / r ^ 2) with (Rabs q * r ^ 2 / r ^ 4) by (field; lra).
    unfold Rdiv. apply Rmult_le_compat_r.
    + left. now apply Rinv_0_lt_compat.
    + nra.
  - intros Hq0. assert (0 < Rabs q) as Hqpos by now apply Rabs_pos_lt.
    apply (Rmult_lt_reg_r (d ^ 2 * r ^ 4)); [nra |].
    replace (Rabs q * d ^ 2 / r ^ 4 * (d ^ 2 * r ^ 4))
      with (Rabs q * (d ^ 2 * d ^ 2)) by (field; lra).
    replace (Rabs q / d ^ 2 * (d ^ 2 * r ^ 4))
      with (Rabs q * (r ^ 2 * r ^ 2)) by (field; lra).
    apply Rmult_lt_compat_l; [assumption |]. nra.
Qed.

(** C1 (amended).  For every state [p] of a constructed particle, every
    batch of points and every suppression radius [r > 0] (the argument, or
    the particle's own radius), [coulomb_force] returns one force per point:
    with [ctr] the source position used for the point (the retarded position
    for a tracking particle, the centre otherwise), [d] the distance from
    [ctr] to the point and [u] the unit vector, the force is q u / a^2, where
    a = d when d >= r, a = r^2 / d when 0 < d < r and a is infinite when
    d = 0.  For 0 < d < r the magnitude is |q| d^2 / r^4, at most |q| / r^2
    whatever d is, and strictly below |q| / d^2 when q <> 0; at d = 0 the
    force is the zero vector. *)
Theorem coulomb_force_suppressed
    point q m rad track hs n (p0 p : ChargedParticle)
    (points : list Vect3) (radius : option R) :
  ChargedParticle_init point q m rad track hs n = Ok p0 ->
  reachable_from p0 p ->
  0 < radius_or_default p radius ->
  let r := radius_or_default p radius in
  exists centers forces,
    source_positions p points 2 = Ok centers /\
    coulomb_force points p radius = Ok forces /\
    length centers = length points /\
    length forces = length points /\
    forall i, (i < length points)%nat ->
      let pt := nth i points zeros3 in
      let ctr := nth i centers zeros3 in
      let F := nth i forces zeros3 in
      let d := norm (vsub pt ctr) in
      let u := unit_diff pt ctr in
      F = xdiv (smul (get_charge p) u) (xsqr (adjusted_distance r d)) /\
      (0 < d -> u = sdiv (vsub pt ctr) d /\ norm u = 1) /\
      (r <= d -> adjusted_distance r d = Fin d) /\
      (0 < d < r ->
         adjusted_distance r d = Fin (r * r / d) /\
         norm F = Rabs (get_charge p) * d ^ 2 / r ^ 4 /\
         norm F <= Rabs (get_charge p) / r ^ 2 /\
         (get_charge p <> 0 -> norm F < Rabs (get_charge p) / d ^ 2)) /\
      (d = 0 -> adjusted_distance r d = PInf /\ F = zeros3).
Proof.
  intros Hinit Hreach Hr r.
  pose proof (ChargedParticle_init_history_ok _ _ _ _ _ _ _ _ Hinit) as Hok0.
  destruct (reachable_history_ok _ _ Hok0 Hreach) as [Hok _].
  destruct (source_positions_ok p points 2 Hok) as (centers & Hc & HL).
  exists centers, (zipWith (coulomb_at (get_charge p) r) points centers).
  split; [exact Hc |].
  split; [apply coulomb_force_pointwise; assumption |].
  split; [exact HL |].
  split; [apply zipWith_length; now symmetry |].
  intros i Hi pt ctr F d u.
  assert (F = coulomb_at (get_charge p) r pt ctr) as HF.
  { unfold F. apply zipWith_nth; [now symmetry | assumption]. }
  rewrite HF. clear HF F.
  split; [| split; [| split; [| split]]].
  - unfold coulomb_at. now rewrite adjust_norm_piecewise by apply norm_nonneg.
  - apply norm_unit_diff.
  - intros Hd. apply (coulomb_at_outside (get_charge p) r pt ctr Hr Hd).
  - intros Hd.
    destruct (coulomb_at_inside (get_charge p) r pt ctr Hd)
      as (Ha & _ & Hn & Hb & Hs).
    repeat split; assumption.
  - intros Hd. apply (coulomb_at_coincide (get_charge p) r pt ctr Hd).
Qed.

Lemma coulomb_force_suppressed_witness :
  exists p centers forces,
    ChargedParticle_init zeros3 1 1 0.2 false 7200 10 = Ok p /\
    source_positions p [mkVect3 0.1 0 0] 2 = Ok centers /\
    coulomb_force [mkVect3 0.1 0 0] p None = Ok forces /\
    length forces = 1%nat.
Proof.
  destruct (ChargedParticle_init_succeeds zeros3 1 1 0.2 false 7200 10)
    as (p & Hinit & Hrad); [now left |].
  assert (0 < radius_or_default p None) as Hr
    by (unfold radius_or_default; rewrite Hrad; lra).
  destruct (coulomb_force_suppressed zeros3 1 1 0.2 false 7200 10 p p
              [mkVect3 0.1 0 0] None Hinit (reach_fresh p) Hr)
    as (centers & forces & Hc & Hf & _ & HL & _).
  exists p, centers, forces. repeat split; assumption.
Defined.

(** C1, refuted as stated: for a source of charge 0 the suppressed force at a
    point inside the radius has magnitude 0, which is not strictly less than
    the unsuppressed value |0| / d^2 = 0. *)
Lemma coulomb_force_zero_charge_not_strict :
  exists p,
    ChargedParticle_init zeros3 0 1 1 false 7200 10 = Ok p /\
    coulomb_force [mkVect3 (1 / 2) 0 0] p None = Ok [zeros3] /\
    let d := norm (vsub (mkVect3 (1 / 2) 0 0) (get_center p)) in
    0 < d < get_radius p /\
    ~ norm zeros3 < Rabs (get_charge p) / d ^ 2.
Proof.
  eexists. rewrite ChargedParticle_init_eq. cbn [andb].
  split; [reflexivity |].
  assert (vsub (mkVect3 (1 / 2) 0 0) zeros3 = mkVect3 (1 / 2) 0 0) as Hv
    by (apply Vect3_eq; simpl; lra).
  assert (norm (mkVect3 (1 / 2) 0 0) = 1 / 2) as Hn by (apply norm_x_axis; lra).
  split.
  - rewrite (coulomb_force_pointwise _ _ None [zeros3]) by reflexivity.
    cbn [zipWith get_charge charge]. do 2 f_equal.
    unfold coulomb_at. rewrite Hv, Hn.
    rewrite adjust_norm_piecewise by lra. unfold adjusted_distance.
    destruct (Req_dec_T (1 / 2) 0) as [E | _]; [lra |].
    destruct (Rlt_dec _ _); apply Vect3_eq; simpl; unfold Rdiv; ring.
  - cbn [get_center center get_radius sphere_radius get_charge charge].
    rewrite Hv, Hn, norm_zeros3, Rabs_R0. split; [lra |].
    unfold Rdiv. rewrite Rmult_0_l. lra.
Qed.

Lemma map_zipWith {A B C D : Type} (g : C -> D) (f : A -> B -> C) l m :
  map g (zipWith f l m) = zipWith (fun a b => g (f a b)) l m.
Proof.
  revert m. induction l as [| a l IH]; intros [| b m]; simpl; try reflexivity.
  now rewrite IH.
Qed.

Lemma lorentz_force_pointwise particle points radius c epsilon0 centers accs :
  source_positions particle points c = Ok centers ->
  length centers = length points ->
  get_past_acceleration particle
    (zipWith (fun pt ctr => norm (vsub pt ctr) / c) points centers) = Ok accs ->
  length accs = length points ->
  lorentz_force points particle radius c epsilon0 =
  Ok (zipWith (fun pc acc =>
                 lorentz_at (get_charge particle)
                   (radius_or_default particle radius) c epsilon0
                   (fst pc) (snd pc) acc)
        (combine points centers) accs).
Proof.
  intros Hc HL Ha HLa. unfold lorentz_force.
  rewrite (points_to_particle_info_pointwise _ _ radius _ _ Hc HL). cbn [bind].
  rewrite map_zipWith, Ha. cbn [bind]. f_equal.
  generalize (radius_or_default particle radius). intros r.
  clear Hc Ha. revert centers accs HL HLa.
  induction points as [| pt points IH];
    intros [| ctr centers] [| acc accs] HL HLa; simpl in *; try discriminate;
    [reflexivity |].
  f_equal. apply IH; [now injection HL | now injection HLa].
Qed.

Lemma perpendicular_part_orthogonal u acc :
  norm u = 1 -> vsum (vmul u (perpendicular_part u acc)) = 0.
Proof.
  intros H. pose proof (unit_dot_unit u H) as Hu.
  unfold perpendicular_part, vsum, vmul, vsub, smul in *; simpl in *.
  replace (vx u * (vx acc - (vx u * vx acc + vy u * vy acc + vz u * vz acc) * vx u) +
           vy u * (vy acc - (vx u * vx acc + vy u * vy acc + vz u * vz acc) * vy u) +
           vz u * (vz acc - (vx u * vx acc + vy u * vy acc + vz u * vz acc) * vz u))
    with ((vx u * vx acc + vy u * vy acc + vz u * vz acc) *
          (1 - (vx u * vx u + vy u * vy u + vz u * vz u))) by ring.
  rewrite Hu. ring.
Qed.

(** C2 (amended).  For every state [p] of a particle constructed with
    history tracking, every batch of points and non-zero [c] and [epsilon0],
    [lorentz_force] returns one force per point.  With [ctr] the retarded source position of the point,
    [d] the true distance from [ctr] to the point, [u] the unit vector and
    [a] the adjusted distance: the acceleration [acc] is read from the
    history at the delay [d / c] (the true distance, not the adjusted one,
    over c); its part along [u] is discarded; and the force is
    -q * acc_perp / (4 pi epsilon0 c^2 a), linear in 1 / a. *)
Theorem lorentz_force_perpendicular_acceleration
    point q m rad hs n (p0 p : ChargedParticle)
    (points : list Vect3) (radius : option R) (c epsilon0 : R) :
  ChargedParticle_init point q m rad true hs n = Ok p0 ->
  reachable_from p0 p ->
  c <> 0 -> epsilon0 <> 0 ->
  let r := radius_or_default p radius in
  exists centers accs forces,
    source_positions p points c = Ok centers /\
    get_past_acceleration p
      (zipWith (fun pt ctr => norm (vsub pt ctr) / c) points centers) = Ok accs /\
    lorentz_force points p radius c epsilon0 = Ok forces /\
    length centers = length points /\
    length accs = length points /\
    length forces = length points /\
    forall i, (i < length points)%nat ->
      let pt := nth i points zeros3 in
      let ctr := nth i centers zeros3 in
      let acc := nth i accs zeros3 in
      let F := nth i forces zeros3 in
      let d := norm (vsub pt ctr) in
      let u := unit_diff pt ctr in
      let acc_perp := perpendicular_part u acc in
      F = xdiv (smul (- get_charge p) acc_perp)
            (xscale (4 * PI * epsilon0 * c ^ 2) (adjusted_distance r d)) /\
      (0 < d -> vsum (vmul u acc_perp) = 0) /\
      (forall a, adjusted_distance r d = Fin a ->
                 F = sdiv (smul (- get_charge p) acc_perp)
                       (4 * PI * epsilon0 * c ^ 2 * a)).
Proof.
  intros Hinit Hreach _ _ r.
  pose proof (ChargedParticle_init_history_ok _ _ _ _ _ _ _ _ Hinit) as Hok0.
  destruct (reachable_history_ok _ _ Hok0 Hreach) as [Hok Htr].
  destruct (ChargedParticle_init_fields _ _ _ _ _ _ _ _ Hinit)
    as (_ & _ & _ & _ & _ & Ht0 & _).
  rewrite Ht0 in Htr.
  destruct (source_positions_ok p points c Hok) as (centers & Hc & HL).
  destruct (tracked_queries_succeed p
              (zipWith (fun pt ctr => norm (vsub pt ctr) / c) points centers)
              Hok Htr) as [_ (accs & Ha & HLa)].
  rewrite zipWith_length in HLa by now symmetry.
  exists centers, accs.
  eexists. split; [exact Hc |]. split; [exact Ha |].
  split; [apply (lorentz_force_pointwise p points radius c epsilon0 centers accs);
          assumption |].
  assert (length (combine points centers) = length points) as HLc
    by (rewrite length_combine; lia).
  split; [exact HL |]. split; [exact HLa |].
  split; [rewrite zipWith_length; [exact HLc | now rewrite HLc] |].
  intros i Hi pt ctr acc F d u acc_perp.
  assert (F = lorentz_at (get_charge p) r c epsilon0 pt ctr acc) as HF.
  { unfold F.
    rewrite (zipWith_nth _ _ _ i (zeros3, zeros3) zeros3 zeros3);
      [| rewrite HLc; now symmetry | rewrite HLc; assumption].
    rewrite combine_nth by now symmetry. reflexivity. }
  assert (F = xdiv (smul (- get_charge p) acc_perp)
                (xscale (4 * PI * epsilon0 * c ^ 2) (adjusted_distance r d))) as HF'.
  { rewrite HF. unfold lorentz_at.
    now rewrite adjust_norm_piecewise by apply norm_nonneg. }
  split; [exact HF' |]. split.
  - intros Hd. apply perpendicular_part_orthogonal.
    apply (norm_unit_diff pt ctr Hd).
  - intros a Ea. rewrite HF', Ea. reflexivity.
Qed.

(** ** A concrete run: one kick, then rest *)

Lemma get_acceleration_estimate s :
  get_acceleration s = acceleration_estimate (recent_positions s) (time_step s).
Proof. reflexivity. Qed.

Lemma frame_step dt c q m rad ctr hs v n t ts p0 p1 p2 ph ah hi :
  dt <> 0 ->
  (0 <= hi + 1 < hs)%Z ->
  (hi + 1 < Z.of_nat (length ph))%Z ->
  (hi + 1 < Z.of_nat (length ah))%Z ->
  update dt (move_to c (mkParticle q m rad ctr true hs v n [] t ts (p0, p1, p2)
                          (Some (mkHistory ph ah hi)))) =
  Ok (mkParticle q m rad c true hs v n [] (t + dt) dt (p1, p2, c)
        (Some (mkHistory
                 (list_set (Z.to_nat (hi + 1)) c ph)
                 (list_set (Z.to_nat (hi + 1))
                    (acceleration_estimate (p1, p2, c) dt) ah)
                 (hi + 1)%Z))).
Proof.
  intros Hdt Hhs Hp Ha.
  rewrite update_no_updaters by reflexivity.
  rewrite increment_clock_tracking by (assumption || reflexivity).
  unfold add_to_position_history.
  cbn [history set_recent_positions set_clock move_to set_center history_size
       history_index position_history acceleration_history].
  destruct (Z.leb_spec hs (hi + 1)) as [Hc | _]; [lia |].
  cbn [bind].
  rewrite setitem_nonneg by lia. cbn [bind].
  rewrite setitem_nonneg by lia. cbn [bind].
  reflexivity.
Qed.

Lemma acceleration_estimate_rest_first p q h :
  acceleration_estimate (p, p, q) h = zeros3.
Proof. unfold acceleration_estimate. now rewrite allclose_refl. Qed.

Lemma acceleration_estimate_rest_last p q h :
  acceleration_estimate (p, q, q) h = zeros3.
Proof.
  unfold acceleration_estimate. now rewrite (allclose_refl q), orb_true_r.
Qed.

Lemma acceleration_estimate_kick :
  acceleration_estimate (zeros3, mkVect3 0 1 0, mkVect3 0 3 0) 1 = mkVect3 0 1 0.
Proof.
  unfold acceleration_estimate.
  rewrite (allclose_false_y zeros3 (mkVect3 0 1 0)).
  - rewrite (allclose_false_y (mkVect3 0 1 0) (mkVect3 0 3 0)).
    + apply Vect3_eq; simpl; lra.
    + apply isclose_false. simpl. unfold atol, rtol, Rabs.
      repeat destruct (Rcase_abs _); lra.
  - apply isclose_false. simpl. unfold atol, rtol, Rabs.
    repeat destruct (Rcase_abs _); lra.
Qed.

Lemma kicked_particle_state :
  run_frames 1 [mkVect3 0 1 0; mkVect3 0 3 0; mkVect3 0 3 0; mkVect3 0 3 0;
                mkVect3 0 3 0; mkVect3 0 3 0]
    (mkParticle 1 1 0.2 zeros3 true 8 zeros3 10 [] 0 (1 / 30)
       (zeros3, zeros3, zeros3)
       (Some (mkHistory (repeat zeros3 (Z.to_nat 8))
                (repeat zeros3 (Z.to_nat 8)) (-1)))) =
  Ok (mkParticle 1 1 0.2 (mkVect3 0 3 0) true 8 zeros3 10 []
        (0 + 1 + 1 + 1 + 1 + 1 + 1) 1
        (mkVect3 0 3 0, mkVect3 0 3 0, mkVect3 0 3 0)
        (Some (mkHistory
                 [mkVect3 0 1 0; mkVect3 0 3 0; mkVect3 0 3 0; mkVect3 0 3 0;
                  mkVect3 0 3 0; mkVect3 0 3 0; zeros3; zeros3]
                 [zeros3; mkVect3 0 1 0; zeros3; zeros3; zeros3; zeros3;
                  zeros3; zeros3]
                 5))).
Proof.
  cbn [run_frames].
  rewrite frame_step by (try apply R1_neq_R0; simpl; lia).
  rewrite acceleration_estimate_rest_first. cbn [bind].
  rewrite frame_step by (try apply R1_neq_R0; simpl; lia).
  rewrite acceleration_estimate_kick. cbn [bind].
  rewrite frame_step by (try apply R1_neq_R0; simpl; lia).
  rewrite acceleration_estimate_rest_last. cbn [bind].
  rewrite frame_step by (try apply R1_neq_R0; simpl; lia).
  rewrite acceleration_estimate_rest_last. cbn [bind].
  rewrite frame_step by (try apply R1_neq_R0; simpl; lia).
  rewrite acceleration_estimate_rest_last. cbn [bind].
  rewrite frame_step by (try apply R1_neq_R0; simpl; lia).
  rewrite acceleration_estimate_rest_last. cbn [bind].
  reflexivity.
Qed.

(** C2, refuted as stated.  A particle sits at the origin, is moved to
    (0, 1, 0) and (0, 3, 0) in two frames of size 1 (the only frame with a
    non-zero estimated acceleration, (0, 1, 0)), and rests for four more
    frames.  For the point (1, 3, 0), radius 2 and c = 1 the true distance to
    the retarded position is 1 and the adjusted distance is 4.  The code reads
    the acceleration at delay 1 / c (zero) and returns the zero force; at the
    delay 4 / c of the adjusted distance the history holds (0, 1, 0), for
    which the same formula gives a non-zero force. *)
Lemma lorentz_force_delay_uses_true_distance :
  exists p0 p,
    ChargedParticle_init zeros3 1 1 0.2 true 8 10 = Ok p0 /\
    run_frames 1 [mkVect3 0 1 0; mkVect3 0 3 0; mkVect3 0 3 0; mkVect3 0 3 0;
                  mkVect3 0 3 0; mkVect3 0 3 0] p0 = Ok p /\
    source_positions p [mkVect3 1 3 0] 1 = Ok [mkVect3 0 3 0] /\
    norm (vsub (mkVect3 1 3 0) (mkVect3 0 3 0)) = 1 /\
    adjusted_distance 2 (norm (vsub (mkVect3 1 3 0) (mkVect3 0 3 0))) = Fin (2 * 2 / 1) /\
    get_past_acceleration p [1 / 1] = Ok [zeros3] /\
    get_past_acceleration p [2 * 2 / 1 / 1] = Ok [mkVect3 0 1 0] /\
    lorentz_force [mkVect3 1 3 0] p (Some 2) 1 0.025 = Ok [zeros3] /\
    lorentz_at (get_charge p) 2 1 0.025 (mkVect3 1 3 0) (mkVect3 0 3 0)
      (mkVect3 0 1 0) <> zeros3.
Proof.
  eexists. eexists. rewrite ChargedParticle_init_eq. cbn [andb Z.ltb Z.compare].
  split; [reflexivity |].
  rewrite kicked_particle_state.
  split; [reflexivity |].
  set (p := mkParticle _ _ _ _ _ _ _ _ _ _ _ _ _).
  assert (vsub (mkVect3 1 3 0) (mkVect3 0 3 0) = mkVect3 1 0 0) as Hv
    by (apply Vect3_eq; simpl; lra).
  assert (norm (vsub (mkVect3 1 3 0) (mkVect3 0 3 0)) = 1) as Hn
    by (rewrite Hv; apply norm_x_axis; lra).
  assert (forall d k,
             d / 1 = IZR k -> (0 <= k <= 5)%Z ->
             get_past_position p [d] =
               Ok [nth (Z.to_nat (5 - k)) (mkVect3 0 1 0 :: repeat (mkVect3 0 3 0) 5
                                            ++ [zeros3; zeros3]) zeros3] /\
             get_past_acceleration p [d] =
               Ok [nth (Z.to_nat (5 - k)) [zeros3; mkVect3 0 1 0; zeros3; zeros3]
                     zeros3]) as Hq.
  { intros d k Hd Hk. unfold get_past_position, get_past_acceleration.
    cbn [p history position_history acceleration_history].
    rewrite !(get_info_from_delays_eq p _ _ _ eq_refl) by (simpl; left; lia).
    cbn [p history_index time_step length map Nat.eqb Z.ltb Z.compare].
    rewrite (delay_index_quotient 5 1 d k Hd Hk).
    assert (5 - k = 0 \/ 5 - k = 1 \/ 5 - k = 2 \/ 5 - k = 3 \/ 5 - k = 4 \/
            5 - k = 5)%Z as Hcases by lia.
    destruct Hcases as [-> | [-> | [-> | [-> | [-> | ->]]]]]; split; reflexivity. }
  assert (adjusted_distance 2 1 = Fin (2 * 2 / 1)) as Hadj.
  { unfold adjusted_distance.
    destruct (Req_dec_T 1 0) as [E | _]; [lra |].
    destruct (Rlt_dec 1 2) as [_ | E]; [reflexivity | lra]. }
  assert (source_positions p [mkVect3 1 3 0] 1 = Ok [mkVect3 0 3 0]) as Hsrc.
  { unfold source_positions. cbn [p track_position_history get_center center map].
    rewrite Hn. destruct (Hq (1 / 1) 1%Z) as [-> _]; [lra | lia | reflexivity]. }
  split; [exact Hsrc |]. split; [exact Hn |].
  split; [rewrite Hn; exact Hadj |].
  split; [destruct (Hq (1 / 1) 1%Z) as [_ ->]; [lra | lia | reflexivity] |].
  split; [destruct (Hq (2 * 2 / 1 / 1) 4%Z) as [_ ->]; [lra | lia | reflexivity] |].
  split.
  - rewrite (lorentz_force_pointwise p [mkVect3 1 3 0] (Some 2) 1 0.025
               [mkVect3 0 3 0] [zeros3] Hsrc eq_refl); [| | reflexivity].
    + cbn [combine zipWith fst snd]. do 2 f_equal.
      unfold lorentz_at. rewrite Hn, adjust_norm_piecewise by lra.
      cbn [radius_or_default]. rewrite Hadj.
      unfold unit_diff. rewrite Hn, Hv, Rltb_true by lra.
      cbn [xscale xdiv].
      apply Vect3_eq;
        unfold perpendicular_part, sdiv, smul, vsub, vsum, vmul, zeros3;
        cbn [vx vy vz]; unfold Rdiv; ring.
    + cbn [zipWith]. rewrite Hn.
      destruct (Hq (1 / 1) 1%Z) as [_ ->]; [lra | lia | reflexivity].
  - unfold lorentz_at. rewrite Hn, adjust_norm_piecewise by lra. rewrite Hadj.
    unfold unit_diff. rewrite Hn, Hv, Rltb_true by lra.
    cbn [xscale xdiv get_charge charge p].
    intros H. apply (f_equal vy) in H. revert H.
    unfold perpendicular_part, sdiv, smul, vsub, vsum, vmul, zeros3.
    cbn [vx vy vz].
    assert (0 < / (4 * PI * 0.025 * 1 ^ 2 * (2 * 2 / 1))) as Hpos.
    { apply Rinv_0_lt_compat. pose proof PI_RGT_0. nra. }
    replace (- (1) * (1 - (1 / 1 * 0 + 0 / 1 * 1 + 0 / 1 * 0) * (0 / 1)))
      with (-1) by (unfold Rdiv; ring).
    unfold Rdiv at 1. intros H. lra.
Qed.

(** The same kicked particle, seen from the point (4, 3, 0) with radius 2
    and c = 1: the retarded source position is (0, 3, 0), at the true
    distance 4, outside the radius; the delay 4 / c reads the acceleration
    (0, 1, 0) of the kick, which is perpendicular to the line of sight, and
    the force is -1 * (0, 1, 0) / (4 pi * 0.025 * 1^2 * 4), not zero. *)
Lemma lorentz_force_perpendicular_acceleration_witness :
  exists p0 p,
    ChargedParticle_init zeros3 1 1 0.2 true 8 10 = Ok p0 /\
    run_frames 1 [mkVect3 0 1 0; mkVect3 0 3 0; mkVect3 0 3 0; mkVect3 0 3 0;
                  mkVect3 0 3 0; mkVect3 0 3 0] p0 = Ok p /\
    source_positions p [mkVect3 4 3 0] 1 = Ok [mkVect3 0 3 0] /\
    get_past_acceleration p [4 / 1] = Ok [mkVect3 0 1 0] /\
    lorentz_force [mkVect3 4 3 0] p (Some 2) 1 0.025 =
      Ok [sdiv (smul (- 1) (mkVect3 0 1 0)) (4 * PI * 0.025 * 1 ^ 2 * 4)] /\
    vy (sdiv (smul (- 1) (mkVect3 0 1 0)) (4 * PI * 0.025 * 1 ^ 2 * 4)) < 0.
Proof.
  assert (ChargedParticle_init zeros3 1 1 0.2 true 8 10 =
          Ok (mkParticle 1 1 0.2 zeros3 true 8 zeros3 10 [] 0 (1 / 30)
                (zeros3, zeros3, zeros3)
                (Some (mkHistory (repeat zeros3 (Z.to_nat 8))
                         (repeat zeros3 (Z.to_nat 8)) (-1)))))
    as Hinit by (rewrite ChargedParticle_init_eq; reflexivity).
  pose proof kicked_particle_state as Hrun.
  set (p0 := mkParticle 1 1 0.2 zeros3 true 8 zeros3 10 [] 0 (1 / 30)
               (zeros3, zeros3, zeros3)
               (Some (mkHistory (repeat zeros3 (Z.to_nat 8))
                        (repeat zeros3 (Z.to_nat 8)) (-1)))) in *.
  set (p := mkParticle 1 1 0.2 (mkVect3 0 3 0) true 8 zeros3 10 []
              (0 + 1 + 1 + 1 + 1 + 1 + 1) 1
              (mkVect3 0 3 0, mkVect3 0 3 0, mkVect3 0 3 0)
              (Some (mkHistory
                       [mkVect3 0 1 0; mkVect3 0 3 0; mkVect3 0 3 0;
                        mkVect3 0 3 0; mkVect3 0 3 0; mkVect3 0 3 0;
                        zeros3; zeros3]
                       [zeros3; mkVect3 0 1 0; zeros3; zeros3; zeros3; zeros3;
                        zeros3; zeros3]
                       5))) in *.
  assert (vsub (mkVect3 4 3 0) (mkVect3 0 3 0) = mkVect3 4 0 0) as Hv
    by (apply Vect3_eq; simpl; lra).
  assert (norm (vsub (mkVect3 4 3 0) (mkVect3 0 3 0)) = 4) as Hn
    by (rewrite Hv; apply norm_x_axis; lra).
  assert (get_past_position p [4 / 1] = Ok [mkVect3 0 3 0] /\
          get_past_acceleration p [4 / 1] = Ok [mkVect3 0 1 0]) as [Hqp Hqa].
  { unfold get_past_position, get_past_acceleration.
    cbn [p history position_history acceleration_history].
    rewrite !(get_info_from_delays_eq p _ _ _ eq_refl) by (simpl; left; lia).
    cbn [p history_index time_step length map Nat.eqb Z.ltb Z.compare].
    rewrite (delay_index_quotient 5 1 (4 / 1) 4) by (lra || lia).
    split; reflexivity. }
  assert (source_positions p [mkVect3 4 3 0] 1 = Ok [mkVect3 0 3 0]) as Hsrc.
  { unfold source_positions. cbn [p track_position_history get_center center map].
    rewrite Hn. exact Hqp. }
  destruct (lorentz_force_perpendicular_acceleration zeros3 1 1 0.2 8 10 p0 p
              [mkVect3 4 3 0] (Some 2) 1 0.025 Hinit
              (run_frames_reachable p0 1 _ p0 p (reach_fresh p0) Hrun))
    as (centers & accs & forces & Hc & Ha & Hf & _ & _ & HLf & Hrows);
    [lra | lra |].
  assert (centers = [mkVect3 0 3 0]) as -> by congruence.
  cbn [zipWith] in Ha. rewrite Hn in Ha.
  assert (accs = [mkVect3 0 1 0]) as -> by congruence.
  destruct forces as [| F [| ? ?]]; try discriminate HLf.
  destruct (Hrows 0%nat ltac:(simpl; lia)) as (_ & _ & HF).
  cbn [nth radius_or_default] in HF. rewrite Hn in HF.
  assert (adjusted_distance 2 4 = Fin 4) as Hadj.
  { unfold adjusted_distance.
    destruct (Req_dec_T 4 0) as [E | _]; [lra |].
    destruct (Rlt_dec 4 2) as [E | _]; [lra | reflexivity]. }
  specialize (HF 4 Hadj).
  assert (perpendicular_part (unit_diff (mkVect3 4 3 0) (mkVect3 0 3 0))
            (mkVect3 0 1 0) = mkVect3 0 1 0) as Hperp.
  { unfold unit_diff. rewrite Hn, Hv, Rltb_true by lra.
    apply Vect3_eq;
      unfold perpendicular_part, sdiv, smul, vsub, vsum, vmul;
      cbn [vx vy vz]; unfold Rdiv; ring. }
  rewrite Hperp in HF. cbn [get_charge charge p] in HF.
  exists p0, p. split; [exact Hinit |]. split; [exact Hrun |].
  split; [exact Hsrc |]. split; [exact Hqa |].
  split; [rewrite Hf, HF; reflexivity |].
  unfold sdiv, smul. cbn [vx vy vz].
  assert (0 < / (4 * PI * 0.025 * 1 ^ 2 * 4)) as Hpos.
  { apply Rinv_0_lt_compat. pose proof PI_RGT_0. nra. }
  unfold Rdiv. nra.
Defined.

(** ** Fields *)

Lemma sadd_zero v : sadd 0 v = v.
Proof. apply Vect3_eq; simpl; lra. Qed.

Lemma map_sadd_zero l : map (sadd 0) l = l.
Proof.
  induction l as [| v l IH]; simpl; [reflexivity |].
  now rewrite sadd_zero, IH.
Qed.

(** Superposition for two sources: when both single-source forces are
    defined on the batch, the field of the pair is the row-by-row sum of the
    fields of each source alone. *)
Lemma CoulombField_superposition A B points fA fB :
  coulomb_force points A None = Ok fA ->
  coulomb_force points B None = Ok fB ->
  length fA = length fB ->
  CoulombField_get_forces [A] points = Ok (NdArray fA) /\
  CoulombField_get_forces [B] points = Ok (NdArray fB) /\
  CoulombField_get_forces [A; B] points = Ok (NdArray (zipWith vadd fA fB)) /\
  py_add (NdArray fA) (NdArray fB) = Ok (NdArray (zipWith vadd fA fB)).
Proof.
  intros HA HB HL. unfold CoulombField_get_forces, py_sum. cbn [py_sum_from].
  rewrite HA, HB. cbn [bind py_add IZR]. rewrite !map_sadd_zero. cbn [bind py_add].
  rewrite HL, Nat.eqb_refl. repeat split; reflexivity.
Qed.

Lemma LorentzField_superposition A B radius c points fA fB :
  lorentz_force points A radius c 0.025 = Ok fA ->
  lorentz_force points B radius c 0.025 = Ok fB ->
  length fA = length fB ->
  LorentzField_get_forces (mkLorentzField [A] radius c) points = Ok (NdArray fA) /\
  LorentzField_get_forces (mkLorentzField [B] radius c) points = Ok (NdArray fB) /\
  LorentzField_get_forces (mkLorentzField [A; B] radius c) points =
    Ok (NdArray (zipWith vadd fA fB)) /\
  py_add (NdArray fA) (NdArray fB) = Ok (NdArray (zipWith vadd fA fB)).
Proof.
  intros HA HB HL. unfold LorentzField_get_forces, py_sum.
  cbn [py_sum_from lf_charges radius_of_suppression lf_c].
  rewrite HA, HB. cbn [bind py_add IZR]. rewrite !map_sadd_zero. cbn [bind py_add].
  rewrite HL, Nat.eqb_refl. repeat split; reflexivity.
Qed.

(** C6, on the code: with no source, both [get_forces] return the integer 0
    that Python's [sum] starts from, for every batch of points; it is not an
    array, in particular not the array of zero vectors shaped like the points
    that the base class returns. *)
Theorem get_forces_without_sources_is_integer_zero
    (points : list Vect3) (radius : option R) (c : R) :
  CoulombField_get_forces [] points = Ok (PyInt 0) /\
  LorentzField_get_forces (mkLorentzField [] radius c) points = Ok (PyInt 0) /\
  CoulombField_get_forces [] points <>
    Ok (NdArray (ChargeBasedVectorField_get_forces [] points)) /\
  LorentzField_get_forces (mkLorentzField [] radius c) points <>
    Ok (NdArray (ChargeBasedVectorField_get_forces [] points)).
Proof.
  repeat split; try reflexivity; discriminate.
Qed.

(** ** The integrator on a concrete spring *)

(** Two sub-steps under the force f(x) = -x from rest at x = 1 with mass 1
    and dt = 1: the first sub-step ends at x = 3/4 with velocity -1/2, the
    second evaluates the force there, and the particle ends at x = 5/16 with
    velocity -7/8 (a single evaluation of the force for the whole dt would
    end at x = 0 with velocity -1). *)
Lemma update_from_force_substeps_witness :
  update_from_force (mkForceUpdater 2 (fun x => Ok (vneg x))) 1
    (mkParticle 1 1 0.2 (sample 1) false 0 zeros3 2 [] 0 (1 / 30)
       (sample 1, sample 1, sample 1) None) =
  Ok (mkParticle 1 1 0.2 (mkVect3 (5 / 16) 0 0) false 0 (mkVect3 (- 7 / 8) 0 0)
        2 [] 0 (1 / 30) (sample 1, sample 1, sample 1) None).
Proof.
  pose proof (update_from_force_substeps vneg 1
                (mkParticle 1 1 0.2 (sample 1) false 0 zeros3 2 [] 0 (1 / 30)
                   (sample 1, sample 1, sample 1) None)) as H.
  cbv zeta in H.
  cbn [euler_steps_per_frame mass get_center center velocity] in H.
  destruct H as [_ H]; [lra | lra |].
  rewrite H. clear H.
  replace (INR 2) with 2 by (simpl; lra).
  unfold Nat.iter. cbn [nat_rect].
  unfold semi_implicit_step, with_motion, vneg, sample, zeros3.
  cbn [fst snd vx vy vz charge mass sphere_radius track_position_history
       history_size euler_steps_per_frame force_updaters time time_step
       recent_positions history].
  f_equal. f_equal; apply Vect3_eq; cbn [vx vy vz]; lra.
Defined.

(* ================================================================== *)
(** * More properties of the code *)

(** ** The history buffer on reachable states *)

Lemma increment_clock_inv dt s s' :
  increment_clock dt s = Ok s' ->
  (dt = 0 /\ s' = s) \/
  (dt <> 0 /\
   exists h,
     s' = set_history h
            (set_recent_positions
               (snd (fst (recent_positions s)), snd (recent_positions s),
                get_center s)
               (set_clock (time s + dt) dt s))).
Proof.
  intros H. destruct (Req_dec_T dt 0) as [E | E].
  - left. subst dt. rewrite increment_clock_zero in H. injection H as <-. auto.
  - right. split; [assumption |].
    destruct (track_position_history s) eqn:Ht.
    + rewrite increment_clock_tracking in H by assumption.
      apply add_to_position_history_inv in H. destruct H as [h' ->].
      now exists (Some h').
    + rewrite increment_clock_untracked in H by assumption.
      injection H as <-. exists (history s). now destruct s.
Qed.

Lemma euler_substep_fields u dt s s' :
  euler_substep u dt s = Ok s' ->
  time s' = time s /\ recent_positions s' = recent_positions s /\
  charge s' = charge s /\ mass s' = mass s /\
  sphere_radius s' = sphere_radius s /\
  force_updaters s' = force_updaters s /\
  euler_steps_per_frame s' = euler_steps_per_frame s.
Proof.
  unfold euler_substep.
  destruct (force_func u (get_center s)) as [F | e]; cbn [bind]; [| discriminate].
  intros [= <-]. repeat split.
Qed.

Lemma for_range_fields u dt k :
  forall s s',
    for_range k (euler_substep u dt) s = Ok s' ->
    time s' = time s /\ recent_positions s' = recent_positions s /\
    charge s' = charge s /\ mass s' = mass s /\
    sphere_radius s' = sphere_radius s /\
    force_updaters s' = force_updaters s /\
    euler_steps_per_frame s' = euler_steps_per_frame s.
Proof.
  induction k as [| k IH]; intros s s'; cbn [for_range];
    [intros [= <-]; repeat split |].
  destruct (euler_substep u dt s) as [s1 | e] eqn:E; cbn [bind]; [| discriminate].
  intros H. destruct (IH s1 s' H) as (H1 & H2 & H3 & H4 & H5 & H6 & H7).
  destruct (euler_substep_fields u dt s s1 E) as (G1 & G2 & G3 & G4 & G5 & G6 & G7).
  rewrite H1, H2, H3, H4, H5, H6, H7. auto 10.
Qed.

Lemma run_updaters_fields dt us :
  forall s s',
    run_updaters us dt s = Ok s' ->
    time s' = time s /\ recent_positions s' = recent_positions s /\
    charge s' = charge s /\ mass s' = mass s /\
    sphere_radius s' = sphere_radius s /\
    force_updaters s' = force_updaters s /\
    euler_steps_per_frame s' = euler_steps_per_frame s.
Proof.
  induction us as [| u us IH]; intros s s'; cbn [run_updaters];
    [intros [= <-]; repeat split |].
  destruct (update_from_force u dt s) as [s1 | e] eqn:E; cbn [bind];
    [| discriminate].
  intros H. destruct (IH s1 s' H) as (H1 & H2 & H3 & H4 & H5 & H6 & H7).
  assert (time s1 = time s /\ recent_positions s1 = recent_positions s /\
          charge s1 = charge s /\ mass s1 = mass s /\
          sphere_radius s1 = sphere_radius s /\
          force_updaters s1 = force_updaters s /\
          euler_steps_per_frame s1 = euler_steps_per_frame s)
    as (G1 & G2 & G3 & G4 & G5 & G6 & G7).
  { revert E. unfold update_from_force.
    destruct (Req_dec_T dt 0); [intros [= <-]; repeat split |].
    apply for_range_fields. }
  rewrite H1, H2, H3, H4, H5, H6, H7. auto 10.
Qed.

Lemma for_range_returns u dt k :
  (forall x, exists F, force_func u x = Ok F) ->
  forall s, exists s', for_range k (euler_substep u dt) s = Ok s'.
Proof.
  intros Hf. induction k as [| k IH]; intros s; cbn [for_range];
    [now exists s |].
  unfold euler_substep at 1. destruct (Hf (get_center s)) as [F ->].
  cbn [bind]. apply IH.
Qed.

Lemma run_updaters_returns dt us :
  (forall u, In u us -> forall x, exists F, force_func u x = Ok F) ->
  forall s, exists s', run_updaters us dt s = Ok s'.
Proof.
  induction us as [| u us IH]; intros Hf s; cbn [run_updaters];
    [now exists s |].
  assert (exists s1, update_from_force u dt s = Ok s1) as [s1 ->].
  { unfold update_from_force. destruct (Req_dec_T dt 0); [now exists s |].
    apply for_range_returns. apply Hf. now left. }
  cbn [bind]. apply IH. intros u' Hu'. apply Hf. now right.
Qed.

Lemma update_history_size dt s s' :
  update dt s = Ok s' -> history_size s' = history_size s.
Proof.
  intros H. destruct (update_inv dt s s' H) as (s1 & H1 & H2).
  destruct (run_updaters_frame dt _ s s1 H1) as (_ & _ & Hhs & _).
  rewrite <- Hhs.
  apply increment_clock_inv in H2. destruct H2 as [[_ ->] | [_ [h ->]]]; reflexivity.
Qed.

Lemma reachable_history_size p0 p :
  reachable_from p0 p -> history_size p = history_size p0.
Proof.
  intros Hr. induction Hr as [| dt p p' _ IH Hu | c p _ IH | v p _ IH
                              | f p _ IH | p _ IH]; try exact IH.
  - reflexivity.
  - rewrite <- IH. eapply update_history_size; eassumption.
Qed.

Lemma history_ok_of_constructed point q m r hs n p0 p :
  ChargedParticle_init point q m r true hs n = Ok p0 ->
  reachable_from p0 p ->
  history_ok p /\ track_position_history p = true /\ history_size p = hs.
Proof.
  intros Hinit Hreach.
  pose proof (ChargedParticle_init_history_ok _ _ _ _ _ _ _ _ Hinit) as Hok0.
  destruct (reachable_history_ok _ _ Hok0 Hreach) as [Hok Htr].
  destruct (ChargedParticle_init_fields _ _ _ _ _ _ _ _ Hinit)
    as (_ & _ & _ & _ & _ & Ht0 & Hhs & _).
  pose proof (reachable_history_size _ _ Hreach) as Hsz.
  repeat split; congruence.
Qed.

(** X1.  On every state of a particle constructed with history tracking the
    two history arrays keep exactly [history_size] rows and the cursor stays
    between -1 and [history_size - 1]: no operation of the interface grows
    the arrays or lets the cursor leave them. *)
Theorem history_cursor_within_capacity
    point q m r hs n (p0 p : ChargedParticle) :
  ChargedParticle_init point q m r true hs n = Ok p0 ->
  reachable_from p0 p ->
  exists h,
    history p = Some h /\
    history_size p = hs /\
    length (position_history h) = Z.to_nat hs /\
    length (acceleration_history h) = Z.to_nat hs /\
    (-1 <= history_index h < hs)%Z.
Proof.
  intros Hinit Hreach.
  pose proof (ChargedParticle_init_history_ok _ _ _ _ _ _ _ _ Hinit) as Hok0.
  destruct (reachable_history_ok _ _ Hok0 Hreach) as [Hok Htr].
  destruct (ChargedParticle_init_fields _ _ _ _ _ _ _ _ Hinit)
    as (_ & _ & _ & _ & _ & Ht0 & Hhs & _).
  pose proof (reachable_history_size _ _ Hreach) as Hsz. rewrite Hhs in Hsz.
  rewrite Ht0 in Htr. unfold history_ok in Hok.
  destruct (history p) as [h |]; [| congruence].
  destruct Hok as (_ & Hp & Ha & Hb). rewrite Hsz in *.
  exists h. repeat split; try assumption; lia.
Qed.

(** After five frames along the x axis with capacity 4 the buffer has been
    compacted once: it holds the samples 3, 4, 3, 5 and the cursor is 3. *)
Lemma history_cursor_within_capacity_witness :
  exists p0 p h,
    ChargedParticle_init zeros3 1 1 0.2 true 4 10 = Ok p0 /\
    run_frames 1 (map sample [1; 2; 3; 4; 5]%Z) p0 = Ok p /\
    history p = Some h /\
    position_history h = map sample [3; 4; 3; 5]%Z /\
    history_index h = 3%Z /\
    length (acceleration_history h) = Z.to_nat 4 /\
    (-1 <= history_index h < 4)%Z.
Proof.
  destruct (ChargedParticle_init_succeeds zeros3 1 1 0.2 true 4 10)
    as (p0 & Hinit & _); [right; lia |].
  destruct (ChargedParticle_init_fields _ _ _ _ _ _ _ _ Hinit)
    as (_ & _ & _ & _ & _ & Ht0 & Hhs & _ & Hu0 & _ & Hh0).
  pose proof (run_frames_view 1 (map sample [1; 2; 3; 4; 5]%Z) R1_neq_R0 p0 _
                Hh0 Ht0 Hu0 eq_refl) as Hv.
  cbn [position_history history_index] in Hv. rewrite Hhs in Hv.
  assert (buffer_writes 4 (repeat zeros3 (Z.to_nat 4), (-1)%Z)
            (map sample [1; 2; 3; 4; 5]%Z) =
          Ok (map sample [3; 4; 3; 5]%Z, 3%Z)) as Hb by reflexivity.
  rewrite Hb in Hv. destruct Hv as (p & ah & Hrun & Hh & _).
  destruct (history_cursor_within_capacity zeros3 1 1 0.2 4 10 p0 p Hinit
              (run_frames_reachable p0 1 _ p0 p (reach_fresh p0) Hrun))
    as (h & Hh' & _ & _ & Ha & Hbnd).
  exists p0, p, h.
  assert (h = mkHistory (map sample [3; 4; 3; 5]%Z) ah 3) as Eh by congruence.
  split; [exact Hinit |]. split; [exact Hrun |]. split; [exact Hh' |].
  split; [rewrite Eh; reflexivity |]. split; [rewrite Eh; reflexivity |].
  split; [exact Ha | exact Hbnd].
Defined.

Lemma add_to_position_history_succeeds s :
  history_ok s -> track_position_history s = true ->
  (4 <= history_size s)%Z -> Z.even (history_size s) = true ->
  exists s', add_to_position_history s = Ok s'.
Proof.
  intros Hok Ht H4 Hev. unfold history_ok in Hok. unfold add_to_position_history.
  destruct (history s) as [h |]; [| congruence].
  destruct Hok as (_ & Hp & Ha & Hlo & Hhi).
  destruct (Z.even_spec (history_size s)) as [Heven _].
  destruct (Heven Hev) as [k Hk].
  assert (history_size s / 2 = k)%Z as Hhalf
    by (rewrite Hk, Z.mul_comm; apply Z.div_mul; lia).
  destruct (Z.leb_spec (history_size s) (history_index h + 1)) as [Hfull | Hroom].
  - rewrite Hhalf.
    rewrite (assign_front_from_back_even _ k (position_history h)) by lia.
    rewrite (assign_front_from_back_even _ k (acceleration_history h)) by lia.
    cbn [bind].
    rewrite setitem_nonneg
      by (rewrite length_app, length_skipn, Hp; lia).
    cbn [bind].
    rewrite setitem_nonneg
      by (rewrite length_app, length_skipn, Ha; lia).
    cbn [bind]. eexists. reflexivity.
  - cbn [bind].
    rewrite setitem_nonneg by lia. cbn [bind].
    rewrite setitem_nonneg by lia. cbn [bind].
    eexists. reflexivity.
Qed.

Lemma increment_clock_succeeds dt s :
  history_ok s ->
  track_position_history s = false \/
  ((4 <= history_size s)%Z /\ Z.even (history_size s) = true) ->
  exists s', increment_clock dt s = Ok s'.
Proof.
  intros Hok Hcap.
  destruct (Req_dec_T dt 0) as [-> | Hdt];
    [rewrite increment_clock_zero; now exists s |].
  destruct (track_position_history s) eqn:Ht.
  - destruct Hcap as [Hc | [H4 Hev]]; [discriminate |].
    rewrite increment_clock_tracking by assumption.
    apply add_to_position_history_succeeds; assumption.
  - rewrite increment_clock_untracked by assumption. eexists. reflexivity.
Qed.

Lemma run_updaters_app dt us vs :
  forall s,
    run_updaters (us ++ vs) dt s =
    bind (run_updaters us dt s) (fun s1 => run_updaters vs dt s1).
Proof.
  induction us as [| u us IH]; intros s; cbn [app run_updaters bind];
    [reflexivity |].
  destruct (update_from_force u dt s) as [s1 | e]; cbn [bind];
    [apply IH | reflexivity].
Qed.

Lemma field_force_no_source q p :
  field_force q (CoulombField_get_forces []) p = Raise TypeError.
Proof. reflexivity. Qed.

(** X2.  With history tracking off, or with an even [history_size] of at
    least 4 (the default 7200 is one), [update] raises only when one of the
    registered force functions does, on every reachable state and for every
    [dt], however many samples were recorded before.  In particular it never
    raises when every registered force function returns; and it raises
    [TypeError] on every non-zero frame (with at least one sub-step) once
    [add_field_force] was called with a Coulomb field without charges. *)
Theorem update_raises_only_from_a_force
    point q m r track hs n (p0 p : ChargedParticle) (dt : R) :
  ChargedParticle_init point q m r track hs n = Ok p0 ->
  reachable_from p0 p ->
  track = false \/ ((4 <= hs)%Z /\ Z.even hs = true) ->
  (raises (update dt p) <-> raises (run_updaters (force_updaters p) dt p)) /\
  (forces_return p -> exists p', update dt p = Ok p') /\
  (forces_return p -> dt <> 0 -> euler_steps_per_frame p <> 0%nat ->
   update dt (add_field_force (CoulombField_get_forces []) p) =
     Raise TypeError).
Proof.
  intros Hinit Hreach Hcap.
  pose proof (ChargedParticle_init_history_ok _ _ _ _ _ _ _ _ Hinit) as Hok0.
  destruct (reachable_history_ok _ _ Hok0 Hreach) as [Hok Htr].
  destruct (ChargedParticle_init_fields _ _ _ _ _ _ _ _ Hinit)
    as (_ & _ & _ & _ & _ & Ht0 & Hhs & _).
  pose proof (reachable_history_size _ _ Hreach) as Hsz. rewrite Hhs in Hsz.
  rewrite Ht0 in Htr.
  assert (forall s1, run_updaters (force_updaters p) dt p = Ok s1 ->
                     exists p', increment_clock dt s1 = Ok p') as Hclock.
  { intros s1 H1.
    destruct (run_updaters_frame dt _ p s1 H1) as (_ & Ht1 & Hhs1 & _).
    apply increment_clock_succeeds.
    - apply (run_updaters_history_ok dt _ p s1 Hok H1).
    - rewrite Ht1, Hhs1, Htr, Hsz. exact Hcap. }
  split; [| split].
  - unfold update.
    destruct (run_updaters (force_updaters p) dt p) as [s1 | e] eqn:E;
      cbn [bind].
    + destruct (Hclock s1 eq_refl) as [p' ->].
      split; intros [e He]; discriminate.
    + split; intros _; now exists e.
  - intros Hf. unfold update.
    destruct (run_updaters_returns dt (force_updaters p) Hf p) as [s1 E].
    rewrite E. cbn [bind]. apply (Hclock s1 E).
  - intros Hf Hdt Hn. unfold update, add_field_force, add_force.
    cbn [force_updaters set_force_updaters].
    rewrite run_updaters_app.
    destruct (run_updaters_returns dt (force_updaters p) Hf
                (set_force_updaters
                   (force_updaters p ++
                    [mkForceUpdater (euler_steps_per_frame p)
                       (field_force (get_charge p) (CoulombField_get_forces []))])
                   p)) as [s1 E].
    rewrite E. cbn [bind run_updaters]. unfold update_from_force.
    destruct (Req_dec_T dt 0) as [E0 | _]; [contradiction |].
    cbn [espf]. destruct (euler_steps_per_frame p) as [| k]; [contradiction |].
    cbn [for_range]. unfold euler_substep at 1. cbn [force_func].
    rewrite field_force_no_source. reflexivity.
Qed.

Lemma update_raises_only_from_a_force_witness :
  exists p0 p',
    ChargedParticle_init zeros3 1 1 0.2 true 7200 10 = Ok p0 /\
    update 1 (add_spring_force 3 None p0) = Ok p' /\
    update 1 (add_field_force (CoulombField_get_forces [])
                (add_spring_force 3 None p0)) = Raise TypeError.
Proof.
  destruct (ChargedParticle_init_succeeds zeros3 1 1 0.2 true 7200 10)
    as (p0 & Hinit & _); [right; lia |].
  destruct (ChargedParticle_init_fields _ _ _ _ _ _ _ _ Hinit)
    as (_ & _ & _ & _ & _ & _ & _ & Hn & Hu & _).
  assert (forces_return (add_spring_force 3 None p0)) as Hf.
  { intros u Hin x. unfold add_spring_force, add_force in Hin.
    cbn [force_updaters set_force_updaters] in Hin. rewrite Hu in Hin.
    destruct Hin as [<- | []]. eexists. reflexivity. }
  destruct (update_raises_only_from_a_force zeros3 1 1 0.2 true 7200 10 p0
              (add_spring_force 3 None p0) 1 Hinit
              (@reach_add_force p0 _ p0 (reach_fresh p0)))
    as (_ & Hret & Hraise).
  - right. split; [lia | reflexivity].
  - destruct (Hret Hf) as [p' Hp'].
    exists p0, p'. split; [exact Hinit |]. split; [exact Hp' |].
    apply (Hraise Hf R1_neq_R0).
    unfold add_spring_force, add_force. cbn [euler_steps_per_frame
      set_force_updaters]. rewrite Hn. discriminate.
Defined.

Lemma buffer_writes_app {A : Type} hs (l1 l2 : list A) st :
  buffer_writes hs st (l1 ++ l2) =
  bind (buffer_writes hs st l1) (fun st' => buffer_writes hs st' l2).
Proof.
  revert st. induction l1 as [| v l1 IH]; intros st; simpl; [reflexivity |].
  destruct (buffer_write hs st v); simpl; [apply IH | reflexivity].
Qed.

Lemma assign_front_from_back_odd {A : Type} k (arr : list A) :
  (1 <= k)%Z -> length arr = S (2 * Z.to_nat k) ->
  assign_front_from_back k arr = Raise ValueError.
Proof.
  intros Hk HL. unfold assign_front_from_back. cbv zeta.
  rewrite slice_bound_nonneg by lia.
  assert (length (skipn (Z.to_nat k) arr) = S (Z.to_nat k)) as Hs
    by (rewrite length_skipn; lia).
  rewrite Hs.
  destruct (Nat.eqb_spec (S (Z.to_nat k)) (Z.to_nat k)) as [E | _]; [lia |].
  destruct (skipn (Z.to_nat k) arr) as [| x [| y l]]; simpl in Hs;
    try reflexivity; lia.
Qed.

Lemma buffer_write_overflow {A : Type} hs (arr : list A) v :
  (0 <= hs)%Z -> length arr = Z.to_nat hs ->
  (hs < 3)%Z \/ Z.odd hs = true ->
  buffer_write hs (arr, (hs - 1)%Z) v =
  Raise (if (hs <? 3)%Z then IndexError else ValueError).
Proof.
  intros H0 HL Hcap. unfold buffer_write.
  replace (hs - 1 + 1)%Z with hs by lia. rewrite Z.leb_refl.
  destruct (Z.ltb_spec hs 3) as [Hsmall | Hbig].
  - assert (hs = 0 \/ hs = 1 \/ hs = 2)%Z as Hc by lia.
    destruct Hc as [-> | [-> | ->]].
    + destruct arr; [reflexivity | discriminate].
    + destruct arr as [| a [| ? ?]]; try discriminate. reflexivity.
    + destruct arr as [| a [| b [| ? ?]]]; try discriminate. reflexivity.
  - destruct Hcap as [Hc | Hodd]; [lia |].
    destruct (Z.odd_spec hs) as [Hspec _]. destruct (Hspec Hodd) as [k Hk].
    assert (hs / 2 = k)%Z as Hhalf.
    { rewrite Hk, Z.mul_comm, Z.div_add_l by lia.
      change (1 / 2)%Z with 0%Z. lia. }
    rewrite Hhalf, assign_front_from_back_odd by lia.
    reflexivity.
Qed.

(** X3.  With history tracking on, a capacity that is odd or below 4 does not
    survive its first overflow: the first [history_size] frames are recorded,
    and the frame after them raises, [ValueError] from the slice assignment
    of unequal halves when the capacity is odd and at least 3, [IndexError]
    from the write at [hist_size // 2 + 1] when it is 0, 1 or 2. *)
Theorem overflow_raises_odd_or_small_capacity
    point q m r hs n (p0 : ChargedParticle) (dt : R) (path : list Vect3) :
  ChargedParticle_init point q m r true hs n = Ok p0 ->
  dt <> 0 ->
  length path = S (Z.to_nat hs) ->
  (hs < 3)%Z \/ Z.odd hs = true ->
  (exists p, run_frames dt (removelast path) p0 = Ok p) /\
  run_frames dt path p0 =
    Raise (if (hs <? 3)%Z then IndexError else ValueError).
Proof.
  intros Hinit Hdt HL Hcap.
  destruct (ChargedParticle_init_fields _ _ _ _ _ _ _ _ Hinit)
    as (_ & _ & _ & _ & _ & Ht0 & Hhs & _ & Hu0 & _ & Hh0).
  assert (0 <= hs)%Z as H0.
  { destruct (Z.ltb_spec hs 0) as [Hneg | ]; [| assumption].
    assert (raises (ChargedParticle_init point q m r true hs n)) as [e He]
      by (apply ChargedParticle_init_raises; auto).
    congruence. }
  assert (path <> []) as Hne by (destruct path; [discriminate | discriminate]).
  pose proof (app_removelast_last zeros3 Hne) as Hsplit.
  set (path1 := removelast path) in *. set (v := last path zeros3) in *.
  assert (length path1 = Z.to_nat hs) as HL1.
  { apply (f_equal (@length Vect3)) in Hsplit.
    rewrite length_app in Hsplit. simpl in Hsplit. lia. }
  assert (buffer_writes hs (repeat zeros3 (Z.to_nat hs), (-1)%Z) path1 =
          Ok (path1, (hs - 1)%Z)) as Hb1.
  { pose proof (buffer_writes_no_compaction hs path1 []
                  (repeat zeros3 (Z.to_nat hs))) as Hb.
    simpl in Hb. rewrite Hb by (rewrite repeat_length; lia).
    rewrite skipn_all2 by (rewrite repeat_length; lia).
    rewrite app_nil_r. do 2 f_equal. lia. }
  split.
  - pose proof (run_frames_view dt path1 Hdt p0 _ Hh0 Ht0 Hu0 eq_refl) as Hv.
    cbn [position_history history_index] in Hv. rewrite Hhs, Hb1 in Hv.
    destruct Hv as (p & _ & Hrun & _). now exists p.
  - pose proof (run_frames_view dt path Hdt p0 _ Hh0 Ht0 Hu0 eq_refl) as Hv.
    cbn [position_history history_index] in Hv. rewrite Hhs in Hv.
    rewrite Hsplit, buffer_writes_app, Hb1 in Hv. cbn [bind buffer_writes] in Hv.
    rewrite (buffer_write_overflow hs path1 v H0 HL1 Hcap) in Hv.
    cbn [bind] in Hv. rewrite <- Hsplit in Hv. exact Hv.
Qed.

Lemma overflow_raises_odd_or_small_capacity_witness :
  exists p0,
    ChargedParticle_init zeros3 1 1 0.2 true 5 10 = Ok p0 /\
    run_frames 1 (map sample [1; 2; 3; 4; 5; 6]%Z) p0 = Raise ValueError.
Proof.
  destruct (ChargedParticle_init_succeeds zeros3 1 1 0.2 true 5 10)
    as (p0 & Hinit & _); [right; lia |].
  exists p0. split; [exact Hinit |].
  exact (proj2 (overflow_raises_odd_or_small_capacity zeros3 1 1 0.2 5 10 p0 1
                  (map sample [1; 2; 3; 4; 5; 6]%Z) Hinit R1_neq_R0 eq_refl
                  (or_intror eq_refl))).
Defined.

(** ** What one update does to the particle *)

Lemma update_zero_dt_fixed s :
  update 0 s = Ok s /\ increment_clock 0 s = Ok s.
Proof.
  split; [| apply increment_clock_zero].
  unfold update. rewrite run_updaters_zero. apply increment_clock_zero.
Qed.

Lemma update_effect dt s s' :
  dt <> 0 -> update dt s = Ok s' ->
  exists s1,
    run_updaters (force_updaters s) dt s = Ok s1 /\
    time s' = time s + dt /\
    time_step s' = dt /\
    recent_positions s' =
      (snd (fst (recent_positions s)), snd (recent_positions s), get_center s') /\
    charge s' = charge s /\ mass s' = mass s /\
    force_updaters s' = force_updaters s /\
    get_center s' = get_center s1 /\
    velocity s' = velocity s1.
Proof.
  intros Hdt Hu. destruct (update_inv dt s s' Hu) as (s1 & Hrun & H).
  exists s1. split; [exact Hrun |].
  destruct (run_updaters_fields dt _ s s1 Hrun)
    as (H1 & H2 & H3 & H4 & _ & H6 & _).
  apply increment_clock_inv in H.
  destruct H as [[E _] | [_ [h ->]]]; [contradiction |].
  simpl. rewrite H1, H2, H3, H4, H6. repeat split.
Qed.

Lemma get_past_acceleration_zero_delay s h :
  history s = Some h ->
  (0 <= history_index h < Z.of_nat (length (acceleration_history h)))%Z ->
  get_past_acceleration s [0] =
  Ok [nth (Z.to_nat (history_index h)) (acceleration_history h) zeros3].
Proof.
  intros Hh Hb. unfold get_past_acceleration. rewrite Hh.
  rewrite (get_info_from_delays_eq s h _ _ Hh) by (left; lia).
  destruct (Nat.eqb_spec (length (acceleration_history h)) 0) as [E | _]; [lia |].
  destruct (Z.ltb_spec (history_index h) 0) as [E | _]; [lia |].
  simpl. rewrite (delay_index_quotient _ _ 0 0).
  - now rewrite Z.sub_0_r.
  - unfold Rdiv. apply Rmult_0_l.
  - lia.
Qed.

(** X4.  On a tracking particle every non-zero update stores, next to the
    position, the finite-difference acceleration estimated at that frame: a
    query of the past acceleration with delay 0 right after the update
    returns exactly [get_acceleration] of the new state. *)
Theorem update_records_acceleration
    point q m r hs n (p0 p p' : ChargedParticle) (dt : R) :
  ChargedParticle_init point q m r true hs n = Ok p0 ->
  reachable_from p0 p ->
  dt <> 0 ->
  update dt p = Ok p' ->
  get_past_acceleration p' [0] = Ok [get_acceleration p'].
Proof.
  intros Hinit Hreach Hdt.
  pose proof (ChargedParticle_init_history_ok _ _ _ _ _ _ _ _ Hinit) as Hok0.
  destruct (reachable_history_ok _ _ Hok0 Hreach) as [Hok Htr].
  destruct (ChargedParticle_init_fields _ _ _ _ _ _ _ _ Hinit)
    as (_ & _ & _ & _ & _ & Ht0 & _).
  rewrite Ht0 in Htr. intros Hu.
  destruct (update_inv dt p p' Hu) as (s1 & Hrun & H).
  pose proof (run_updaters_history_ok dt _ p s1 Hok Hrun) as Hok1.
  assert (track_position_history s1 = true) as Ht1.
  { destruct (run_updaters_frame dt _ p s1 Hrun) as (_ & H' & _). congruence. }
  rewrite increment_clock_tracking in H by assumption.
  set (s2 := set_recent_positions _ _) in H.
  pose proof (add_to_position_history_ok s2 p' Hok1 H) as Hok2.
  apply add_to_position_history_latest in H; [| exact Hok1].
  destruct H as (h' & -> & Hb & _ & Ha).
  assert (length (acceleration_history h') = length (position_history h')) as HL.
  { unfold history_ok in Hok2. simpl in Hok2. lia. }
  rewrite (get_past_acceleration_zero_delay (set_history (Some h') s2) h' eq_refl)
    by lia.
  rewrite Ha. reflexivity.
Qed.

(** A particle is moved to (0, 1, 0) and then to (0, 3, 0) in two frames of
    size 1: the second update stores the estimate (0, 1, 0), and the query
    with delay 0 returns it. *)
Lemma update_records_acceleration_witness :
  exists p0 p p',
    ChargedParticle_init zeros3 1 1 0.2 true 8 10 = Ok p0 /\
    reachable_from p0 p /\
    update 1 p = Ok p' /\
    get_acceleration p' = mkVect3 0 1 0 /\
    get_past_acceleration p' [0] = Ok [mkVect3 0 1 0].
Proof.
  assert (ChargedParticle_init zeros3 1 1 0.2 true 8 10 =
          Ok (mkParticle 1 1 0.2 zeros3 true 8 zeros3 10 [] 0 (1 / 30)
                (zeros3, zeros3, zeros3)
                (Some (mkHistory (repeat zeros3 8) (repeat zeros3 8) (-1)))))
    as Hinit by (rewrite ChargedParticle_init_eq; reflexivity).
  pose proof (frame_step 1 (mkVect3 0 1 0) 1 1 0.2 zeros3 8 zeros3 10 0 (1 / 30)
                zeros3 zeros3 zeros3 (repeat zeros3 8) (repeat zeros3 8) (-1)
                R1_neq_R0 ltac:(lia) ltac:(simpl; lia) ltac:(simpl; lia)) as E1.
  rewrite acceleration_estimate_rest_first in E1.
  cbn [Z.add Z.to_nat list_set repeat Z.opp Z.pos_sub] in E1.
  pose proof (frame_step 1 (mkVect3 0 3 0) 1 1 0.2 (mkVect3 0 1 0) 8 zeros3 10
                (0 + 1) 1 zeros3 zeros3 (mkVect3 0 1 0)
                (list_set 0 (mkVect3 0 1 0) (repeat zeros3 8))
                (list_set 0 zeros3 (repeat zeros3 8)) 0
                R1_neq_R0 ltac:(lia) ltac:(simpl; lia) ltac:(simpl; lia)) as E2.
  rewrite acceleration_estimate_kick in E2.
  pose proof (@reach_move_to _ (mkVect3 0 3 0) _
                (@reach_update _ 1 _ _
                   (@reach_move_to _ (mkVect3 0 1 0) _ (reach_fresh _)) E1))
    as Hreach.
  pose proof (update_records_acceleration zeros3 1 1 0.2 8 10 _ _ _ 1 Hinit
                Hreach R1_neq_R0 E2) as H.
  assert (get_acceleration
            (mkParticle 1 1 0.2 (mkVect3 0 3 0) true 8 zeros3 10 [] (0 + 1 + 1) 1
               (zeros3, mkVect3 0 1 0, mkVect3 0 3 0)
               (Some (mkHistory
                        (list_set (Z.to_nat (0 + 1)) (mkVect3 0 3 0)
                           (list_set 0 (mkVect3 0 1 0) (repeat zeros3 8)))
                        (list_set (Z.to_nat (0 + 1)) (mkVect3 0 1 0)
                           (list_set 0 zeros3 (repeat zeros3 8)))
                        (0 + 1)%Z))) = mkVect3 0 1 0) as Hacc.
  { rewrite get_acceleration_estimate. cbn [recent_positions time_step].
    apply acceleration_estimate_kick. }
  rewrite Hacc in H.
  eexists. eexists. eexists.
  split; [exact Hinit |]. split; [exact Hreach |]. split; [exact E2 |].
  split; [exact Hacc | exact H].
Defined.

(** X5.  [ignore_last_motion] silences the estimator for one frame: right
    after the call the estimated acceleration is the zero vector, and it is
    still the zero vector after the next non-zero update, wherever the
    particle was moved in between and whatever forces act on it (the two
    oldest recent positions coincide). *)
Theorem ignore_last_motion_silences_next_frame
    (p p' : ChargedParticle) (c : Vect3) (dt : R) :
  dt <> 0 ->
  update dt (move_to c (ignore_last_motion p)) = Ok p' ->
  get_acceleration (ignore_last_motion p) = zeros3 /\
  get_acceleration p' = zeros3.
Proof.
  intros Hdt Hu. split.
  - rewrite get_acceleration_estimate. apply acceleration_estimate_rest_first.
  - destruct (update_effect dt _ _ Hdt Hu) as (s1 & _ & _ & _ & Hr & _).
    rewrite get_acceleration_estimate, Hr. simpl.
    apply acceleration_estimate_rest_first.
Qed.

Lemma ignore_last_motion_silences_next_frame_witness :
  get_acceleration
    (ignore_last_motion
       (mkParticle 1 1 0.2 (sample 2) false 0 zeros3 10 [] 2 1
          (sample 0, sample 1, sample 5) None)) = zeros3.
Proof.
  refine (proj1 (ignore_last_motion_silences_next_frame
                   (mkParticle 1 1 0.2 (sample 2) false 0 zeros3 10 [] 2 1
                      (sample 0, sample 1, sample 5) None)
                   _ (sample 7) 1 R1_neq_R0 _)).
  rewrite update_no_updaters, increment_clock_untracked
    by (reflexivity || apply R1_neq_R0).
  reflexivity.
Defined.

(** X6.  The internal clock is the accumulated frame time: after a run of
    frames of size [dt <> 0] that all succeed, [get_internal_time] has
    advanced by the number of frames times [dt], the time step is [dt], and
    charge and mass are the ones the run started with, whatever force
    updaters are registered. *)
Theorem run_frames_clock (dt : R) (path : list Vect3) (s s' : ChargedParticle) :
  dt <> 0 ->
  run_frames dt path s = Ok s' ->
  get_internal_time s' = get_internal_time s + INR (length path) * dt /\
  (path <> [] -> time_step s' = dt) /\
  get_charge s' = get_charge s /\ mass s' = mass s.
Proof.
  intros Hdt. revert s. induction path as [| c path IH]; intros s Hrun.
  - simpl in Hrun. injection Hrun as <-. simpl.
    repeat split; try lra; congruence.
  - cbn [run_frames] in Hrun.
    destruct (update dt (move_to c s)) as [s1 |] eqn:E; [| discriminate].
    cbn [bind] in Hrun.
    destruct (update_effect dt _ _ Hdt E) as (s2 & _ & Ht & Hts & _ & Hq & Hm & _).
    destruct (IH s1 Hrun) as (IHt & IHts & IHq & IHm).
    unfold get_internal_time, get_charge in *.
    rewrite IHt, Ht, IHq, Hq, IHm, Hm. cbn [length]. rewrite S_INR.
    simpl. repeat split; try lra.
    intros _. destruct path as [| c' path'].
    + simpl in Hrun. injection Hrun as <-. exact Hts.
    + apply IHts. discriminate.
Qed.

Lemma run_frames_clock_witness :
  exists s',
    run_frames 1 [sample 1; sample 2]
      (mkParticle 1 1 0.2 (sample 0) false 0 zeros3 10 [] 0 (1 / 30)
         (sample 0, sample 0, sample 0) None) = Ok s' /\
    get_internal_time s' = 0 + INR 2 * 1.
Proof.
  eexists. split.
  - cbn [run_frames].
    rewrite update_no_updaters, increment_clock_untracked
      by (reflexivity || apply R1_neq_R0).
    cbn [bind].
    rewrite update_no_updaters, increment_clock_untracked
      by (reflexivity || apply R1_neq_R0).
    reflexivity.
  - match goal with |- get_internal_time ?s = _ =>
      refine (proj1 (run_frames_clock 1 [sample 1; sample 2]
                       (mkParticle 1 1 0.2 (sample 0) false 0 zeros3 10 [] 0
                          (1 / 30) (sample 0, sample 0, sample 0) None)
                       s R1_neq_R0 _))
    end.
    cbn [run_frames].
    rewrite update_no_updaters, increment_clock_untracked
      by (reflexivity || apply R1_neq_R0).
    cbn [bind].
    rewrite update_no_updaters, increment_clock_untracked
      by (reflexivity || apply R1_neq_R0).
    reflexivity.
Defined.

(** X7.  One update, one row: on a tracking particle whose buffer still has
    room and whose registered force functions all return, a non-zero update
    succeeds, moves the cursor by exactly one whatever the number of Euler
    sub-steps, writes the centre reached after all sub-steps at the new
    cursor, and leaves every other row of both history arrays as it was. *)
Theorem update_appends_one_row
    point q m r hs n (p0 p : ChargedParticle) (h : History) (dt : R) :
  ChargedParticle_init point q m r true hs n = Ok p0 ->
  reachable_from p0 p ->
  forces_return p ->
  history p = Some h ->
  (history_index h + 1 < hs)%Z ->
  dt <> 0 ->
  exists p' h',
    update dt p = Ok p' /\
    history p' = Some h' /\
    history_index h' = (history_index h + 1)%Z /\
    nth (Z.to_nat (history_index h')) (position_history h') zeros3 =
      get_center p' /\
    forall i, i <> Z.to_nat (history_index h') ->
      nth i (position_history h') zeros3 = nth i (position_history h) zeros3 /\
      nth i (acceleration_history h') zeros3 =
        nth i (acceleration_history h) zeros3.
Proof.
  intros Hinit Hreach Hf Hh Hroom Hdt.
  destruct (history_ok_of_constructed point q m r hs n p0 p Hinit Hreach)
    as (Hok & Htr & Hsz).
  assert (exists p', update dt p = Ok p') as [p' Hu].
  { unfold update.
    destruct (run_updaters_returns dt (force_updaters p) Hf p) as [s1 E].
    rewrite E. cbn [bind].
    destruct (run_updaters_frame dt _ p s1 E) as (Hh1 & Ht1 & Hhs1 & _).
    rewrite increment_clock_tracking by congruence.
    set (s2 := set_recent_positions _ _).
    assert (history s2 = Some h) as Hh2 by (simpl; congruence).
    unfold history_ok in Hok. rewrite Hh in Hok.
    destruct Hok as (_ & Hp & Ha & Hlo & Hhi).
    rewrite (add_to_position_history_room s2 h Hh2)
      by (simpl; rewrite ?Hhs1; lia).
    eexists. reflexivity. }
  rewrite <- Hsz in Hroom.
  destruct (update_with_room dt p p' h Hok Htr Hh Hroom Hdt Hu)
    as (h' & Hh' & Hi & _ & _ & Hc & Hrest).
  exists p', h'. repeat split; try assumption; apply Hrest; assumption.
Qed.

(** A particle is moved to abscissa 1 and a spring of stiffness 3 anchored
    there is registered; the next frame writes row 0. *)
Lemma update_appends_one_row_witness :
  exists p0 p' h',
    ChargedParticle_init zeros3 1 1 0.2 true 4 10 = Ok p0 /\
    update 1 (add_spring_force 3 None (move_to (sample 1) p0)) = Ok p' /\
    history p' = Some h' /\
    history_index h' = 0%Z /\
    nth 0 (position_history h') zeros3 = get_center p'.
Proof.
  destruct (ChargedParticle_init_succeeds zeros3 1 1 0.2 true 4 10)
    as (p0 & Hinit & _); [right; lia |].
  destruct (ChargedParticle_init_fields _ _ _ _ _ _ _ _ Hinit)
    as (_ & _ & _ & _ & _ & _ & _ & _ & Hu0 & _ & Hh0).
  assert (forces_return (add_spring_force 3 None (move_to (sample 1) p0)))
    as Hf.
  { intros u Hin x. unfold add_spring_force, add_force in Hin.
    cbn [force_updaters set_force_updaters move_to set_center] in Hin.
    rewrite Hu0 in Hin. destruct Hin as [<- | []]. eexists. reflexivity. }
  destruct (update_appends_one_row zeros3 1 1 0.2 4 10 p0
              (add_spring_force 3 None (move_to (sample 1) p0)) _ 1 Hinit
              (@reach_add_force p0 _ _
                 (@reach_move_to p0 (sample 1) p0 (reach_fresh p0)))
              Hf Hh0 ltac:(simpl; lia) R1_neq_R0)
    as (p' & h' & Hu & Hh' & Hi & Hc & _).
  exists p0, p', h'.
  split; [exact Hinit |]. split; [exact Hu |]. split; [exact Hh' |].
  split; [exact Hi |]. rewrite Hi in Hc. exact Hc.
Defined.

(** ** The integrator in closed form *)

Ltac vec_ring :=
  apply Vect3_eq;
  unfold vadd, vsub, smul, sdiv, vscale, vneg, zeros3;
  cbn [vx vy vz]; unfold Rdiv; ring.

Lemma euler_substep_returns u dt s F :
  force_func u (get_center s) = Ok F ->
  euler_substep u dt s =
  Ok (shift
        (sdiv (vscale
                 (vadd (velocity s)
                    (sdiv (vscale (sdiv F (mass s)) dt) (INR (espf u)))) dt)
           (INR (espf u)))
        (set_velocity
           (vadd (velocity s)
              (sdiv (vscale (sdiv F (mass s)) dt) (INR (espf u)))) s)).
Proof. intros HF. unfold euler_substep. rewrite HF. reflexivity. Qed.

Lemma for_range_constant_force (F : Vect3) (u : ForceUpdater) (dt : R) (k : nat) :
  (forall x, force_func u x = Ok F) ->
  forall s,
    let h := dt / INR (espf u) in
    let a := sdiv F (mass s) in
    exists s',
      for_range k (euler_substep u dt) s = Ok s' /\
      mass s' = mass s /\
      velocity s' = vadd (velocity s) (smul (INR k * h) a) /\
      center s' =
        vadd (vadd (center s) (smul (INR k * h) (velocity s)))
          (smul (h ^ 2 * (INR k * (INR k + 1) / 2)) a).
Proof.
  intros HF. induction k as [| k IH]; intros s; cbv zeta.
  - exists s. cbn [for_range]. change (INR 0) with 0.
    split; [reflexivity |]. split; [reflexivity |]. split; vec_ring.
  - cbn [for_range].
    rewrite (euler_substep_returns u dt s F (HF (get_center s))). cbn [bind].
    match goal with |- context [for_range k _ ?s1] =>
      destruct (IH s1) as (s' & Hrun & Hm & Hv & Hc)
    end.
    exists s'. split; [exact Hrun |].
    rewrite Hm, Hv, Hc. clear Hrun Hm Hv Hc IH.
    rewrite S_INR. unfold shift, set_center, set_velocity, get_center.
    cbn [center velocity mass].
    split; [reflexivity |].
    replace ((INR k + 1) * (INR k + 1 + 1) / 2)
      with (INR k * (INR k + 1) / 2 + (INR k + 1)) by field.
    generalize (INR k * (INR k + 1) / 2). intros T.
    split; vec_ring.
Qed.

(** X8.  Under a force that returns the same vector [F] everywhere, one
    frame of the integrator with [n >= 1] sub-steps has a closed form: the
    velocity gains exactly (F / m) dt, and the centre moves by
    v dt + (F / m) dt^2 (n + 1) / (2 n), which exceeds the exact
    (F / m) dt^2 / 2 by the factor (n + 1) / n; with F = 0 the particle moves
    by v dt at unchanged velocity. *)
Theorem constant_force_closed_form
    (F : Vect3) (f : Vect3 -> result Vect3) (dt : R) (s : ChargedParticle) :
  (forall x, f x = Ok F) ->
  dt <> 0 ->
  mass s <> 0 ->
  euler_steps_per_frame s <> 0%nat ->
  let n := euler_steps_per_frame s in
  exists s',
    update_from_force (mkForceUpdater n f) dt s = Ok s' /\
    velocity s' = vadd (velocity s) (smul dt (sdiv F (mass s))) /\
    get_center s' =
      vadd (vadd (get_center s) (smul dt (velocity s)))
        (smul (dt ^ 2 * (INR n + 1) / (2 * INR n)) (sdiv F (mass s))).
Proof.
  intros HF Hdt Hm Hn n. unfold update_from_force.
  destruct (Req_dec_T dt 0) as [E | _]; [contradiction |].
  cbn [espf].
  destruct (for_range_constant_force F (mkForceUpdater n f) dt n HF s)
    as (s' & Hrun & _ & Hv & Hc).
  cbn [espf] in Hrun, Hv, Hc. exists s'. split; [exact Hrun |].
  unfold get_center. rewrite Hv, Hc.
  assert (INR n <> 0) as Hn0 by (apply not_0_INR; exact Hn).
  split; apply Vect3_eq; unfold vadd, smul, sdiv; cbn [vx vy vz]; field; auto.
Qed.

(** Free fall from rest for one frame of size 1 in two sub-steps: the
    velocity becomes (0, 0, -1) and the particle falls by 3/4, where the
    exact motion falls by 1/2. *)
Lemma constant_force_closed_form_witness :
  exists s',
    update_from_force (mkForceUpdater 2 (fun _ => Ok (mkVect3 0 0 (-1)))) 1
      (mkParticle 1 1 0.2 (sample 0) false 0 zeros3 2 [] 0 (1 / 30)
         (sample 0, sample 0, sample 0) None) = Ok s' /\
    velocity s' = mkVect3 0 0 (-1) /\
    get_center s' = mkVect3 0 0 (- 3 / 4).
Proof.
  destruct (constant_force_closed_form (mkVect3 0 0 (-1))
              (fun _ => Ok (mkVect3 0 0 (-1))) 1
              (mkParticle 1 1 0.2 (sample 0) false 0 zeros3 2 [] 0 (1 / 30)
                 (sample 0, sample 0, sample 0) None))
    as (s' & Hrun & Hv & Hc).
  - reflexivity.
  - apply R1_neq_R0.
  - simpl. apply R1_neq_R0.
  - simpl. discriminate.
  - exists s'. split; [exact Hrun |].
    cbn [velocity mass get_center center euler_steps_per_frame] in Hv, Hc.
    rewrite Hv, Hc. replace (INR 2) with 2 by (simpl; lra).
    split; apply Vect3_eq; unfold vadd, smul, sdiv, sample, zeros3;
      cbn [vx vy vz]; lra.
Defined.

Lemma for_range_equilibrium (u : ForceUpdater) (dt : R) (c0 : Vect3) (k : nat) :
  force_func u c0 = Ok zeros3 ->
  forall s,
    center s = c0 -> velocity s = zeros3 ->
    exists s',
      for_range k (euler_substep u dt) s = Ok s' /\
      center s' = c0 /\ velocity s' = zeros3.
Proof.
  intros HF. induction k as [| k IH]; intros s Hc Hv.
  - exists s. split; [reflexivity |]. split; assumption.
  - cbn [for_range].
    assert (force_func u (get_center s) = Ok zeros3) as HF'
      by (unfold get_center; rewrite Hc; exact HF).
    rewrite (euler_substep_returns u dt s zeros3 HF'). cbn [bind].
    apply IH.
    + unfold shift, set_center, set_velocity, get_center.
      cbn [center velocity mass]. rewrite Hc, Hv. vec_ring.
    + unfold shift, set_center, set_velocity, get_center.
      cbn [center velocity mass]. rewrite Hv. vec_ring.
Qed.

(** X9.  A particle at rest at the centre of its spring stays there: when
    [add_spring_force k] is called without a centre (the spring is anchored
    at the particle's position at that moment) on a particle with no other
    force and zero velocity, every later successful update, for every [dt],
    stiffness and number of sub-steps, leaves the centre where it was and
    the velocity zero. *)
Theorem spring_rest_point_is_fixed
    (k dt : R) (s s' : ChargedParticle) :
  force_updaters s = [] ->
  velocity s = zeros3 ->
  mass s <> 0 ->
  update dt (add_spring_force k None s) = Ok s' ->
  get_center s' = get_center s /\ velocity s' = zeros3.
Proof.
  intros Hu Hv Hm Hup.
  destruct (Req_dec_T dt 0) as [-> | Hdt].
  - destruct (update_zero_dt_fixed (add_spring_force k None s)) as [E _].
    rewrite E in Hup. injection Hup as <-. split; [reflexivity | exact Hv].
  - destruct (update_effect dt _ _ Hdt Hup)
      as (s1 & Hrun & _ & _ & _ & _ & _ & _ & Hc & Hvel).
    rewrite Hc, Hvel. revert Hrun.
    unfold add_spring_force, add_force.
    cbn [force_updaters set_force_updaters]. rewrite Hu.
    cbn [app run_updaters]. unfold update_from_force.
    destruct (Req_dec_T dt 0) as [E | _]; [contradiction |].
    cbn [espf].
    match goal with |- context [for_range ?n (euler_substep ?u dt) ?s0] =>
      destruct (for_range_equilibrium u dt (get_center s) n) with (s := s0)
        as (s2 & -> & Hc2 & Hv2)
    end.
    + cbn [force_func]. f_equal. vec_ring.
    + reflexivity.
    + exact Hv.
    + cbn [bind]. intros [= <-]. split; assumption.
Qed.

Lemma spring_rest_point_is_fixed_witness :
  exists s',
    update 1
      (add_spring_force 3 None
         (mkParticle 1 2 0.2 (sample 1) false 0 zeros3 10 [] 0 (1 / 30)
            (sample 1, sample 1, sample 1) None)) = Ok s' /\
    get_center s' = sample 1.
Proof.
  set (s0 := mkParticle 1 2 0.2 (sample 1) false 0 zeros3 10 [] 0 (1 / 30)
               (sample 1, sample 1, sample 1) None).
  assert (exists s', update 1 (add_spring_force 3 None s0) = Ok s') as [s' E].
  { unfold update.
    destruct (run_updaters_returns 1
                (force_updaters (add_spring_force 3 None s0))) with
      (s := add_spring_force 3 None s0) as [s1 E1].
    - intros u Hin x. destruct Hin as [<- | []]. eexists. reflexivity.
    - rewrite E1. cbn [bind].
      destruct (run_updaters_frame 1 _ _ s1 E1) as (_ & H & _).
      rewrite increment_clock_untracked.
      + eexists. reflexivity.
      + apply R1_neq_R0.
      + rewrite H. reflexivity. }
  exists s'. split; [exact E |].
  refine (proj1 (spring_rest_point_is_fixed 3 1 s0 s' eq_refl eq_refl _ E)).
  simpl. lra.
Defined.

(** ** Which particles the force functions accept *)

Lemma untracked_has_no_history p :
  history_ok p -> track_position_history p = false -> history p = None.
Proof.
  unfold history_ok. intros Hok Ht.
  destruct (history p) as [h |]; [| reflexivity].
  destruct Hok as [E _]. congruence.
Qed.

Lemma coulomb_force_succeeds p points radius :
  history_ok p ->
  exists rows, coulomb_force points p radius = Ok rows /\
               length rows = length points.
Proof.
  intros Hok.
  destruct (source_positions_ok p points 2 Hok) as (centers & Hc & HL).
  rewrite (coulomb_force_pointwise p points radius centers Hc HL).
  eexists. split; [reflexivity |]. apply zipWith_length. now symmetry.
Qed.

Lemma lorentz_force_succeeds p points radius c epsilon0 :
  history_ok p -> track_position_history p = true ->
  exists rows, lorentz_force points p radius c epsilon0 = Ok rows /\
               length rows = length points.
Proof.
  intros Hok Ht.
  destruct (source_positions_ok p points c Hok) as (centers & Hc & HL).
  destruct (tracked_queries_succeed p
              (zipWith (fun pt ctr => norm (vsub pt ctr) / c) points centers)
              Hok Ht) as [_ (accs & Ha & HLa)].
  rewrite zipWith_length in HLa by now symmetry.
  rewrite (lorentz_force_pointwise p points radius c epsilon0 centers accs
             Hc HL Ha HLa).
  eexists. split; [reflexivity |].
  rewrite zipWith_length; rewrite length_combine; lia.
Qed.

Lemma lorentz_force_untracked p points radius c epsilon0 :
  history_ok p -> track_position_history p = false ->
  lorentz_force points p radius c epsilon0 = Raise AttributeError.
Proof.
  intros Hok Ht.
  destruct (source_positions_ok p points c Hok) as (centers & Hc & HL).
  unfold lorentz_force.
  rewrite (points_to_particle_info_pointwise p points radius c centers Hc HL).
  cbn [bind].
  destruct (untracked_queries_raise p
              (map (fun n => n / c)
                 (zipWith (fun pt ctr => norm (vsub pt ctr)) points centers))
              Hok Ht) as (_ & E & _).
  rewrite E. reflexivity.
Qed.

(** X10.  The Lorentz force needs a history: for every state of a particle
    constructed with [track_position_history] off, [lorentz_force] raises
    [AttributeError] on every batch of points (the empty one too), whatever
    the radius, c and epsilon0, while [coulomb_force] on the same particle
    returns one force per point. *)
Theorem lorentz_force_requires_tracking
    point q m rad hs n (p0 p : ChargedParticle)
    (points : list Vect3) (radius : option R) (c epsilon0 : R) :
  ChargedParticle_init point q m rad false hs n = Ok p0 ->
  reachable_from p0 p ->
  lorentz_force points p radius c epsilon0 = Raise AttributeError /\
  exists rows, coulomb_force points p radius = Ok rows /\
               length rows = length points.
Proof.
  intros Hinit Hreach.
  pose proof (ChargedParticle_init_history_ok _ _ _ _ _ _ _ _ Hinit) as Hok0.
  destruct (reachable_history_ok _ _ Hok0 Hreach) as [Hok Htr].
  destruct (ChargedParticle_init_fields _ _ _ _ _ _ _ _ Hinit)
    as (_ & _ & _ & _ & _ & Ht0 & _).
  rewrite Ht0 in Htr. split.
  - now apply lorentz_force_untracked.
  - now apply coulomb_force_succeeds.
Qed.

Lemma lorentz_force_requires_tracking_witness :
  exists p,
    ChargedParticle_init zeros3 1 1 0.2 false 7200 10 = Ok p /\
    lorentz_force [] p None 2 0.025 = Raise AttributeError.
Proof.
  destruct (ChargedParticle_init_succeeds zeros3 1 1 0.2 false 7200 10)
    as (p & Hinit & _); [now left |].
  exists p. split; [exact Hinit |].
  exact (proj1 (lorentz_force_requires_tracking zeros3 1 1 0.2 7200 10 p p []
                  None 2 0.025 Hinit (reach_fresh p))).
Defined.

(** ** Fields over any number of sources *)

Lemma constructed_history_ok t p :
  constructed t p -> history_ok p /\ track_position_history p = t.
Proof.
  intros (point & q & m & rad & hs & n & p0 & Hinit & Hreach).
  pose proof (ChargedParticle_init_history_ok _ _ _ _ _ _ _ _ Hinit) as Hok0.
  destruct (reachable_history_ok _ _ Hok0 Hreach) as [Hok Htr].
  destruct (ChargedParticle_init_fields _ _ _ _ _ _ _ _ Hinit)
    as (_ & _ & _ & _ & _ & Ht0 & _).
  split; [assumption | congruence].
Qed.

Lemma add_rows_length a b :
  length a = length b -> length (add_rows a b) = length a.
Proof. apply zipWith_length. Qed.

Lemma add_rows_comm a b : add_rows a b = add_rows b a.
Proof.
  unfold add_rows. revert b. induction a as [| x a IH]; intros [| y b]; simpl;
    try reflexivity.
  rewrite IH. f_equal. apply Vect3_eq; simpl; ring.
Qed.

Lemma add_rows_assoc a b c :
  add_rows (add_rows a b) c = add_rows a (add_rows b c).
Proof.
  unfold add_rows. revert b c.
  induction a as [| x a IH]; intros [| y b] [| z c]; simpl; try reflexivity.
  rewrite IH. f_equal. apply Vect3_eq; simpl; ring.
Qed.

Lemma fold_left_add_rows rs a b :
  fold_left add_rows rs (add_rows a b) = add_rows a (fold_left add_rows rs b).
Proof.
  revert b. induction rs as [| r rs IH]; intros b; simpl; [reflexivity |].
  now rewrite add_rows_assoc, IH.
Qed.

Lemma sum_rows_cons r rs :
  rs <> [] -> sum_rows (r :: rs) = add_rows r (sum_rows rs).
Proof.
  destruct rs as [| r2 rs]; [congruence |]. intros _. simpl.
  apply fold_left_add_rows.
Qed.

Lemma sum_rows_app l1 l2 :
  l1 <> [] -> l2 <> [] ->
  sum_rows (l1 ++ l2) = add_rows (sum_rows l1) (sum_rows l2).
Proof.
  destruct l1 as [| r1 rs1]; [congruence |].
  destruct l2 as [| r2 rs2]; [congruence |]. intros _ _. simpl.
  rewrite fold_left_app. simpl. apply fold_left_add_rows.
Qed.

Lemma sum_rows_permutation l l' :
  Permutation l l' -> sum_rows l = sum_rows l'.
Proof.
  intros HP. induction HP as [| x l l' HP IH | x y l | l l' l'' _ IH1 _ IH2].
  - reflexivity.
  - destruct l as [| a l].
    + apply Permutation_nil in HP. now subst.
    + assert (l' <> []) as Hne.
      { intros ->. apply Permutation_sym, Permutation_nil in HP. discriminate. }
      rewrite (sum_rows_cons x (a :: l)) by discriminate.
      rewrite (sum_rows_cons x l') by assumption. now rewrite IH.
  - destruct l as [| a l].
    + simpl. apply add_rows_comm.
    + rewrite (sum_rows_cons y (x :: a :: l)), (sum_rows_cons x (a :: l)),
        (sum_rows_cons x (y :: a :: l)), (sum_rows_cons y (a :: l))
        by discriminate.
      rewrite <- !add_rows_assoc. f_equal. apply add_rows_comm.
  - congruence.
Qed.

Lemma py_sum_from_rows {X : Type} (f : X -> result (list Vect3)) xs acc L :
  (forall x, In x xs -> exists rows, f x = Ok rows /\ length rows = L) ->
  length acc = L ->
  py_sum_from f xs (NdArray acc) =
    Ok (NdArray (fold_left add_rows (map (fun x => rows_of (f x)) xs) acc)) /\
  length (fold_left add_rows (map (fun x => rows_of (f x)) xs) acc) = L.
Proof.
  revert acc. induction xs as [| x xs IH]; intros acc Hall HL.
  - simpl. split; [reflexivity | assumption].
  - destruct (Hall x (or_introl eq_refl)) as (rows & E & Hr).
    cbn [py_sum_from map fold_left]. rewrite E. cbn [bind py_add rows_of].
    rewrite HL, Hr, Nat.eqb_refl. cbn [bind].
    apply IH.
    + intros y Hy. apply Hall. now right.
    + unfold add_rows. rewrite zipWith_length; congruence.
Qed.

Lemma py_sum_rows {X : Type} (f : X -> result (list Vect3)) xs L :
  xs <> [] ->
  (forall x, In x xs -> exists rows, f x = Ok rows /\ length rows = L) ->
  py_sum f xs = Ok (NdArray (sum_rows (map (fun x => rows_of (f x)) xs))) /\
  length (sum_rows (map (fun x => rows_of (f x)) xs)) = L.
Proof.
  destruct xs as [| x xs]; [congruence |]. intros _ Hall.
  destruct (Hall x (or_introl eq_refl)) as (rows & E & Hr).
  unfold py_sum. cbn [py_sum_from map sum_rows]. rewrite E.
  cbn [bind py_add rows_of IZR]. rewrite map_sadd_zero. cbn [bind].
  apply py_sum_from_rows; [| exact Hr].
  intros y Hy. apply Hall. now right.
Qed.

Lemma coulomb_force_constructed points charges :
  Forall (fun ch => exists t, constructed t ch) charges ->
  forall ch, In ch charges ->
    exists rows, coulomb_force points ch None = Ok rows /\
                 length rows = length points.
Proof.
  intros Hall ch Hin. rewrite Forall_forall in Hall.
  destruct (Hall ch Hin) as [t Hc].
  destruct (constructed_history_ok t ch Hc) as [Hok _].
  now apply coulomb_force_succeeds.
Qed.

(** X11.  Superposition over any number of sources: for two non-empty lists
    of constructed particles, [CoulombField.get_forces] never raises, returns
    an array with one row per point, and the field of the concatenated list
    is the row-by-row sum of the fields of the two lists. *)
Theorem CoulombField_superposition_lists
    (cs1 cs2 : list ChargedParticle) (points : list Vect3) :
  cs1 <> [] -> cs2 <> [] ->
  Forall (fun ch => exists t, constructed t ch) (cs1 ++ cs2) ->
  exists a b,
    CoulombField_get_forces cs1 points = Ok (NdArray a) /\
    CoulombField_get_forces cs2 points = Ok (NdArray b) /\
    CoulombField_get_forces (cs1 ++ cs2) points = Ok (NdArray (zipWith vadd a b)) /\
    length a = length points /\ length b = length points.
Proof.
  intros H1 H2 Hall.
  pose proof (coulomb_force_constructed points _ Hall) as Hf.
  set (f := fun ch => coulomb_force points ch None) in *.
  destruct (py_sum_rows f cs1 (length points) H1) as [E1 L1].
  { intros x Hx. apply Hf, in_or_app. now left. }
  destruct (py_sum_rows f cs2 (length points) H2) as [E2 L2].
  { intros x Hx. apply Hf, in_or_app. now right. }
  destruct (py_sum_rows f (cs1 ++ cs2) (length points)) as [E12 _].
  { destruct cs1; [congruence | discriminate]. }
  { exact Hf. }
  exists (sum_rows (map (fun x => rows_of (f x)) cs1)),
         (sum_rows (map (fun x => rows_of (f x)) cs2)).
  unfold CoulombField_get_forces. fold f.
  split; [exact E1 |]. split; [exact E2 |]. split; [| split; assumption].
  rewrite E12, map_app, sum_rows_app.
  - reflexivity.
  - destruct cs1; [congruence | discriminate].
  - destruct cs2; [congruence | discriminate].
Qed.

(** X12.  The order of the sources does not matter: the fields of two lists
    of constructed particles that are permutations of each other are equal
    on every batch of points (in exact arithmetic). *)
Theorem CoulombField_order_independent
    (cs cs' : list ChargedParticle) (points : list Vect3) :
  Permutation cs cs' ->
  Forall (fun ch => exists t, constructed t ch) cs ->
  CoulombField_get_forces cs points = CoulombField_get_forces cs' points.
Proof.
  intros HP Hall.
  destruct cs as [| c0 cs0] eqn:Ecs.
  - apply Permutation_nil in HP. now subst.
  - rewrite <- Ecs in *.
    assert (cs <> []) as Hne by (rewrite Ecs; discriminate).
    assert (cs' <> []) as Hne'.
    { intros ->. apply Permutation_sym, Permutation_nil in HP. congruence. }
    assert (Forall (fun ch => exists t, constructed t ch) cs') as Hall'.
    { rewrite Forall_forall in *. intros x Hx. apply Hall.
      apply (Permutation_in x (Permutation_sym HP) Hx). }
    set (f := fun ch => coulomb_force points ch None).
    destruct (py_sum_rows f cs (length points) Hne
                (coulomb_force_constructed points _ Hall)) as [E _].
    destruct (py_sum_rows f cs' (length points) Hne'
                (coulomb_force_constructed points _ Hall')) as [E' _].
    unfold CoulombField_get_forces. fold f. rewrite E, E'.
    do 2 f_equal. apply sum_rows_permutation. now apply Permutation_map.
Qed.

Lemma fresh_particle_constructed point q m rad track hs n :
  track = false \/ (0 <= hs)%Z ->
  exists p, ChargedParticle_init point q m rad track hs n = Ok p /\
            constructed track p.
Proof.
  intros H.
  destruct (ChargedParticle_init_succeeds point q m rad track hs n H)
    as (p & Hinit & _).
  exists p. split; [exact Hinit |].
  exists point, q, m, rad, hs, n, p. split; [exact Hinit | apply reach_fresh].
Qed.

Lemma CoulombField_superposition_lists_witness :
  exists p a b,
    ChargedParticle_init zeros3 1 1 0.2 false 7200 10 = Ok p /\
    CoulombField_get_forces [p] [sample 1] = Ok (NdArray a) /\
    CoulombField_get_forces [p; p] [sample 1] = Ok (NdArray (zipWith vadd a b)).
Proof.
  destruct (fresh_particle_constructed zeros3 1 1 0.2 false 7200 10)
    as (p & Hinit & Hc); [now left |].
  destruct (CoulombField_superposition_lists [p] [p] [sample 1])
    as (a & b & Ha & _ & Hab & _).
  - discriminate.
  - discriminate.
  - repeat constructor; now exists false.
  - exists p, a, b. repeat split; assumption.
Defined.

Lemma CoulombField_order_independent_witness :
  exists p1 p2,
    ChargedParticle_init zeros3 1 1 0.2 false 7200 10 = Ok p1 /\
    ChargedParticle_init (sample 3) (-2) 1 0.2 true 8 10 = Ok p2 /\
    CoulombField_get_forces [p1; p2] [sample 1] =
    CoulombField_get_forces [p2; p1] [sample 1].
Proof.
  destruct (fresh_particle_constructed zeros3 1 1 0.2 false 7200 10)
    as (p1 & Hinit1 & Hc1); [now left |].
  destruct (fresh_particle_constructed (sample 3) (-2) 1 0.2 true 8 10)
    as (p2 & Hinit2 & Hc2); [right; lia |].
  exists p1, p2. split; [exact Hinit1 |]. split; [exact Hinit2 |].
  apply CoulombField_order_independent.
  - apply perm_swap.
  - repeat constructor; [now exists false | now exists true].
Defined.

Lemma py_sum_from_raises_iff {X : Type} (f : X -> result (list Vect3)) xs L :
  (forall x, In x xs ->
     (exists rows, f x = Ok rows /\ length rows = L) \/ raises (f x)) ->
  forall total,
    total = PyInt 0 \/ (exists acc, total = NdArray acc /\ length acc = L) ->
    (raises (py_sum_from f xs total) <-> exists x, In x xs /\ raises (f x)).
Proof.
  induction xs as [| x xs IH]; intros Hall total Htot.
  - simpl. split; [intros [e He]; discriminate | intros (x & [] & _)].
  - cbn [py_sum_from].
    destruct (Hall x (or_introl eq_refl)) as [(rows & E & Hr) | [e E]].
    + rewrite E. cbn [bind].
      assert (exists acc, py_add total (NdArray rows) = Ok (NdArray acc) /\
                          length acc = L) as (acc & Eadd & Hacc).
      { destruct Htot as [-> | (acc & -> & Hacc)].
        - eexists. split; [reflexivity |]. now rewrite length_map.
        - cbn [py_add]. rewrite Hacc, Hr, Nat.eqb_refl.
          eexists. split; [reflexivity |].
          rewrite zipWith_length; congruence. }
      rewrite Eadd. cbn [bind].
      rewrite (IH (fun y Hy => Hall y (or_intror Hy)) (NdArray acc))
        by (right; now exists acc).
      split.
      * intros (y & Hy & Hry). exists y. split; [now right | exact Hry].
      * intros (y & [<- | Hy] & Hry).
        -- destruct Hry as [e He]. congruence.
        -- now exists y.
    + rewrite E. cbn [bind]. split.
      * intros _. exists x. split; [now left | now exists e].
      * intros _. now exists e.
Qed.

(** X13.  A Lorentz field with [c <> 0] over constructed particles raises
    exactly when one of its charges was constructed without history
    tracking; when all of them track their history (and there is at least
    one), [get_forces] returns an array with one row per point. *)
Theorem LorentzField_raises_iff_untracked_charge
    (charges : list ChargedParticle) (radius : option R) (c : R)
    (points : list Vect3) :
  c <> 0 ->
  Forall (fun ch => exists t, constructed t ch) charges ->
  (raises (LorentzField_get_forces (mkLorentzField charges radius c) points) <->
   exists ch, In ch charges /\ track_position_history ch = false) /\
  (charges <> [] ->
   (forall ch, In ch charges -> track_position_history ch = true) ->
   exists rows,
     LorentzField_get_forces (mkLorentzField charges radius c) points =
       Ok (NdArray rows) /\
     length rows = length points).
Proof.
  intros _ Hall. rewrite Forall_forall in Hall.
  unfold LorentzField_get_forces. cbn [lf_charges radius_of_suppression lf_c].
  set (f := fun ch => lorentz_force points ch radius c 0.025).
  assert (forall ch, In ch charges ->
            (track_position_history ch = true /\
             exists rows, f ch = Ok rows /\ length rows = length points) \/
            (track_position_history ch = false /\ f ch = Raise AttributeError))
    as Hcases.
  { intros ch Hin. destruct (Hall ch Hin) as [t Hc].
    destruct (constructed_history_ok t ch Hc) as [Hok Ht].
    destruct t.
    - left. split; [exact Ht |]. now apply lorentz_force_succeeds.
    - right. split; [exact Ht |]. now apply lorentz_force_untracked. }
  split.
  - unfold py_sum.
    rewrite (py_sum_from_raises_iff f charges (length points)).
    + split.
      * intros (ch & Hin & [e He]). exists ch. split; [exact Hin |].
        destruct (Hcases ch Hin) as [[_ (rows & E & _)] | [Ht _]];
          [congruence | exact Ht].
      * intros (ch & Hin & Ht). exists ch. split; [exact Hin |].
        destruct (Hcases ch Hin) as [[Ht' _] | [_ E]]; [congruence |].
        now exists AttributeError.
    + intros ch Hin.
      destruct (Hcases ch Hin) as [[_ Hrows] | [_ E]];
        [left; exact Hrows | right; now exists AttributeError].
    + now left.
  - intros Hne Htracked.
    destruct (py_sum_rows f charges (length points) Hne) as [E HL].
    + intros ch Hin.
      destruct (Hcases ch Hin) as [[_ Hrows] | [Ht _]]; [exact Hrows |].
      rewrite (Htracked ch Hin) in Ht. discriminate.
    + eexists. split; [exact E | exact HL].
Qed.

Lemma LorentzField_raises_iff_untracked_charge_witness :
  exists p,
    ChargedParticle_init zeros3 1 1 0.2 false 7200 10 = Ok p /\
    raises (LorentzField_get_forces (mkLorentzField [p] (Some 1) 2) [sample 1]).
Proof.
  destruct (fresh_particle_constructed zeros3 1 1 0.2 false 7200 10)
    as (p & Hinit & Hc); [now left |].
  exists p. split; [exact Hinit |].
  apply (proj1 (LorentzField_raises_iff_untracked_charge [p] (Some 1) 2
                  [sample 1] ltac:(lra)
                  ltac:(repeat constructor; now exists false))).
  exists p. split; [now left |].
  apply (constructed_history_ok false p Hc).
Defined.

Lemma py_getitem_single row :
  py_getitem (NdArray [row]) 0 = Ok row.
Proof.
  unfold py_getitem. rewrite (getitem_nonneg _ [row] 0 zeros3) by (simpl; lia).
  reflexivity.
Qed.

(** X14.  The force function that [add_field_force] registers, on a Coulomb
    field of constructed particles: with no charge in the field it raises
    [TypeError] at every position (the field value is the integer 0, which
    has no row 0); with at least one charge it returns the particle's charge
    times the single row of the field at that position. *)
Theorem field_force_needs_a_source
    (charges : list ChargedParticle) (q : R) (p : Vect3) :
  Forall (fun ch => exists t, constructed t ch) charges ->
  (charges = [] ->
   field_force q (CoulombField_get_forces charges) p = Raise TypeError) /\
  (charges <> [] ->
   exists row,
     CoulombField_get_forces charges [p] = Ok (NdArray [row]) /\
     field_force q (CoulombField_get_forces charges) p = Ok (smul q row)).
Proof.
  intros Hall. split.
  - intros ->. reflexivity.
  - intros Hne.
    destruct (py_sum_rows (fun ch => coulomb_force [p] ch None) charges 1 Hne)
      as [E HL].
    { intros ch Hin. apply (coulomb_force_constructed [p] charges Hall ch Hin). }
    set (rows := sum_rows _) in *.
    destruct rows as [| row [| ? ?]]; try discriminate HL.
    exists row. unfold field_force, CoulombField_get_forces.
    rewrite E. cbn [bind]. rewrite py_getitem_single. split; reflexivity.
Qed.

Lemma field_force_needs_a_source_witness :
  exists ch row,
    ChargedParticle_init zeros3 1 1 0.2 false 7200 10 = Ok ch /\
    field_force 3 (CoulombField_get_forces [ch]) (sample 1) =
      Ok (smul 3 row).
Proof.
  destruct (fresh_particle_constructed zeros3 1 1 0.2 false 7200 10)
    as (ch & Hinit & Hc); [now left |].
  destruct (proj2 (field_force_needs_a_source [ch] 3 (sample 1)
                     ltac:(repeat constructor; now exists false)))
    as (row & _ & E); [discriminate |].
  exists ch, row. split; [exact Hinit | exact E].
Defined.

Lemma norm_vsub_sym a b : norm (vsub a b) = norm (vsub b a).
Proof.
  unfold norm, vsub. cbn [vx vy vz]. f_equal. ring.
Qed.

Lemma unit_diff_sym a b : unit_diff b a = vneg (unit_diff a b).
Proof.
  unfold unit_diff. rewrite (norm_vsub_sym b a).
  destruct (Rltb 0 (norm (vsub a b))).
  - apply Vect3_eq; unfold vneg, sdiv, vsub; cbn [vx vy vz];
      unfold Rdiv; ring.
  - apply Vect3_eq; unfold vneg, zeros3; cbn [vx vy vz]; ring.
Qed.

Lemma coulomb_at_exchange q1 q2 r a b :
  smul q2 (coulomb_at q1 r b a) = vneg (smul q1 (coulomb_at q2 r a b)).
Proof.
  unfold coulomb_at. rewrite (norm_vsub_sym b a), (unit_diff_sym a b).
  destruct (xsqr (adjust_norm r (norm (vsub a b)))) as [x |].
  - apply Vect3_eq; unfold xdiv, vneg, sdiv, smul; cbn [vx vy vz];
      unfold Rdiv; ring.
  - apply Vect3_eq; unfold xdiv, vneg, smul, zeros3; cbn [vx vy vz]; ring.
Qed.

Lemma field_force_single_untracked q src p :
  track_position_history src = false ->
  field_force q (CoulombField_get_forces [src]) p =
  Ok (smul q (coulomb_at (get_charge src) (get_radius src) p (get_center src))).
Proof.
  intros Ht.
  assert (source_positions src [p] 2 = Ok [get_center src]) as Hsrc.
  { unfold source_positions. rewrite Ht. reflexivity. }
  unfold field_force, CoulombField_get_forces, py_sum.
  cbn [py_sum_from].
  rewrite (coulomb_force_pointwise src [p] None [get_center src] Hsrc eq_refl).
  cbn [bind py_add]. change (IZR 0) with 0. rewrite map_sadd_zero.
  cbn [zipWith]. rewrite py_getitem_single. reflexivity.
Qed.

(** X15.  Newton's third law for the Coulomb field: for two particles without
    history tracking and with the same suppression radius, the force that
    [add_field_force] computes on the first in the field of the second is
    the opposite of the force on the second in the field of the first, each
    taken at the particle's own centre. *)
Theorem coulomb_field_forces_are_opposite (p1 p2 : ChargedParticle) :
  track_position_history p1 = false ->
  track_position_history p2 = false ->
  get_radius p1 = get_radius p2 ->
  exists F,
    field_force (get_charge p1) (CoulombField_get_forces [p2]) (get_center p1)
      = Ok F /\
    field_force (get_charge p2) (CoulombField_get_forces [p1]) (get_center p2)
      = Ok (vneg F).
Proof.
  intros H1 H2 Hr.
  rewrite (field_force_single_untracked (get_charge p1) p2 (get_center p1) H2).
  rewrite (field_force_single_untracked (get_charge p2) p1 (get_center p2) H1).
  eexists. split; [reflexivity |].
  rewrite Hr. f_equal. apply coulomb_at_exchange.
Qed.

Lemma coulomb_field_forces_are_opposite_witness :
  exists F,
    field_force 1
      (CoulombField_get_forces
         [mkParticle (-2) 1 0.2 (sample 3) false 7200 zeros3 10 [] 0 (1 / 30)
            (sample 3, sample 3, sample 3) None])
      zeros3 = Ok F /\
    field_force (-2)
      (CoulombField_get_forces
         [mkParticle 1 1 0.2 zeros3 false 7200 zeros3 10 [] 0 (1 / 30)
            (zeros3, zeros3, zeros3) None])
      (sample 3) = Ok (vneg F).
Proof.
  exact (coulomb_field_forces_are_opposite
           (mkParticle 1 1 0.2 zeros3 false 7200 zeros3 10 [] 0 (1 / 30)
              (zeros3, zeros3, zeros3) None)
           (mkParticle (-2) 1 0.2 (sample 3) false 7200 zeros3 10 [] 0 (1 / 30)
              (sample 3, sample 3, sample 3) None)
           eq_refl eq_refl eq_refl).
Defined.

(** ** Propagating rings *)

Lemma update_rings_loop_length self radii :
  forall space, length (update_rings_loop self space radii) = length radii.
Proof.
  induction radii as [| r radii IH]; intros space; simpl;
    [reflexivity | now rewrite IH].
Qed.

Lemma update_rings_loop_nth self radii :
  forall space i, (i < length radii)%nat ->
    nth i (update_rings_loop self space radii) (mkRingCommand 0 0) =
    mkRingCommand
      (Rmax (Rmax (rings_time self - (space + INR i * spacing self)) 0
             * growth_rate self) 1e-3 / nth i radii 0)
      (exp (- width_decay_rate self
            * Rmax (rings_time self - (space + INR i * spacing self)) 0)).
Proof.
  induction radii as [| r radii IH]; intros space i Hi; [simpl in Hi; lia |].
  destruct i as [| i].
  - cbn [update_rings_loop nth]. change (INR 0) with 0.
    replace (space + 0 * spacing self) with space by ring. reflexivity.
  - cbn [update_rings_loop nth]. rewrite IH by (simpl in Hi; lia).
    rewrite S_INR.
    replace (space + spacing self + INR i * spacing self)
      with (space + (INR i + 1) * spacing self) by ring.
    reflexivity.
Qed.

Lemma exp_le_1 x : x <= 0 -> 0 < exp x <= 1.
Proof.
  intros Hx. split; [apply exp_pos |].
  destruct Hx as [Hx | ->]; [| rewrite exp_0; lra].
  left. rewrite <- exp_0. now apply exp_increasing.
Qed.

Lemma update_rings_command dt radii self i :
  dt <> 0 -> (i < length radii)%nat ->
  nth i (snd (update_rings dt radii self)) (mkRingCommand 0 0) =
  mkRingCommand
    (Rmax (Rmax (rings_time self + dt - INR i * spacing self) 0
           * growth_rate self) 1e-3 / nth i radii 0)
    (exp (- width_decay_rate self
          * Rmax (rings_time self + dt - INR i * spacing self) 0)).
Proof.
  intros Hdt Hi. unfold update_rings.
  destruct (Req_dec_T dt 0) as [E | _]; [contradiction |].
  cbn [snd]. rewrite update_rings_loop_nth by exact Hi.
  cbn [rings_time spacing growth_rate width_decay_rate].
  replace (rings_time self + dt - (0 + INR i * spacing self))
    with (rings_time self + dt - INR i * spacing self) by ring.
  reflexivity.
Qed.

(** X16.  One non-zero frame of [update_rings] advances the clock by [dt] and
    issues one command per ring; ring number [i] (radius read non-zero) is
    scaled so that its radius becomes
    max(max(time + dt - i * spacing, 0) * growth_rate, 1e-3), which is never
    below 1e-3, and its stroke width is set to
    exp(-width_decay_rate * max(time + dt - i * spacing, 0)), a value in
    (0, 1] when the decay rate is not negative. *)
Theorem update_rings_targets
    (dt : R) (radii : list R) (self : PropagatingRings) (i : nat) :
  dt <> 0 -> (i < length radii)%nat -> nth i radii 0 <> 0 ->
  let self' := fst (update_rings dt radii self) in
  let cmds := snd (update_rings dt radii self) in
  let cmd := nth i cmds (mkRingCommand 0 0) in
  let effective_time := Rmax (rings_time self + dt - INR i * spacing self) 0 in
  rings_time self' = rings_time self + dt /\
  length cmds = length radii /\
  scale_factor cmd * nth i radii 0 =
    Rmax (effective_time * growth_rate self) 1e-3 /\
  1e-3 <= scale_factor cmd * nth i radii 0 /\
  stroke_width cmd = exp (- width_decay_rate self * effective_time) /\
  (0 <= width_decay_rate self -> 0 < stroke_width cmd <= 1).
Proof.
  intros Hdt Hi Hr. cbv zeta.
  rewrite (update_rings_command dt radii self i Hdt Hi).
  cbn [scale_factor stroke_width].
  assert (forall T, T / nth i radii 0 * nth i radii 0 = T) as Hcancel
    by (intros T; field; exact Hr).
  rewrite Hcancel.
  split.
  { unfold update_rings. destruct (Req_dec_T dt 0); [contradiction |].
    reflexivity. }
  split.
  { unfold update_rings. destruct (Req_dec_T dt 0); [contradiction |].
    cbn [snd]. apply update_rings_loop_length. }
  split; [reflexivity |].
  split; [apply Rmax_r |].
  split; [reflexivity |].
  intros Hdecay. apply exp_le_1.
  pose proof (Rmax_r (rings_time self + dt - INR i * spacing self) 0).
  nra.
Qed.

Lemma update_rings_targets_witness :
  scale_factor
    (nth 1 (snd (update_rings 1 [2; 4] (mkPropagatingRings 2 0.25 1 1 0)))
       (mkRingCommand 0 0)) * nth 1 [2; 4] 0 =
  Rmax (Rmax (0 + 1 - INR 1 * 0.25) 0 * 2) 1e-3.
Proof.
  apply (update_rings_targets 1 [2; 4] (mkPropagatingRings 2 0.25 1 1 0) 1).
  - lra.
  - simpl; lia.
  - simpl; lra.
Defined.

(** X17.  Rings are emitted in order: with a non-negative spacing and growth
    rate, a ring later in the list never gets a larger target radius than an
    earlier one and (for a non-negative decay rate) never a smaller stroke
    width; and a ring whose start delay [i * spacing] has not yet elapsed is
    held at the minimal radius 1e-3 with stroke width 1. *)
Theorem update_rings_emitted_in_order
    (dt : R) (radii : list R) (self : PropagatingRings) (i j : nat) :
  dt <> 0 -> 0 <= spacing self -> 0 <= growth_rate self ->
  (i <= j)%nat -> (j < length radii)%nat ->
  nth i radii 0 <> 0 -> nth j radii 0 <> 0 ->
  let cmds := snd (update_rings dt radii self) in
  let ci := nth i cmds (mkRingCommand 0 0) in
  let cj := nth j cmds (mkRingCommand 0 0) in
  scale_factor cj * nth j radii 0 <= scale_factor ci * nth i radii 0 /\
  (0 <= width_decay_rate self -> stroke_width ci <= stroke_width cj) /\
  (rings_time self + dt <= INR j * spacing self ->
   scale_factor cj * nth j radii 0 = 1e-3 /\ stroke_width cj = 1).
Proof.
  intros Hdt Hs Hg Hij Hj Hri Hrj. cbv zeta.
  rewrite (update_rings_command dt radii self i Hdt) by lia.
  rewrite (update_rings_command dt radii self j Hdt Hj).
  cbn [scale_factor stroke_width].
  assert (forall r T, r <> 0 -> T / r * r = T) as Hcancel
    by (intros r T Hr; field; exact Hr).
  rewrite !Hcancel by assumption.
  set (ti := Rmax (rings_time self + dt - INR i * spacing self) 0).
  set (tj := Rmax (rings_time self + dt - INR j * spacing self) 0).
  assert (INR i <= INR j) as Hle by (apply le_INR; exact Hij).
  assert (0 <= tj <= ti) as [Htj Htji].
  { unfold ti, tj. split; [apply Rmax_r |].
    apply Rmax_case_strong; intros H1; apply Rmax_case_strong; intros H2; nra. }
  split; [| split].
  - apply Rle_max_compat_r. apply Rmult_le_compat_r; assumption.
  - intros Hd.
    assert (- width_decay_rate self * ti <= - width_decay_rate self * tj)
      as [Hlt | ->] by nra; [| lra].
    left. now apply exp_increasing.
  - intros Hlate.
    assert (tj = 0) as ->.
    { unfold tj. apply Rmax_right. lra. }
    rewrite Rmult_0_l, Rmult_0_r, exp_0. split; [| reflexivity].
    apply Rmax_right. lra.
Qed.

Lemma update_rings_emitted_in_order_witness :
  scale_factor
    (nth 1 (snd (update_rings 1 [2; 4] (mkPropagatingRings 2 0.25 1 1 0)))
       (mkRingCommand 0 0)) * nth 1 [2; 4] 0 <=
  scale_factor
    (nth 0 (snd (update_rings 1 [2; 4] (mkPropagatingRings 2 0.25 1 1 0)))
       (mkRingCommand 0 0)) * nth 0 [2; 4] 0.
Proof.
  apply (update_rings_emitted_in_order 1 [2; 4]
           (mkPropagatingRings 2 0.25 1 1 0) 0 1).
  - lra.
  - simpl; lra.
  - simpl; lra.
  - lia.
  - simpl; lia.
  - simpl; lra.
  - simpl; lra.
Defined.

(** ** Oscillating wave *)

Lemma sin_sqr_le_1 a : sin a * sin a <= 1.
Proof.
  pose proof (sin2_cos2 a) as H. unfold Rsqr in H.
  pose proof (Rle_0_sqr (cos a)) as Hc. unfold Rsqr in Hc. lra.
Qed.

Lemma py_div_nonzero a b : b <> 0 -> py_div a b = Ok (a / b).
Proof.
  intros Hb. unfold py_div. destruct (Req_dec_T b 0); [contradiction | reflexivity].
Qed.

Lemma py_div_zero a : py_div a 0 = Raise ZeroDivisionError.
Proof.
  unfold py_div. destruct (Req_dec_T 0 0) as [_ | H]; [reflexivity |].
  exfalso. apply H. reflexivity.
Qed.

Lemma xt_to_yz_returns self x t :
  wave_len self <> 0 ->
  xt_to_yz self x t =
  Ok (yz_at_phase self (TAU * t * wave_speed self / wave_len self) x).
Proof. intros HL. unfold xt_to_yz. now rewrite py_div_nonzero. Qed.

Lemma xt_to_yz_array_returns self xs t :
  wave_len self <> 0 ->
  xt_to_yz_array self xs t =
  Ok (map (yz_at_phase self (TAU * t * wave_speed self / wave_len self)) xs).
Proof. intros HL. unfold xt_to_yz_array. now rewrite py_div_nonzero. Qed.

(** X18.  With a wave length of 0, [xt_to_yz] raises [ZeroDivisionError]
    (the phase cannot be computed).  Otherwise it returns a pair, and the
    twist is a rotation: at every abscissa and time the pair has the same
    squared length as the untwisted pair of sines, so the wave never leaves
    the cylinder of squared radius y_amplitude^2 + z_amplitude^2 around the
    x axis, whatever the twist rate and the speed are. *)
Theorem xt_to_yz_within_amplitude (self : OscillatingWave) (x t : R) :
  (wave_len self = 0 -> xt_to_yz self x t = Raise ZeroDivisionError) /\
  (wave_len self <> 0 ->
   let phase := TAU * t * wave_speed self / wave_len self in
   let y_outs :=
     y_amplitude self * sin (TAU * x / wave_len self - phase - y_phase self) in
   let z_outs :=
     z_amplitude self * sin (TAU * x / wave_len self - phase - z_phase self) in
   exists y z,
     xt_to_yz self x t = Ok (y, z) /\
     y * y + z * z = y_outs * y_outs + z_outs * z_outs /\
     y * y + z * z <=
       y_amplitude self * y_amplitude self + z_amplitude self * z_amplitude self).
Proof.
  split.
  { intros HL. unfold xt_to_yz. rewrite HL, py_div_zero. reflexivity. }
  intros HL. cbv zeta. rewrite (xt_to_yz_returns self x t HL).
  unfold yz_at_phase.
  set (sy := sin (TAU * x / wave_len self
                  - TAU * t * wave_speed self / wave_len self - y_phase self)).
  set (sz := sin (TAU * x / wave_len self
                  - TAU * t * wave_speed self / wave_len self - z_phase self)).
  set (tw := x * twist_rate self * TAU).
  eexists. eexists. split; [reflexivity |].
  assert ((cos tw * (y_amplitude self * sy) - sin tw * (z_amplitude self * sz))
          * (cos tw * (y_amplitude self * sy) - sin tw * (z_amplitude self * sz))
          + (sin tw * (y_amplitude self * sy) + cos tw * (z_amplitude self * sz))
            * (sin tw * (y_amplitude self * sy) + cos tw * (z_amplitude self * sz))
          = y_amplitude self * sy * (y_amplitude self * sy)
            + z_amplitude self * sz * (z_amplitude self * sz)) as E.
  { pose proof (sin2_cos2 tw) as H. unfold Rsqr in H.
    transitivity ((sin tw * sin tw + cos tw * cos tw)
                  * (y_amplitude self * sy * (y_amplitude self * sy)
                     + z_amplitude self * sz * (z_amplitude self * sz)));
      [ring | rewrite H; ring]. }
  split; [exact E |].
  rewrite E.
  pose proof (sin_sqr_le_1 (TAU * x / wave_len self
                  - TAU * t * wave_speed self / wave_len self - y_phase self))
    as Hy.
  pose proof (sin_sqr_le_1 (TAU * x / wave_len self
                  - TAU * t * wave_speed self / wave_len self - z_phase self))
    as Hz.
  fold sy in Hy. fold sz in Hz.
  pose proof (Rle_0_sqr (y_amplitude self)) as Hay. unfold Rsqr in Hay.
  pose proof (Rle_0_sqr (z_amplitude self)) as Haz. unfold Rsqr in Haz.
  pose proof (Rle_0_sqr sy) as Hsy. unfold Rsqr in Hsy.
  pose proof (Rle_0_sqr sz) as Hsz. unfold Rsqr in Hsz.
  assert (y_amplitude self * sy * (y_amplitude self * sy)
          = y_amplitude self * y_amplitude self * (sy * sy)) as -> by ring.
  assert (z_amplitude self * sz * (z_amplitude self * sz)
          = z_amplitude self * z_amplitude self * (sz * sz)) as -> by ring.
  nra.
Qed.

(** The default wave (z amplitude 0.75, wave length 0.5, speed 1) with a
    twist rate of 2, at abscissa 2 and time 1. *)
Lemma xt_to_yz_within_amplitude_witness :
  exists y z,
    xt_to_yz (mkOscillatingWave 0 0.75 0 0 0.5 2 1 0 false) 2 1 = Ok (y, z) /\
    y * y + z * z <= 0 * 0 + 0.75 * 0.75.
Proof.
  destruct (proj2 (xt_to_yz_within_amplitude
                     (mkOscillatingWave 0 0.75 0 0 0.5 2 1 0 false) 2 1))
    as (y & z & E & _ & Hle).
  - simpl; lra.
  - exists y, z. split; [exact E | exact Hle].
Defined.

(** X19.  An untwisted wave travels: with [twist_rate = 0] and a non-zero
    wave length, the profile at time [t + s] is the profile at time [t]
    moved by [speed * s] along the x axis, and it repeats after one wave
    length in space; in all these calls a pair is returned. *)
Theorem xt_to_yz_travelling_wave (self : OscillatingWave) (x t s : R) :
  wave_len self <> 0 -> twist_rate self = 0 ->
  xt_to_yz self (x + wave_speed self * s) (t + s) = xt_to_yz self x t /\
  xt_to_yz self (x + wave_len self) t = xt_to_yz self x t /\
  exists yz, xt_to_yz self x t = Ok yz.
Proof.
  intros HL Htw. rewrite !xt_to_yz_returns by exact HL.
  unfold yz_at_phase. rewrite Htw. split; [| split].
  - replace (TAU * (x + wave_speed self * s) / wave_len self
             - TAU * (t + s) * wave_speed self / wave_len self)
      with (TAU * x / wave_len self
            - TAU * t * wave_speed self / wave_len self)
      by (field; exact HL).
    replace ((x + wave_speed self * s) * 0 * TAU) with (x * 0 * TAU) by ring.
    reflexivity.
  - assert (forall ph,
              sin (TAU * (x + wave_len self) / wave_len self
                   - TAU * t * wave_speed self / wave_len self - ph)
              = sin (TAU * x / wave_len self
                     - TAU * t * wave_speed self / wave_len self - ph)) as E.
    { intros ph.
      rewrite <- (sin_period (TAU * x / wave_len self
                     - TAU * t * wave_speed self / wave_len self - ph) 1).
      f_equal. unfold TAU. change (INR 1) with 1. field. exact HL. }
    rewrite !E.
    replace ((x + wave_len self) * 0 * TAU) with (x * 0 * TAU) by ring.
    reflexivity.
  - eexists. reflexivity.
Qed.

Lemma xt_to_yz_travelling_wave_witness :
  xt_to_yz (mkOscillatingWave 0 0.75 0 0 0.5 0 1 0 false) (2 + 1 * 3) (1 + 3)
  = xt_to_yz (mkOscillatingWave 0 0.75 0 0 0.5 0 1 0 false) 2 1.
Proof.
  apply (xt_to_yz_travelling_wave
           (mkOscillatingWave 0 0.75 0 0 0.5 0 1 0 false) 2 1 3).
  - simpl; lra.
  - reflexivity.
Defined.

(** X20.  The wave is periodic in time, twisted or not: with a non-zero wave
    length and speed, [xt_to_yz] returns the same pair at [t] and at
    [t + k * wave_len / speed] for every natural [k]. *)
Theorem xt_to_yz_time_period (self : OscillatingWave) (x t : R) (k : nat) :
  wave_len self <> 0 -> wave_speed self <> 0 ->
  xt_to_yz self x (t + INR k * wave_len self / wave_speed self)
  = xt_to_yz self x t /\
  exists yz, xt_to_yz self x t = Ok yz.
Proof.
  intros HL Hv. rewrite !xt_to_yz_returns by exact HL.
  split; [| eexists; reflexivity].
  unfold yz_at_phase.
  assert (forall ph,
            sin (TAU * x / wave_len self
                 - TAU * (t + INR k * wave_len self / wave_speed self)
                   * wave_speed self / wave_len self - ph)
            = sin (TAU * x / wave_len self
                   - TAU * t * wave_speed self / wave_len self - ph)) as E.
  { intros ph.
    rewrite <- (sin_period
                  (TAU * x / wave_len self
                   - TAU * (t + INR k * wave_len self / wave_speed self)
                     * wave_speed self / wave_len self - ph) k).
    f_equal. unfold TAU. field. split; assumption. }
  rewrite !E. reflexivity.
Qed.

Lemma xt_to_yz_time_period_witness :
  xt_to_yz (mkOscillatingWave 0.5 0.75 0 0 0.5 2 1 0 false) 2
    (1 + INR 3 * 0.5 / 1)
  = xt_to_yz (mkOscillatingWave 0.5 0.75 0 0 0.5 2 1 0 false) 2 1.
Proof.
  apply (xt_to_yz_time_period
           (mkOscillatingWave 0.5 0.75 0 0 0.5 2 1 0 false) 2 1 3).
  - simpl; lra.
  - simpl; lra.
Defined.

Lemma zipWith_map_fst (xs : list R) (f : R -> R * R) :
  map (fun pt : R * R * R => fst (fst pt))
    (zipWith (fun x yz => (x, fst yz, snd yz)) xs (map f xs)) = xs.
Proof.
  induction xs as [| x xs IH]; [reflexivity |].
  cbn [map zipWith fst]. now rewrite IH.
Qed.

Lemma zipWith_map_nth (xs : list R) (f : R -> R * R) i :
  (i < length xs)%nat ->
  nth i (zipWith (fun x yz => (x, fst yz, snd yz)) xs (map f xs)) (0, 0, 0) =
  (nth i xs 0, fst (f (nth i xs 0)), snd (f (nth i xs 0))).
Proof.
  revert i. induction xs as [| x xs IH]; intros i Hi; [simpl in Hi; lia |].
  destruct i as [| i]; [reflexivity |].
  cbn [map zipWith nth]. apply IH. simpl in Hi. lia.
Qed.

(** X21.  [update_points] on a wave of wave length 0 raises
    [ZeroDivisionError] on every frame, also when the clock is stopped and
    when there is no sample abscissa (the phase is computed before the
    samples are looked at).  With a non-zero wave length it returns one point
    per abscissa, in order, each made of the abscissa and the pair that
    [xt_to_yz] gives for it at the wave's time after the call; that time has
    advanced by [dt] when the clock runs and not at all after [stop_clock],
    so the points of a stopped wave do not depend on [dt]. *)
Theorem update_points_needs_wave_len
    (self : OscillatingWave) (dt dt' : R) (xs : list R) :
  (wave_len self = 0 ->
   update_points dt xs self = Raise ZeroDivisionError /\
   update_points dt [] (stop_clock self) = Raise ZeroDivisionError) /\
  (wave_len self <> 0 ->
   exists self' pts,
     update_points dt xs self = Ok (self', pts) /\
     wave_time self' =
       (if clock_is_stopped self then wave_time self else wave_time self + dt) /\
     length pts = length xs /\
     (forall i, (i < length xs)%nat ->
        exists y z,
          nth i pts (0, 0, 0) = (nth i xs 0, y, z) /\
          xt_to_yz self' (nth i xs 0) (wave_time self') = Ok (y, z)) /\
     update_points dt xs (stop_clock self) =
       update_points dt' xs (stop_clock self) /\
     exists pts', update_points dt xs (start_clock (stop_clock self)) =
                    Ok (set_wave_clock (wave_time self + dt) false self, pts')).
Proof.
  split.
  - intros HL. unfold update_points, xt_to_yz_array.
    split.
    + destruct (clock_is_stopped self); cbn [wave_len wave_speed wave_time
        set_wave_clock]; rewrite HL, py_div_zero; reflexivity.
    + cbn [clock_is_stopped stop_clock set_wave_clock wave_len].
      rewrite HL, py_div_zero. reflexivity.
  - intros HL. unfold update_points.
    set (self' := if clock_is_stopped self then self
                  else set_wave_clock (wave_time self + dt)
                         (clock_is_stopped self) self).
    assert (wave_len self' = wave_len self) as HL'
      by (unfold self'; destruct (clock_is_stopped self); reflexivity).
    rewrite (xt_to_yz_array_returns self' xs (wave_time self'))
      by (rewrite HL'; exact HL).
    cbn [bind]. eexists. eexists. split; [reflexivity |].
    split; [unfold self'; destruct (clock_is_stopped self); reflexivity |].
    split; [rewrite zipWith_length by (now rewrite length_map); reflexivity |].
    split.
    + intros i Hi. rewrite zipWith_map_nth by exact Hi.
      eexists. eexists. split; [reflexivity |].
      rewrite (xt_to_yz_returns self' _ _) by (rewrite HL'; exact HL).
      now destruct (yz_at_phase _ _ _).
    + split; [reflexivity |].
      cbn [clock_is_stopped start_clock stop_clock set_wave_clock wave_time].
      rewrite xt_to_yz_array_returns by exact HL.
      cbn [bind]. eexists. reflexivity.
Qed.

(** Three samples on the default wave (wave length 0.5), clock running. *)
Lemma update_points_needs_wave_len_witness :
  exists self' pts,
    update_points 0.1 [0; 0.25; 0.5]
      (mkOscillatingWave 0 0.75 0 0 0.5 0 1 0 false) = Ok (self', pts) /\
    wave_time self' = 0 + 0.1 /\
    length pts = 3%nat.
Proof.
  destruct (proj2 (update_points_needs_wave_len
                     (mkOscillatingWave 0 0.75 0 0 0.5 0 1 0 false) 0.1 0
                     [0; 0.25; 0.5]))
    as (self' & pts & E & Ht & HL & _).
  - simpl; lra.
  - exists self', pts. split; [exact E |]. split; [exact Ht | exact HL].
Defined.

(** ** Acceleration vector *)





(** ** The oscillating source of the scene *)

(** X23.  [oscillation_function] keeps the particle within [amplitude] times
    the length of [direction] from the origin, starts at the origin at time
    0, and, for a non-zero frequency, returns to the same point after
    every whole number of periods [1 / frequency]. *)
Theorem oscillation_function_bounded_periodic
    (amplitude frequency : R) (direction : Vect3) (time : R) (k : nat) :
  norm (oscillation_function amplitude frequency direction time)
    <= Rabs amplitude * norm direction /\
  oscillation_function amplitude frequency direction 0 = zeros3 /\
  (frequency <> 0 ->
   oscillation_function amplitude frequency direction
     (time + INR k / frequency)
   = oscillation_function amplitude frequency direction time).
Proof.
  unfold oscillation_function. split; [| split].
  - rewrite norm_smul, Rabs_mult.
    pose proof (Rabs_pos amplitude) as Ha.
    pose proof (norm_nonneg direction) as Hd.
    assert (Rabs (sin (TAU * frequency * time)) <= 1) as Hs.
    { apply Rabs_le. pose proof (SIN_bound (TAU * frequency * time)). lra. }
    pose proof (Rabs_pos (sin (TAU * frequency * time))) as Hs0.
    apply Rmult_le_compat_r; [exact Hd |].
    rewrite <- (Rmult_1_r (Rabs amplitude)) at 2.
    apply Rmult_le_compat_l; assumption.
  - rewrite Rmult_0_r, sin_0, Rmult_0_r.
    apply Vect3_eq; unfold smul, zeros3; cbn [vx vy vz]; ring.
  - intros Hf.
    replace (TAU * frequency * (time + INR k / frequency))
      with (TAU * frequency * time + 2 * INR k * PI)
      by (unfold TAU; field; exact Hf).
    rewrite sin_period. reflexivity.
Qed.

Lemma sin_second_difference a b :
  sin (a + b) + sin (a - b) - 2 * sin a
  = - (4 * (sin (b / 2) * sin (b / 2))) * sin a.
Proof.
  rewrite sin_plus, sin_minus.
  replace (cos b) with (cos (2 * (b / 2))) by (f_equal; field).
  rewrite cos_2a_sin. ring.
Qed.

Lemma update_moved_no_forces h c s s' :
  force_updaters s = [] -> h <> 0 ->
  update h (move_to c s) = Ok s' ->
  force_updaters s' = [] /\ time_step s' = h /\
  recent_positions s' =
    (snd (fst (recent_positions s)), snd (recent_positions s), c).
Proof.
  intros Hu Hh H.
  destruct (update_effect h (move_to c s) s' Hh H)
    as (s1 & Hrun & _ & Hts & Hr & _ & _ & Hf & Hc & _).
  cbn [move_to set_center force_updaters] in Hrun, Hf.
  rewrite Hu in Hrun, Hf. cbn [run_updaters] in Hrun.
  injection Hrun as <-.
  split; [exact Hf |]. split; [exact Hts |].
  rewrite Hr, Hc. reflexivity.
Qed.

(** X24.  The estimator applied to the scene's motion.  A particle without
    registered forces is moved, frame after frame with the same time step
    [h], to the values of [oscillation_function] at [t - h], [t] and
    [t + h], each move followed by [update(h)].  Its recent positions are
    then these three values, oldest first, and (when consecutive ones differ
    beyond tolerance) [get_acceleration] returns the position at [t] times
    -4 sin^2(pi * frequency * h) / h^2: the estimate points back towards the
    centre of the oscillation, as for a harmonic oscillator. *)
Theorem get_acceleration_of_oscillation
    (amplitude frequency : R) (direction : Vect3) (t h : R)
    (s s1 s2 s3 : ChargedParticle) :
  let pos := oscillation_function amplitude frequency direction in
  force_updaters s = [] -> h <> 0 ->
  update h (move_to (pos (t - h)) s) = Ok s1 ->
  update h (move_to (pos t) s1) = Ok s2 ->
  update h (move_to (pos (t + h)) s2) = Ok s3 ->
  allclose (pos (t - h)) (pos t) = false ->
  allclose (pos t) (pos (t + h)) = false ->
  recent_positions s3 = (pos (t - h), pos t, pos (t + h)) /\
  get_acceleration s3 =
    smul (- (4 * (sin (PI * frequency * h) * sin (PI * frequency * h))) / h ^ 2)
      (pos t).
Proof.
  cbv zeta. intros Hu Hh E1 E2 E3 H01 H12.
  destruct (update_moved_no_forces h _ s s1 Hu Hh E1) as (Hu1 & _ & Hr1).
  destruct (update_moved_no_forces h _ s1 s2 Hu1 Hh E2) as (Hu2 & _ & Hr2).
  destruct (update_moved_no_forces h _ s2 s3 Hu2 Hh E3) as (_ & Hstep & Hr3).
  rewrite Hr2, Hr1 in Hr3. cbn [fst snd] in Hr3.
  split; [exact Hr3 |].
  rewrite get_acceleration_eq, Hr3, Hstep, H01, H12. cbn [orb].
  unfold oscillation_function.
  pose proof (sin_second_difference (TAU * frequency * t)
                (TAU * frequency * h)) as E.
  replace (TAU * frequency * t + TAU * frequency * h)
    with (TAU * frequency * (t + h)) in E by ring.
  replace (TAU * frequency * t - TAU * frequency * h)
    with (TAU * frequency * (t - h)) in E by ring.
  replace (TAU * frequency * h / 2) with (PI * frequency * h) in E
    by (unfold TAU; field).
  set (a1 := sin (TAU * frequency * (t + h))) in *.
  set (a2 := sin (TAU * frequency * (t - h))) in *.
  set (a0 := sin (TAU * frequency * t)) in *.
  set (w := sin (PI * frequency * h)) in *.
  assert (a1 + a2 = 2 * a0 - 4 * (w * w) * a0) as E' by lra.
  apply Vect3_eq; unfold sdiv, vsub, vadd, smul; cbn [vx vy vz].
  - transitivity (amplitude * (a1 + a2 - 2 * a0) * vx direction / h ^ 2);
      [field; exact Hh | rewrite E'; field; exact Hh].
  - transitivity (amplitude * (a1 + a2 - 2 * a0) * vy direction / h ^ 2);
      [field; exact Hh | rewrite E'; field; exact Hh].
  - transitivity (amplitude * (a1 + a2 - 2 * a0) * vz direction / h ^ 2);
      [field; exact Hh | rewrite E'; field; exact Hh].
Qed.

(** ** Scene configuration *)

Lemma dict_get_set_eq d key value :
  dict_get (dict_set d key value) key = Some value.
Proof.
  induction d as [| [k v] d IH]; cbn [dict_set dict_get].
  - now rewrite String.eqb_refl.
  - destruct (String.eqb key k) eqn:E; cbn [dict_get]; rewrite E;
      [reflexivity | exact IH].
Qed.

Lemma dict_get_set_neq d key value key' :
  key' <> key -> dict_get (dict_set d key value) key' = dict_get d key'.
Proof.
  intros Hne. induction d as [| [k v] d IH]; cbn [dict_set dict_get].
  - now rewrite (proj2 (String.eqb_neq key' key) Hne).
  - destruct (String.eqb_spec key k) as [<- | Hk]; cbn [dict_get].
    + now rewrite (proj2 (String.eqb_neq key' key) Hne).
    + now rewrite IH.
Qed.

Lemma dict_get_absent d key :
  ~ In key (map fst d) -> dict_get d key = None.
Proof.
  induction d as [| [k v] d IH]; intros Hnot; [reflexivity |].
  cbn [dict_get]. destruct (String.eqb_spec key k) as [-> | Hk].
  - exfalso. apply Hnot. now left.
  - apply IH. intros Hin. apply Hnot. now right.
Qed.

Lemma dict_get_update old items key :
  NoDup (map fst items) ->
  dict_get (dict_update old items) key =
  match dict_get items key with
  | Some v => Some v
  | None => dict_get old key
  end.
Proof.
  unfold dict_update. revert old.
  induction items as [| [k v] items IH]; intros old Hnd; [reflexivity |].
  cbn [map fst] in Hnd. inversion Hnd as [| ? ? Hnot Hnd']; subst.
  cbn [fold_left fst snd dict_get]. rewrite (IH _ Hnd').
  destruct (String.eqb_spec key k) as [-> | Hk].
  - rewrite (dict_get_absent items k Hnot). apply dict_get_set_eq.
  - now rewrite (dict_get_set_neq old k v key Hk).
Qed.

Lemma update_config_lookup updates :
  forall attrs,
    NoDup (map fst updates) ->
    (forall key v, In key (map fst updates) -> dict_get attrs key = Some v ->
                   isinstance_dict v = true) ->
    exists attrs',
      _update_config attrs updates = Ok attrs' /\
      forall key,
        dict_get attrs' key =
        match dict_get updates key with
        | None => dict_get attrs key
        | Some (PyDict items) =>
            match dict_get attrs key with
            | Some (PyDict old) => Some (PyDict (dict_update old items))
            | _ => Some (PyDict items)
            end
        | Some value => Some value
        end.
Proof.
  induction updates as [| [k value] updates IH]; intros attrs Hnd Hdicts.
  - exists attrs. split; reflexivity.
  - cbn [map fst] in Hnd. inversion Hnd as [| ? ? Hnot Hnd']; subst.
    cbn [_update_config].
    assert (exists stored,
              match dict_get attrs k with
              | Some target =>
                  if isinstance_dict value then
                    match target, value with
                    | PyDict old, PyDict items =>
                        Ok (dict_set attrs k (PyDict (dict_update old items)))
                    | _, _ => Raise AttributeError
                    end
                  else Ok (dict_set attrs k value)
              | None => Ok (dict_set attrs k value)
              end = Ok (dict_set attrs k stored) /\
              stored =
              match value with
              | PyDict items =>
                  match dict_get attrs k with
                  | Some (PyDict old) => PyDict (dict_update old items)
                  | _ => PyDict items
                  end
              | _ => value
              end) as (stored & -> & Hstored).
    { destruct (dict_get attrs k) as [target |] eqn:Hk.
      - pose proof (Hdicts k target (or_introl eq_refl) Hk) as Htarget.
        destruct target as [old | ?]; [| discriminate].
        destruct value as [items | ?]; cbn [isinstance_dict];
          eexists; split; reflexivity.
      - exists value. split; [reflexivity |]. now destruct value. }
    cbn [bind].
    destruct (IH (dict_set attrs k stored) Hnd') as (attrs' & Hrun & Hget).
    { intros key v Hin Hv.
      assert (key <> k) as Hne by (intros ->; contradiction).
      rewrite (dict_get_set_neq attrs k stored key Hne) in Hv.
      apply (Hdicts key v); [now right | exact Hv]. }
    exists attrs'. split; [exact Hrun |].
    intros key. rewrite Hget. cbn [dict_get].
    destruct (String.eqb_spec key k) as [-> | Hne].
    + rewrite (dict_get_absent updates k Hnot), dict_get_set_eq, Hstored.
      destruct value as [items | ?]; [| reflexivity].
      destruct (dict_get attrs k) as [[old | ?] |]; reflexivity.
    + rewrite (dict_get_set_neq attrs k stored key Hne). reflexivity.
Qed.

(** X25.  [_update_config] called on attributes that are all dictionaries (as
    in [__init__]) with updates that have one entry per key never raises, and
    afterwards every attribute reads as follows: untouched when the updates
    do not name it; the update's value when that is not a dictionary or the
    attribute did not exist; otherwise the old dictionary updated, entry by
    entry, with the new one. *)
Theorem update_config_merges_one_level
    (attrs updates : list (string * pyobj)) :
  NoDup (map fst updates) ->
  (forall key v, dict_get attrs key = Some v -> isinstance_dict v = true) ->
  exists attrs',
    _update_config attrs updates = Ok attrs' /\
    forall key,
      dict_get attrs' key =
      match dict_get updates key with
      | None => dict_get attrs key
      | Some (PyDict items) =>
          match dict_get attrs key with
          | Some (PyDict old) => Some (PyDict (dict_update old items))
          | _ => Some (PyDict items)
          end
      | Some value => Some value
      end.
Proof.
  intros Hnd Hdicts. apply update_config_lookup; [exact Hnd |].
  intros key v _ Hv. apply (Hdicts key v Hv).
Qed.

Lemma update_config_merges_one_level_witness :
  exists attrs',
    _update_config
      [("oscillation"%string,
        PyDict [("amplitude"%string, PyAtom "0.25");
                ("frequency"%string, PyAtom "0.5")])]
      [("oscillation"%string, PyDict [("frequency"%string, PyAtom "2")]);
       ("origin"%string, PyAtom "ORIGIN")] = Ok attrs' /\
    dict_get attrs' "origin" = Some (PyAtom "ORIGIN").
Proof.
  destruct (update_config_merges_one_level
              [("oscillation"%string,
                PyDict [("amplitude"%string, PyAtom "0.25");
                        ("frequency"%string, PyAtom "0.5")])]
              [("oscillation"%string,
                PyDict [("frequency"%string, PyAtom "2")]);
               ("origin"%string, PyAtom "ORIGIN")])
    as (attrs' & Hrun & Hget).
  - repeat constructor; simpl; intuition discriminate.
  - intros key v. cbn [dict_get].
    destruct (String.eqb key "oscillation"); [| discriminate].
    intros [= <-]. reflexivity.
  - exists attrs'. split; [exact Hrun |]. rewrite Hget. reflexivity.
Defined.

(** X26.  The merge of [_update_config] stops at the first level.  When an
    attribute and its update are both dictionaries (each with one entry per
    key), an entry of the attribute survives exactly when the update has no
    entry with that key; an entry of the update always ends up in the
    attribute as it is, so a dictionary nested one level further down
    replaces the old nested dictionary, whose other entries are lost. *)
Theorem update_config_replaces_nested
    (attrs updates old items : list (string * pyobj)) (key : string) :
  NoDup (map fst updates) -> NoDup (map fst items) ->
  (forall k v, dict_get attrs k = Some v -> isinstance_dict v = true) ->
  dict_get attrs key = Some (PyDict old) ->
  dict_get updates key = Some (PyDict items) ->
  exists attrs' merged,
    _update_config attrs updates = Ok attrs' /\
    dict_get attrs' key = Some (PyDict merged) /\
    (forall k v, dict_get items k = Some v -> dict_get merged k = Some v) /\
    (forall k, dict_get items k = None -> dict_get merged k = dict_get old k).
Proof.
  intros Hnd Hndi Hdicts Hold Hitems.
  destruct (update_config_lookup updates attrs Hnd) as (attrs' & Hrun & Hget).
  { intros k v _ Hv. apply (Hdicts k v Hv). }
  exists attrs', (dict_update old items).
  split; [exact Hrun |]. split.
  - rewrite Hget, Hitems, Hold. reflexivity.
  - split.
    + intros k v Hk. now rewrite (dict_get_update old items k Hndi), Hk.
    + intros k Hk. now rewrite (dict_get_update old items k Hndi), Hk.
Qed.

Lemma update_config_replaces_nested_witness :
  exists attrs' merged,
    _update_config
      [("visualization"%string,
        PyDict [("show_acceleration"%string, PyAtom "True");
                ("particle_config"%string,
                 PyDict [("track_position_history"%string, PyAtom "True");
                         ("radius"%string, PyAtom "0.15")])])]
      [("visualization"%string,
        PyDict [("particle_config"%string,
                 PyDict [("radius"%string, PyAtom "0.3")])])] = Ok attrs' /\
    dict_get attrs' "visualization" = Some (PyDict merged) /\
    dict_get merged "particle_config" =
      Some (PyDict [("radius"%string, PyAtom "0.3")]) /\
    dict_get merged "show_acceleration" = Some (PyAtom "True").
Proof.
  destruct (update_config_replaces_nested
              [("visualization"%string,
                PyDict [("show_acceleration"%string, PyAtom "True");
                        ("particle_config"%string,
                         PyDict [("track_position_history"%string,
                                  PyAtom "True");
                                 ("radius"%string, PyAtom "0.15")])])]
              [("visualization"%string,
                PyDict [("particle_config"%string,
                         PyDict [("radius"%string, PyAtom "0.3")])])]
              [("show_acceleration"%string, PyAtom "True");
               ("particle_config"%string,
                PyDict [("track_position_history"%string, PyAtom "True");
                        ("radius"%string, PyAtom "0.15")])]
              [("particle_config"%string,
                PyDict [("radius"%string, PyAtom "0.3")])]
              "visualization")
    as (attrs' & merged & Hrun & Hget & Hnew & Hkept).
  - repeat constructor; simpl; intuition discriminate.
  - repeat constructor; simpl; intuition discriminate.
  - intros k v. cbn [dict_get].
    destruct (String.eqb k "visualization"); [| discriminate].
    intros [= <-]. reflexivity.
  - reflexivity.
  - reflexivity.
  - exists attrs', merged. split; [exact Hrun |]. split; [exact Hget |].
    split; [apply Hnew; reflexivity | rewrite Hkept; reflexivity].
Defined.

(** ** A source that never moves *)

Lemma list_set_Forall {A : Type} (P : A -> Prop) v l :
  P v -> Forall P l -> forall n, Forall P (list_set n v l).
Proof.
  intros Hv Hl. induction Hl as [| a l Ha Hl IH]; intros n.
  - destruct n; constructor.
  - destruct n; cbn [list_set]; constructor; auto.
Qed.

Lemma setitem_Forall {A : Type} (P : A -> Prop) arr i v arr' :
  setitem arr i v = Ok arr' -> P v -> Forall P arr -> Forall P arr'.
Proof.
  unfold setitem. destruct (resolve_index i (length arr)) as [n | e];
    cbn [bind]; [| discriminate].
  intros [= <-] Hv Hl. now apply list_set_Forall.
Qed.

Lemma skipn_Forall {A : Type} (P : A -> Prop) n (l : list A) :
  Forall P l -> Forall P (skipn n l).
Proof.
  intros Hl. rewrite <- (firstn_skipn n l) in Hl.
  apply Forall_app in Hl. apply Hl.
Qed.

Lemma repeat_Forall {A : Type} (P : A -> Prop) a n :
  P a -> Forall P (repeat a n).
Proof. intros Ha. induction n; simpl; constructor; auto. Qed.

Lemma assign_front_from_back_Forall {A : Type} (P : A -> Prop) k arr arr' :
  assign_front_from_back k arr = Ok arr' -> Forall P arr -> Forall P arr'.
Proof.
  unfold assign_front_from_back. intros H Hl.
  pose proof (skipn_Forall P (slice_bound k (length arr)) arr Hl) as Hs.
  destruct (Nat.eqb _ _).
  - injection H as <-. apply Forall_app. split; assumption.
  - destruct (skipn (slice_bound k (length arr)) arr) as [| row [| ? ?]] eqn:E;
      try discriminate.
    injection H as <-. apply Forall_app. split; [| assumption].
    apply repeat_Forall. now inversion Hs.
Qed.

Lemma nth_all_zero l i :
  Forall (eq zeros3) l -> nth i l zeros3 = zeros3.
Proof.
  intros Hl. revert i. induction Hl as [| a l Ha Hl IH]; intros i.
  - now destruct i.
  - destruct i; cbn [nth]; [now symmetry | apply IH].
Qed.

Lemma add_to_position_history_all_zero s s' :
  add_to_position_history s = Ok s' ->
  get_acceleration s = zeros3 ->
  (forall h, history s = Some h -> Forall (eq zeros3) (acceleration_history h)) ->
  exists h', s' = set_history (Some h') s /\
             Forall (eq zeros3) (acceleration_history h').
Proof.
  unfold add_to_position_history. intros H Hacc Hzero.
  destruct (history s) as [h |]; [| discriminate].
  specialize (Hzero h eq_refl). rewrite Hacc in H.
  destruct (history_size s <=? history_index h + 1)%Z.
  - destruct (assign_front_from_back (history_size s / 2) (position_history h))
      as [ph | e]; cbn [bind] in H; [| discriminate].
    destruct (assign_front_from_back (history_size s / 2)
                (acceleration_history h)) as [ah | e] eqn:Ea;
      cbn [bind] in H; [| discriminate].
    destruct (setitem ph _ _) as [ph' | e]; cbn [bind] in H; [| discriminate].
    destruct (setitem ah _ _) as [ah' | e] eqn:Es; cbn [bind] in H;
      [| discriminate].
    injection H as <-. eexists. split; [reflexivity |].
    cbn [acceleration_history].
    apply (setitem_Forall _ _ _ _ _ Es eq_refl).
    apply (assign_front_from_back_Forall _ _ _ _ Ea Hzero).
  - cbn [bind] in H.
    destruct (setitem (position_history h) _ _) as [ph' | e];
      cbn [bind] in H; [| discriminate].
    destruct (setitem (acceleration_history h) _ _) as [ah' | e] eqn:Es;
      cbn [bind] in H; [| discriminate].
    injection H as <-. eexists. split; [reflexivity |].
    cbn [acceleration_history].
    apply (setitem_Forall _ _ _ _ _ Es eq_refl Hzero).
Qed.

Lemma update_never_accelerated dt s s' :
  never_accelerated s -> update dt s = Ok s' -> never_accelerated s'.
Proof.
  intros (Hf & Hrec & Hz) H.
  rewrite (update_no_updaters dt s Hf) in H.
  destruct (Req_dec_T dt 0) as [-> | Hdt].
  { rewrite increment_clock_zero in H. injection H as <-.
    repeat split; assumption. }
  destruct (track_position_history s) eqn:Ht.
  - rewrite (increment_clock_tracking dt s Hdt Ht) in H.
    rewrite Hrec in H. cbn [fst snd] in H.
    apply add_to_position_history_all_zero in H.
    + destruct H as (h' & -> & Hz'). repeat split; assumption.
    + rewrite get_acceleration_estimate.
      apply acceleration_estimate_rest_first.
    + intros h Hh. cbn [history set_recent_positions set_clock] in Hh.
      rewrite Hh in Hz. exact Hz.
  - rewrite (increment_clock_untracked dt s Hdt Ht) in H.
    injection H as <-. rewrite Hrec. repeat split; try assumption.
Qed.

Lemma run_updates_never_accelerated dts :
  forall s s', never_accelerated s -> history_ok s ->
               run_updates dts s = Ok s' ->
               never_accelerated s' /\ history_ok s' /\
               track_position_history s' = track_position_history s.
Proof.
  induction dts as [| dt dts IH]; intros s s' Hq Hok H.
  - injection H as <-. split; [exact Hq | split; [exact Hok | reflexivity]].
  - cbn [run_updates] in H.
    destruct (update dt s) as [s1 | e] eqn:E; cbn [bind] in H; [| discriminate].
    destruct (IH s1 s' (update_never_accelerated dt s s1 Hq E)
                (update_history_ok dt s s1 Hok E) H) as (Hq' & Hok' & Ht').
    split; [exact Hq' | split; [exact Hok' |]].
    rewrite Ht'. apply (update_track dt s s1 E).
Qed.

Lemma lorentz_at_zero_acceleration q r c epsilon0 pt ctr :
  lorentz_at q r c epsilon0 pt ctr zeros3 = zeros3.
Proof.
  unfold lorentz_at, perpendicular_part.
  destruct (xscale _ _) as [x |]; [| reflexivity].
  apply Vect3_eq; unfold xdiv, sdiv, smul, vsub, vsum, vmul, zeros3;
    cbn [vx vy vz]; unfold Rdiv; ring.
Qed.

Lemma zipWith_all_zero {X : Type} (f : X -> Vect3 -> Vect3) :
  (forall x, f x zeros3 = zeros3) ->
  forall l accs, Forall (eq zeros3) accs -> length l = length accs ->
                 zipWith f l accs = repeat zeros3 (length l).
Proof.
  intros Hf. induction l as [| x l IH]; intros accs Hz Hlen; [reflexivity |].
  destruct accs as [| a accs]; [discriminate |].
  inversion Hz as [| ? ? Ha Hz']; subst.
  cbn [zipWith length repeat]. rewrite Hf, (IH accs Hz'); [reflexivity |].
  simpl in Hlen. lia.
Qed.

Lemma get_past_acceleration_all_zero s delays accs :
  history_ok s -> never_accelerated s ->
  get_past_acceleration s delays = Ok accs -> Forall (eq zeros3) accs.
Proof.
  intros Hok (_ & _ & Hz). unfold get_past_acceleration.
  destruct (history s) as [h |] eqn:Hh; [| discriminate].
  destruct (history_ok_bounds s h Hok Hh) as [_ Ba].
  rewrite (get_info_from_delays_eq s h _ delays Hh Ba).
  intros [= <-].
  destruct (Nat.eqb _ 0); [apply repeat_Forall; reflexivity |].
  destruct (_ <? 0)%Z; apply Forall_forall; intros x Hx;
    apply in_map_iff in Hx; destruct Hx as (d & <- & _);
    symmetry; apply nth_all_zero; exact Hz.
Qed.

(** X27.  A charge that never moves radiates nothing: for a particle
    constructed with history tracking and then only updated, frame after
    frame with any frame times, with no force registered, [lorentz_force]
    with non-zero [c] and [epsilon0] returns the zero vector at every query
    point. *)
Theorem stationary_charge_radiates_nothing
    (point : Vect3) (q m rad : R) (hs : Z) (n : nat) (dts : list R)
    (p0 p : ChargedParticle) (points : list Vect3)
    (radius : option R) (c epsilon0 : R) :
  ChargedParticle_init point q m rad true hs n = Ok p0 ->
  run_updates dts p0 = Ok p ->
  c <> 0 -> epsilon0 <> 0 ->
  lorentz_force points p radius c epsilon0 =
    Ok (repeat zeros3 (length points)).
Proof.
  intros Hinit Hrun _ _.
  pose proof (ChargedParticle_init_history_ok _ _ _ _ _ _ _ _ Hinit) as Hok0.
  assert (never_accelerated p0) as Hq0.
  { revert Hinit. rewrite ChargedParticle_init_eq.
    destruct (true && (hs <? 0)%Z); [discriminate |].
    intros [= <-]. repeat split. cbn [history acceleration_history].
    apply repeat_Forall. reflexivity. }
  destruct (run_updates_never_accelerated dts p0 p Hq0 Hok0 Hrun)
    as (Hq & Hok & Ht).
  destruct (ChargedParticle_init_fields _ _ _ _ _ _ _ _ Hinit)
    as (_ & _ & _ & _ & _ & Ht0 & _).
  rewrite Ht0 in Ht.
  destruct (source_positions_ok p points c Hok) as (centers & Hc & Hlen).
  destruct (proj2 (tracked_queries_succeed p
                     (zipWith (fun pt ctr => norm (vsub pt ctr) / c)
                        points centers) Hok Ht))
    as (accs & Ha & Hlena).
  rewrite zipWith_length in Hlena by lia.
  assert (length accs = length points) as Hlena' by lia.
  rewrite (lorentz_force_pointwise p points radius c epsilon0 centers accs
             Hc Hlen Ha Hlena').
  f_equal.
  rewrite (zipWith_all_zero
             (fun pc acc =>
                lorentz_at (get_charge p) (radius_or_default p radius) c
                  epsilon0 (fst pc) (snd pc) acc)).
  - rewrite length_combine. f_equal. lia.
  - intros x. apply lorentz_at_zero_acceleration.
  - apply (get_past_acceleration_all_zero p _ accs Hok Hq Ha).
  - rewrite length_combine. lia.
Qed.

Lemma stationary_charge_radiates_nothing_witness :
  exists p0 p,
    ChargedParticle_init zeros3 1 1 0.2 true 8 10 = Ok p0 /\
    run_updates [1] p0 = Ok p /\
    lorentz_force [sample 1] p (Some 1) 2 0.025 =
      Ok (repeat zeros3 (length [sample 1])).
Proof.
  assert (ChargedParticle_init zeros3 1 1 0.2 true 8 10 =
          Ok (mkParticle 1 1 0.2 zeros3 true 8 zeros3 10 [] 0 (1 / 30)
                (zeros3, zeros3, zeros3)
                (Some (mkHistory (repeat zeros3 8) (repeat zeros3 8) (-1)))))
    as Hinit by (rewrite ChargedParticle_init_eq; reflexivity).
  assert (run_updates [1]
            (mkParticle 1 1 0.2 zeros3 true 8 zeros3 10 [] 0 (1 / 30)
               (zeros3, zeros3, zeros3)
               (Some (mkHistory (repeat zeros3 8) (repeat zeros3 8) (-1)))) =
          Ok (mkParticle 1 1 0.2 zeros3 true 8 zeros3 10 [] (0 + 1) 1
                (zeros3, zeros3, zeros3)
                (Some (mkHistory
                         (list_set (Z.to_nat (-1 + 1)) zeros3 (repeat zeros3 8))
                         (list_set (Z.to_nat (-1 + 1))
                            (acceleration_estimate (zeros3, zeros3, zeros3) 1)
                            (repeat zeros3 8))
                         (-1 + 1)%Z)))) as Hrun.
  { cbn [run_updates].
    rewrite <- (frame_step 1 zeros3 1 1 0.2 zeros3 8 zeros3 10 0 (1 / 30)
                  zeros3 zeros3 zeros3 (repeat zeros3 8) (repeat zeros3 8) (-1))
      by (simpl; lra || lia).
    unfold move_to, set_center. cbn [charge mass sphere_radius
      track_position_history history_size velocity euler_steps_per_frame
      force_updaters time time_step recent_positions history].
    destruct (update 1 _); reflexivity. }
  eexists. eexists. split; [exact Hinit |]. split; [exact Hrun |].
  apply (stationary_charge_radiates_nothing zeros3 1 1 0.2 8 10 [1] _ _
           [sample 1] (Some 1) 2 0.025 Hinit Hrun); lra.
Defined.


Lemma oscillation_function_bounded_periodic_witness :
  oscillation_function 0.25 0.5 (mkVect3 0 1 0) (1 + INR 3 / 0.5)
  = oscillation_function 0.25 0.5 (mkVect3 0 1 0) 1.
Proof.
  apply (proj2 (proj2
           (oscillation_function_bounded_periodic 0.25 0.5 (mkVect3 0 1 0)
              1 3))).
  lra.
Defined.

Lemma oscillation_quarter_periods :
  oscillation_function 1 (1 / 4) (mkVect3 0 1 0) (1 - 1) = zeros3 /\
  oscillation_function 1 (1 / 4) (mkVect3 0 1 0) 1 = mkVect3 0 1 0 /\
  oscillation_function 1 (1 / 4) (mkVect3 0 1 0) (1 + 1) = zeros3.
Proof.
  unfold oscillation_function.
  replace (TAU * (1 / 4) * (1 - 1)) with 0 by ring.
  replace (TAU * (1 / 4) * 1) with (PI / 2) by (unfold TAU; field).
  replace (TAU * (1 / 4) * (1 + 1)) with PI by (unfold TAU; field).
  rewrite sin_PI, sin_PI2, sin_0.
  repeat split; apply Vect3_eq; unfold smul, zeros3; cbn [vx vy vz]; ring.
Qed.

(** Amplitude 1, frequency 1/4, direction y, frames of size 1 around t = 1:
    the particle is at 0, (0, 1, 0) and 0 again, and the estimate is
    -4 sin^2(pi / 4) = -2 times its position (0, 1, 0). *)
Lemma get_acceleration_of_oscillation_witness :
  exists s1 s2 s3,
    update 1 (move_to (oscillation_function 1 (1 / 4) (mkVect3 0 1 0) (1 - 1))
                (mkParticle 1 1 0.2 zeros3 false 8 zeros3 10 [] 0 (1 / 30)
                   (zeros3, zeros3, zeros3) None)) = Ok s1 /\
    update 1 (move_to (oscillation_function 1 (1 / 4) (mkVect3 0 1 0) 1) s1)
      = Ok s2 /\
    update 1 (move_to (oscillation_function 1 (1 / 4) (mkVect3 0 1 0) (1 + 1)) s2)
      = Ok s3 /\
    recent_positions s3 = (zeros3, mkVect3 0 1 0, zeros3) /\
    get_acceleration s3 =
      smul (- (4 * (sin (PI * (1 / 4) * 1) * sin (PI * (1 / 4) * 1))) / 1 ^ 2)
        (mkVect3 0 1 0).
Proof.
  destruct oscillation_quarter_periods as (E0 & E1 & E2).
  set (pos := oscillation_function 1 (1 / 4) (mkVect3 0 1 0)) in *.
  set (P := mkParticle 1 1 0.2 zeros3 false 8 zeros3 10 [] 0 (1 / 30)
              (zeros3, zeros3, zeros3) None).
  pose (step := fun c s =>
          set_recent_positions
            (snd (fst (recent_positions (move_to c s))),
             snd (recent_positions (move_to c s)), get_center (move_to c s))
            (set_clock (time (move_to c s) + 1) 1 (move_to c s))).
  assert (forall c s, force_updaters s = [] ->
                      track_position_history s = false ->
                      update 1 (move_to c s) = Ok (step c s)) as U.
  { intros c s Hu Ht.
    rewrite update_no_updaters by exact Hu.
    rewrite increment_clock_untracked by (exact Ht || apply R1_neq_R0).
    reflexivity. }
  pose proof (U (pos (1 - 1)) P eq_refl eq_refl) as U1.
  pose proof (U (pos 1) (step (pos (1 - 1)) P) eq_refl eq_refl) as U2.
  pose proof (U (pos (1 + 1)) (step (pos 1) (step (pos (1 - 1)) P))
                eq_refl eq_refl) as U3.
  destruct (get_acceleration_of_oscillation 1 (1 / 4) (mkVect3 0 1 0) 1 1
              P _ _ _ eq_refl R1_neq_R0 U1 U2 U3) as [Hr Ha].
  - fold pos. rewrite E0, E1. apply allclose_false_y. apply isclose_false.
    cbn [vy zeros3]. unfold atol, rtol, Rabs.
    repeat destruct (Rcase_abs _); lra.
  - fold pos. rewrite E1, E2. apply allclose_false_y. apply isclose_false.
    cbn [vy zeros3]. unfold atol, rtol, Rabs.
    repeat destruct (Rcase_abs _); lra.
  - fold pos in Hr, Ha.
    exists (step (pos (1 - 1)) P), (step (pos 1) (step (pos (1 - 1)) P)),
           (step (pos (1 + 1)) (step (pos 1) (step (pos (1 - 1)) P))).
    split; [exact U1 |]. split; [exact U2 |]. split; [exact U3 |].
    split; [rewrite Hr, E0, E1, E2; reflexivity | rewrite Ha, E1; reflexivity].
Defined.

(** ** Neutral sources *)

Lemma coulomb_at_neutral r pt ctr : coulomb_at 0 r pt ctr = zeros3.
Proof.
  unfold coulomb_at. destruct (xsqr _) as [x |]; [| reflexivity].
  apply Vect3_eq; unfold xdiv, sdiv, smul, zeros3; cbn [vx vy vz];
    unfold Rdiv; ring.
Qed.

Lemma zipWith_const_zero {X Y : Type} (f : X -> Y -> Vect3) :
  (forall x y, f x y = zeros3) ->
  forall l m, length m = length l -> zipWith f l m = repeat zeros3 (length l).
Proof.
  intros Hf. induction l as [| x l IH]; intros m Hlen; [reflexivity |].
  destruct m as [| y m]; [discriminate |].
  cbn [zipWith length repeat]. rewrite Hf, (IH m); [reflexivity |].
  simpl in Hlen. lia.
Qed.

Lemma coulomb_force_neutral p points radius :
  history_ok p -> get_charge p = 0 ->
  coulomb_force points p radius = Ok (repeat zeros3 (length points)).
Proof.
  intros Hok Hq.
  destruct (source_positions_ok p points 2 Hok) as (centers & Hc & Hlen).
  rewrite (coulomb_force_pointwise p points radius centers Hc Hlen), Hq.
  f_equal. apply zipWith_const_zero; [| exact Hlen].
  intros pt ctr. apply coulomb_at_neutral.
Qed.

Lemma add_rows_zero L :
  add_rows (repeat zeros3 L) (repeat zeros3 L) = repeat zeros3 L.
Proof.
  unfold add_rows. induction L as [| L IH]; [reflexivity |].
  cbn [repeat zipWith]. rewrite IH. f_equal.
  apply Vect3_eq; unfold vadd, zeros3; cbn [vx vy vz]; ring.
Qed.

Lemma fold_add_rows_zero L arrays :
  Forall (eq (repeat zeros3 L)) arrays ->
  fold_left add_rows arrays (repeat zeros3 L) = repeat zeros3 L.
Proof.
  induction 1 as [| a arrays Ha _ IH]; [reflexivity |].
  cbn [fold_left]. rewrite <- Ha, add_rows_zero. exact IH.
Qed.

(** X28.  A Coulomb field whose sources (at least one, all constructed
    particles) are all neutral is the zero field: [CoulombField.get_forces]
    returns exactly the array of zero rows that the base class
    [ChargeBasedVectorField.get_forces] returns for the same points. *)
Theorem neutral_charges_give_base_field
    (charges : list ChargedParticle) (points : list Vect3) :
  charges <> [] ->
  Forall (fun ch => (exists t, constructed t ch) /\ get_charge ch = 0) charges ->
  CoulombField_get_forces charges points =
    Ok (NdArray (ChargeBasedVectorField_get_forces charges points)).
Proof.
  intros Hne Hall. rewrite Forall_forall in Hall.
  assert (forall ch, In ch charges ->
            coulomb_force points ch None = Ok (repeat zeros3 (length points)))
    as Hzero.
  { intros ch Hin. destruct (Hall ch Hin) as [[t Hc] Hq].
    apply coulomb_force_neutral; [| exact Hq].
    apply (constructed_history_ok t ch Hc). }
  unfold CoulombField_get_forces, ChargeBasedVectorField_get_forces.
  destruct (py_sum_rows (fun ch => coulomb_force points ch None) charges
              (length points) Hne) as [E _].
  { intros ch Hin. rewrite (Hzero ch Hin). eexists. split; [reflexivity |].
    apply repeat_length. }
  rewrite E, map_const_repeat. do 2 f_equal.
  destruct charges as [| ch charges]; [contradiction |].
  cbn [map sum_rows]. rewrite (Hzero ch (or_introl eq_refl)). cbn [rows_of].
  apply fold_add_rows_zero. apply Forall_forall. intros rows Hin.
  apply in_map_iff in Hin. destruct Hin as (ch' & <- & Hin').
  rewrite (Hzero ch' (or_intror Hin')). reflexivity.
Qed.

Lemma neutral_charges_give_base_field_witness :
  exists p,
    ChargedParticle_init (sample 3) 0 1 0.2 true 8 10 = Ok p /\
    CoulombField_get_forces [p] [sample 1; sample 2] =
      Ok (NdArray (ChargeBasedVectorField_get_forces [p] [sample 1; sample 2])).
Proof.
  destruct (fresh_particle_constructed (sample 3) 0 1 0.2 true 8 10)
    as (p & Hinit & Hc); [right; lia |].
  exists p. split; [exact Hinit |].
  apply neutral_charges_give_base_field; [discriminate |].
  repeat constructor; [now exists true |].
  apply (ChargedParticle_init_fields _ _ _ _ _ _ _ _ Hinit).
Defined.
